(** * Brancher: the inference engine ([brancher/inference.py])

    A shallow embedding of the training loop [perform_inference] and of the
    numerical kernels of the inference strategies (Wasserstein and Stein
    variational gradient descent, MAP), with the properties the
    specification states about them.

    Conventions.
    - The probabilistic models, the optimizer wrapper and automatic
      differentiation are collaborators that live outside [inference.py];
      they are taken as an interface ([Collaborators]) whose operations act
      on a world [W] (parameter values, gradients, sampler state) and may
      raise.
    - Exceptions are values of [exn]; a computation that may raise returns a
      [result].
    - Every call the loop makes to a collaborator is logged in a trace of
      [event]s, so that "the optimizer is stepped" is a statement about the
      trace.
    - Tensor arithmetic is read over the real numbers; where the code
      divides by a bandwidth that can be 0.0 or nan (the gradient correction
      of the Stein method), it is read in floats: numbers, infinities and
      nan, with the operations of the reals on numbers. *)

From Stdlib Require Import ZArith List Reals Lra Lia String.
From stdpp Require Import base gmap strings list.

Local Open Scope Z_scope.

(** ** Exceptions and results *)

Inductive exn : Type :=
| IndexError                      (* list index out of range *)
| AssertionError (msg : string)
| ValueError (msg : string)
| AttributeError (attr : string)
| ZeroDivisionError
| TypeError                       (* an operand of the wrong type *)
| Raised (tag : string).          (* raised by a collaborator *)

Inductive result (A : Type) : Type :=
| Ok (a : A)
| Err (e : exn).
Arguments Ok {A} a.
Arguments Err {A} e.

Definition is_ok {A} (r : result A) : Prop := exists a, r = Ok a.

(** A list comprehension whose element expression may raise. *)
Fixpoint rmapM {A B} (f : A -> result B) (l : list A) : result (list B) :=
  match l with
  | nil => Ok nil
  | cons x l' =>
      match f x with
      | Err e => Err e
      | Ok y => match rmapM f l' with
                | Err e => Err e
                | Ok ys => Ok (cons y ys)
                end
      end
  end.

(** ** The collaborators of the training loop *)

(** What ends up in [loss_list]: line 97 appends the flattened array of the
    loss, line 100 the array as it is. *)
Inductive loss_record (Loss : Type) : Type :=
| Flattened (l : Loss)     (* loss.cpu().detach().numpy().flatten() *)
| Plain (l : Loss).        (* loss.cpu().detach().numpy() *)
Arguments Flattened {Loss} l.
Arguments Plain {Loss} l.

Class Collaborators : Type := {
  W : Type;                 (* parameters, gradients, sampler state *)
  Model : Type;             (* a Variable / ProbabilisticModel / list of them *)
  Loss : Type;              (* the tensor returned by compute_loss *)
  PO : Type;                (* a ProbabilisticOptimizer *)
  OptParams : Type;         (* **opt_params *)
  (* torch.isfinite(loss.detach()).all().item() *)
  is_finite : Loss -> bool;
  (* ProbabilisticOptimizer(model, optimizer, **opt_params); a model of
     None is a legal argument of the call *)
  ProbabilisticOptimizer : option Model -> string -> OptParams -> result PO;
  (* truth value of prob_opt.optimizer *)
  po_optimizer : PO -> bool;
  zero_grad : PO -> W -> result W;
  update : PO -> W -> result W;
  (* loss.backward() *)
  backward : Loss -> W -> result W;
  (* joint_model.posterior_model is None *)
  posterior_model_is_None : Model -> W -> bool;
  (* np.array(loss_list): numpy stacks arrays of one shape; a list whose
     arrays differ in shape, such as the flattened copy, of shape (1,), and
     the plain copy, of shape (), of a 0-d loss, is refused with a
     ValueError from numpy 1.24 on and made an array of objects before *)
  np_array : list (loss_record Loss) -> result unit
}.

(** The four flags every strategy sets in its [__init__]. *)
Record flags : Type := {
  learnable_posterior : bool;
  learnable_model : bool;
  needs_sampler : bool;
  learnable_sampler : bool
}.

(** [InferenceMethod]: the operations [perform_inference] calls on the
    strategy object.  A strategy without [set_posterior_model_after_inference]
    is one whose field raises [AttributeError]. *)
Record InferenceMethod `{Collaborators} : Type := {
  im_flags : flags;
  check_model_compatibility :
    Model -> option Model -> option Model -> W -> result unit;
  compute_loss :
    Model -> option Model -> option Model -> nat -> W -> result (Loss * W);
  correct_gradient :
    Model -> option Model -> option Model -> nat -> W -> result W;
  post_process : Model -> W -> result W;
  set_posterior_model_after_inference :
    Model -> option Model -> option Model -> W -> result W
}.

(** The flags of the five strategies, from their constructors. *)
Definition ReverseKL_flags : flags :=
  {| learnable_posterior := true; learnable_model := true;
     needs_sampler := false; learnable_sampler := false |}.
Definition WassersteinVariationalGradientDescent_flags : flags :=
  {| learnable_posterior := true; learnable_model := false;
     needs_sampler := true; learnable_sampler := true |}.
Definition MaximumLikelihood_flags : flags :=
  {| learnable_posterior := false; learnable_model := true;
     needs_sampler := false; learnable_sampler := false |}.
Definition MAP_flags : flags :=
  {| learnable_posterior := true; learnable_model := true;
     needs_sampler := false; learnable_sampler := false |}.
Definition SteinVariationalGradientDescent_flags : flags :=
  {| learnable_posterior := true; learnable_model := false;
     needs_sampler := false; learnable_sampler := false |}.

(** ** The state of a run and its monad *)

Inductive event `{Collaborators} : Type :=
| EvCheckCompatibility
| EvComputeLoss
| EvZeroGrad (o : PO)
| EvBackward
| EvCorrectGradient
| EvUpdate (o : PO)
| EvWarn (msg : string)
| EvPostProcess
| EvSetPosterior.

Record state `{Collaborators} : Type := {
  world : W;
  (* joint_model.diagnostics *)
  diagnostics : gmap string (list (loss_record Loss));
  trace : list event
}.

Definition M `{Collaborators} (A : Type) : Type := state -> result (A * state).

Definition ret `{Collaborators} {A} (a : A) : M A := fun st => Ok (a, st).

Definition bind `{Collaborators} {A B} (m : M A) (k : A -> M B) : M B :=
  fun st => match m st with
            | Ok (a, st') => k a st'
            | Err e => Err e
            end.

Definition raise `{Collaborators} {A} (e : exn) : M A := fun _ => Err e.

Notation "x <- m ;; k" := (bind m (fun x => k))
  (at level 100, m at next level, right associativity).
Notation "m ;;; k" := (bind m (fun _ => k))
  (at level 100, right associativity).

Section Loop.
Context `{C : Collaborators}.

(** Log one event. *)
Definition tick (e : event) : M unit :=
  fun st => Ok (tt, {| world := world st; diagnostics := diagnostics st;
                       trace := trace st ++ [e] |}).

(** Call a collaborator that transforms the world, and log it. *)
Definition call (e : event) (f : W -> result W) : M unit :=
  fun st => match f (world st) with
            | Ok w => Ok (tt, {| world := w; diagnostics := diagnostics st;
                                 trace := trace st ++ [e] |})
            | Err x => Err x
            end.

(** Call a collaborator that also returns a value. *)
Definition call_val {A} (e : event) (f : W -> result (A * W)) : M A :=
  fun st => match f (world st) with
            | Ok (a, w) => Ok (a, {| world := w; diagnostics := diagnostics st;
                                     trace := trace st ++ [e] |})
            | Err x => Err x
            end.

(** [[f(x) for x in xs]] evaluated for its effects. *)
Fixpoint for_each {A} (f : A -> M unit) (xs : list A) : M unit :=
  match xs with
  | [] => ret tt
  | x :: xs' => f x ;;; for_each f xs'
  end.

(** [xs[0]] *)
Definition index0 {A} (xs : list A) : M A :=
  match xs with
  | [] => raise IndexError
  | x :: _ => ret x
  end.

(** [warnings.warn(msg)] *)
Definition warn (msg : string) : M unit := tick (EvWarn msg).

(** *** Lines 70-81: the optimizers *)

Definition append_prob_optimizer (model : option Model) (optimizer : string)
           (opt_params : OptParams) (optimizers_list : list PO)
  : result (list PO) :=
  match ProbabilisticOptimizer model optimizer opt_params with
  | Ok prob_opt =>
      if po_optimizer prob_opt
      then Ok (optimizers_list ++ [prob_opt])
      else Ok optimizers_list
  | Err e => Err e
  end.

Definition build_optimizers (f : flags)
           (joint_model : Model) (posterior_model sampler_model : option Model)
           (optimizer : string) (opt_params : OptParams) : result (list PO) :=
  let optimizers_list := [] in
  match (if learnable_posterior f
         then append_prob_optimizer posterior_model optimizer opt_params optimizers_list
         else Ok optimizers_list) with
  | Err e => Err e
  | Ok optimizers_list =>
      match (if learnable_model f
             then append_prob_optimizer (Some joint_model) optimizer opt_params optimizers_list
             else Ok optimizers_list) with
      | Err e => Err e
      | Ok optimizers_list =>
          if learnable_sampler f
          then append_prob_optimizer sampler_model optimizer opt_params optimizers_list
          else Ok optimizers_list
      end
  end.

(** *** Lines 87-100: one iteration *)

Definition skip_message : string := "Numerical error, skipping sample".

Definition iteration_body (im : InferenceMethod)
           (joint_model : Model) (posterior_model sampler_model : option Model)
           (number_samples : nat) (pretraining_iterations : Z)
           (optimizers_list : list PO)
           (iteration : Z) (loss_list : list (loss_record Loss))
  : M (list (loss_record Loss)) :=
  loss <- call_val EvComputeLoss
            (compute_loss im joint_model posterior_model sampler_model number_samples) ;;
  loss_list <-
    (if is_finite loss then
       for_each (fun opt => call (EvZeroGrad opt) (zero_grad opt)) optimizers_list ;;;
       call EvBackward (backward loss) ;;;
       call EvCorrectGradient
            (correct_gradient im joint_model posterior_model sampler_model number_samples) ;;;
       opt0 <- index0 optimizers_list ;;
       call (EvUpdate opt0) (update opt0) ;;;
       (if pretraining_iterations <? iteration
        then for_each (fun opt => call (EvUpdate opt) (update opt)) (tail optimizers_list)
        else ret tt) ;;;
       ret (loss_list ++ [Flattened loss])
     else
       warn skip_message ;;;
       ret loss_list) ;;
  ret (loss_list ++ [Plain loss]).

(** [for iteration in range(number_iterations)], over the list of the
    iteration indices still to run. *)
Fixpoint training_loop (im : InferenceMethod)
         (joint_model : Model) (posterior_model sampler_model : option Model)
         (number_samples : nat) (pretraining_iterations : Z)
         (optimizers_list : list PO)
         (iterations : list Z) (loss_list : list (loss_record Loss))
  : M (list (loss_record Loss)) :=
  match iterations with
  | [] => ret loss_list
  | iteration :: rest =>
      loss_list <- iteration_body im joint_model posterior_model sampler_model
                     number_samples pretraining_iterations optimizers_list
                     iteration loss_list ;;
      training_loop im joint_model posterior_model sampler_model
                    number_samples pretraining_iterations optimizers_list
                    rest loss_list
  end.

(** [range(n)] *)
Definition range (n : nat) : list Z := map Z.of_nat (seq 0 n).

(** [joint_model.diagnostics.update({"loss curve": np.array(loss_list)})];
    numpy may refuse the list, and the array it builds is represented by the
    list of its entries. *)
Definition record_loss_curve (loss_list : list (loss_record Loss)) : M unit :=
  fun st => match np_array loss_list with
            | Err e => Err e
            | Ok _ =>
                Ok (tt, {| world := world st;
                           diagnostics :=
                             <["loss curve"%string := loss_list]> (diagnostics st);
                           trace := trace st |})
            end.

(** *** Lines 75-106: [perform_inference] once the models are resolved *)

Definition perform_inference (joint_model : Model) (number_iterations : nat)
           (number_samples : nat) (optimizer : string)
           (im : InferenceMethod)
           (posterior_model sampler_model : option Model)
           (pretraining_iterations : Z) (opt_params : OptParams) : M unit :=
  fun st =>
    match build_optimizers (im_flags im) joint_model posterior_model sampler_model
                           optimizer opt_params with
    | Err e => Err e
    | Ok optimizers_list =>
        (call_val EvCheckCompatibility
           (fun w => match check_model_compatibility im joint_model posterior_model
                                                      sampler_model w with
                     | Ok u => Ok (u, w)
                     | Err e => Err e
                     end) ;;;
         loss_list <- training_loop im joint_model posterior_model sampler_model
                        number_samples pretraining_iterations optimizers_list
                        (range number_iterations) [] ;;
         record_loss_curve loss_list ;;;
         call EvPostProcess (post_process im joint_model) ;;;
         (fun st' =>
            if posterior_model_is_None joint_model (world st')
               && learnable_posterior (im_flags im)
            then call EvSetPosterior
                   (set_posterior_model_after_inference im joint_model
                      posterior_model sampler_model) st'
            else ret tt st')) st
    end.

End Loop.

(** ** Tensors over the reals *)

Local Open Scope R_scope.

(** A tensor is the list of its entries.  The strategies only combine
    tensors that belong to the same variable of the same model, so the two
    operands of an elementwise operation have the same shape. *)
Definition tensor : Type := list R.

Definition tsub (x y : tensor) : tensor := zip_with Rminus x y.
Definition tadd (x y : tensor) : tensor := zip_with Rplus x y.
Definition tmul (x y : tensor) : tensor := zip_with Rmult x y.
Definition tscale (c : R) (x : tensor) : tensor := map (Rmult c) x.

(** Python's builtin [sum]: a left fold that starts at 0. *)
Definition py_sum (l : list R) : R := fold_left Rplus l 0.

(** [np.sum] / [torch.sum] over all the entries. *)
Definition np_sum (x : tensor) : R := fold_right Rplus 0 x.

(** Builtin [sum] of a list of tensors: [0 + t0 + t1 + ...], where the first
    addition broadcasts the integer 0. *)
Definition py_sum_tensors (ts : list tensor) : tensor :=
  match ts with
  | [] => []
  | t0 :: rest => fold_left tadd rest (map (Rplus 0) t0)
  end.

(** What a routine can produce: a value, nan, or an exception.
    [NonFinite] is the nan of [np.median] on no data and of what
    [update_bandwidth] makes of it. *)
Inductive outcome (A : Type) : Type :=
| Finite (a : A)
| NonFinite
| Raises (e : exn).
Arguments Finite {A} a.
Arguments NonFinite {A}.
Arguments Raises {A} e.

Definition obind {A B} (m : outcome A) (k : A -> outcome B) : outcome B :=
  match m with
  | Finite a => k a
  | NonFinite => NonFinite
  | Raises e => Raises e
  end.

Notation "x <~ m ;; k" := (obind m (fun x => k))
  (at level 100, m at next level, right associativity).

Fixpoint omapM {A B} (f : A -> outcome B) (l : list A) : outcome (list B) :=
  match l with
  | [] => Finite []
  | x :: l' => y <~ f x ;; ys <~ omapM f l' ;; Finite (y :: ys)
  end.

(** [l[i]] *)
Definition item {A} (l : list A) (i : nat) : outcome A :=
  match l !! i with
  | Some x => Finite x
  | None => Raises IndexError
  end.

(** [enumerate(l)] *)
Definition enumerate {A} (l : list A) : list (nat * A) :=
  combine (seq 0 (length l)) l.

(** ** WassersteinVariationalGradientDescent.post_process (lines 255-258) *)

(** [log_weights.max()]; torch refuses to reduce an empty tensor. *)
Definition tensor_max (x : tensor) : result R :=
  match x with
  | [] => Err (Raised "max of an empty tensor")
  | a :: l => Ok (fold_left Rmax l a)
  end.

Definition ensemble_weights (log_weights : list R) : result tensor :=
  match tensor_max log_weights with
  | Err e => Err e
  | Ok alpha =>
      let un_weights := map (fun l => exp (l - alpha)) log_weights in
      Ok (map (fun u => u / np_sum un_weights) un_weights)
  end.



(** ** SteinVariationalGradientDescent (lines 335-376) *)

(** *** Floats

    numpy and torch do not raise on a division by zero or on an operation
    with nan: the result is an infinity or nan, and the computation goes
    on.  [float] is a number, an infinity or nan.  On numbers the
    operations are those of the reals (no rounding, overflow or underflow).
    A zero divisor is +0.0: the only zero this code divides by is a
    bandwidth, twice a square over a positive logarithm. *)
Inductive float : Type :=
| Num (r : R)
| PInf
| NInf
| NaN.

Definition fneg (x : float) : float :=
  match x with
  | Num a => Num (- a)
  | PInf => NInf
  | NInf => PInf
  | NaN => NaN
  end.

Definition fadd (x y : float) : float :=
  match x, y with
  | NaN, _ | _, NaN => NaN
  | Num a, Num b => Num (a + b)
  | PInf, NInf | NInf, PInf => NaN
  | PInf, _ | _, PInf => PInf
  | NInf, _ | _, NInf => NInf
  end.

(** An infinity times a number has the sign of the product; times 0 it is
    nan. *)
Definition fmul (x y : float) : float :=
  match x, y with
  | NaN, _ | _, NaN => NaN
  | Num a, Num b => Num (a * b)
  | Num a, PInf | PInf, Num a =>
      if Req_dec_T a 0 then NaN else if Rlt_dec 0 a then PInf else NInf
  | Num a, NInf | NInf, Num a =>
      if Req_dec_T a 0 then NaN else if Rlt_dec 0 a then NInf else PInf
  | PInf, PInf | NInf, NInf => PInf
  | PInf, NInf | NInf, PInf => NInf
  end.

(** A number over 0.0 is an infinity of its sign, 0.0 over 0.0 is nan; a
    number over an infinity is 0.0. *)
Definition fdiv (x y : float) : float :=
  match x, y with
  | NaN, _ | _, NaN => NaN
  | Num a, Num b =>
      if Req_dec_T b 0
      then if Req_dec_T a 0 then NaN else if Rlt_dec 0 a then PInf else NInf
      else Num (a / b)
  | Num _, PInf | Num _, NInf => Num 0
  | PInf, Num b => if Rle_dec 0 b then PInf else NInf
  | NInf, Num b => if Rle_dec 0 b then NInf else PInf
  | PInf, PInf | PInf, NInf | NInf, PInf | NInf, NInf => NaN
  end.

(** [np.exp] *)
Definition fexp (x : float) : float :=
  match x with
  | Num a => Num (exp a)
  | PInf => PInf
  | NInf => Num 0
  | NaN => NaN
  end.

(** The number a float holds, for the floats that are numbers. *)
Definition number (x : float) : R :=
  match x with
  | Num a => a
  | _ => 0
  end.

(** A tensor of floats, and the elementwise operations on operands of the
    same shape. *)
Definition ftensor : Type := list float.

Definition ftadd (x y : ftensor) : ftensor := zip_with fadd x y.
Definition ftscale (c : float) (x : ftensor) : ftensor := map (fmul c) x.

(** Builtin [sum] of a list of tensors of floats. *)
Definition py_sum_ftensors (ts : list ftensor) : ftensor :=
  match ts with
  | [] => []
  | t0 :: rest => fold_left ftadd rest (map (fadd (Num 0)) t0)
  end.

(** *** Particles *)

(** A variable of a particle: [variable.value], a tensor of numbers, and
    [variable.value.grad], which is [None] as long as no gradient has been
    computed for the variable. *)
Record variable : Type := { value : tensor; grad : option ftensor }.

(** A particle is a model object; [ident] is the identity of the object
    (what [is] compares), [flatten] the list [particle.flatten()]. *)
Record particle : Type := { ident : nat; flatten : list variable }.

(** [particle1 is not particle2] *)
Definition is_not (particle1 particle2 : particle) : bool :=
  negb (Nat.eqb (ident particle1) (ident particle2)).

(** [self.deviation] *)
Definition deviation (x y : tensor) : R :=
  np_sum (map (fun d => d ^ 2) (tsub x y)).

(** [self.kernel], over the reals: what the lambda computes for a bandwidth
    that is a number other than 0. *)
Definition kernel (d bw : R) : R := exp (- d / (2 * bw)).

(** [self.kernel], in floats: what the lambda computes for any bandwidth. *)
Definition float_kernel (d : R) (bw : float) : float :=
  fexp (fdiv (fneg (Num d)) (fmul (Num 2) bw)).

(** [sum([self.deviation(variable1.value, variable2.value)
          for variable1, variable2 in zip(particle1.flatten(), particle2.flatten())])] *)
Definition pair_deviation (particle1 particle2 : particle) : R :=
  py_sum (map (fun vv => deviation (value (fst vv)) (value (snd vv)))
              (combine (flatten particle1) (flatten particle2))).

Fixpoint insert_sorted (x : R) (l : list R) : list R :=
  match l with
  | [] => [x]
  | y :: l' => if Rle_dec x y then x :: l else y :: insert_sorted x l'
  end.

Fixpoint sort (l : list R) : list R :=
  match l with
  | [] => []
  | x :: l' => insert_sorted x (sort l')
  end.

(** [np.median]: the middle of the sorted data, the mean of the two middle
    entries for an even count, nan for no data. *)
Definition np_median (l : list R) : outcome R :=
  let s := sort l in
  let n := length l in
  if Nat.eqb n 0 then NonFinite
  else if Nat.even n
       then Finite ((nth (n / 2 - 1) s 0 + nth (n / 2) s 0) / 2)
       else Finite (nth (n / 2) s 0).

(** The list [distances] of [update_bandwidth]. *)
Definition distances (posterior_model : list particle) : list R :=
  flat_map (fun particle1 =>
    flat_map (fun particle2 =>
      if is_not particle1 particle2
      then [sqrt (pair_deviation particle1 particle2)]
      else [])
      posterior_model)
    posterior_model.

(** [update_bandwidth]: the new value of [self.bandwidth].  When the median
    is a number there are two distinct particles, so the logarithm of the
    count is positive. *)
Definition update_bandwidth (posterior_model : list particle) : outcome R :=
  m <~ np_median (distances posterior_model) ;;
  Finite (2 * m ^ 2 / ln (INR (length posterior_model))).

(** [self.bandwidth] as the float the rest of [correct_gradient] reads: the
    nan of [update_bandwidth] is a float like another. *)
Definition stored_bandwidth (bw : outcome R) : outcome float :=
  match bw with
  | Finite b => Finite (Num b)
  | NonFinite => Finite NaN
  | Raises e => Raises e
  end.

(** The kernel matrix of lines 356-359 over the reals, for a bandwidth that
    is a number other than 0. *)
Definition kernel_matrix (bandwidth : R) (posterior_model : list particle)
  : list (list R) :=
  map (fun particle2 =>
         map (fun particle1 => kernel (pair_deviation particle1 particle2) bandwidth)
             posterior_model)
      posterior_model.

(** The kernel matrix of lines 356-359 in floats, as [correct_gradient]
    builds it for the bandwidth it has just stored, whatever it is. *)
Definition float_kernel_matrix (bandwidth : float) (posterior_model : list particle)
  : list (list float) :=
  map (fun particle2 =>
         map (fun particle1 =>
                float_kernel (pair_deviation particle1 particle2) bandwidth)
             posterior_model)
      posterior_model.

(** Lines 360-363. *)
Definition interaction_matrix (bandwidth : float) (kernel_matrix : list (list float))
           (posterior_model : list particle) : outcome (list (list (list ftensor))) :=
  omapM (fun ip2 : nat * particle =>
    let (particle_index2, particle2) := ip2 in
    omapM (fun ip1 : nat * particle =>
      let (particle_index1, particle1) := ip1 in
      omapM (fun vv : variable * variable =>
        let (variable1, variable2) := vv in
        row <~ item kernel_matrix particle_index1 ;;
        k <~ item row particle_index2 ;;
        Finite (map (fun d => fdiv (fmul (Num (- d)) k) bandwidth)
                    (tsub (value variable1) (value variable2))))
        (combine (flatten particle1) (flatten particle2)))
      (enumerate posterior_model))
    (enumerate posterior_model).

(** [k * gradient]: a float times [None] raises [TypeError]. *)
Definition times_gradient (k : float) (gradient : option ftensor) : outcome ftensor :=
  match gradient with
  | Some g => Finite (ftscale k g)
  | None => Raises TypeError
  end.

(** The element of the list that line 366 sums:
    [kernel_matrix[particle_index][other_index]*other_gradient[variable_index]
     + interaction_matrix[particle_index][other_index][variable_index]]. *)
Definition gradient_term (kernel_matrix : list (list float))
           (interaction_matrix : list (list (list ftensor)))
           (particle_index variable_index : nat)
           (og : nat * list (option ftensor)) : outcome ftensor :=
  let (other_index, other_gradient) := og in
  krow <~ item kernel_matrix particle_index ;;
  k <~ item krow other_index ;;
  g <~ item other_gradient variable_index ;;
  kg <~ times_gradient k g ;;
  irow <~ item interaction_matrix particle_index ;;
  icell <~ item irow other_index ;;
  t <~ item icell variable_index ;;
  Finite (ftadd kg t).

(** The right-hand side of the assignment of lines 366-367. *)
Definition corrected_grad (kernel_matrix : list (list float))
           (interaction_matrix : list (list (list ftensor)))
           (gradients : list (list (option ftensor)))
           (particle_index variable_index : nat) : outcome ftensor :=
  terms <~ omapM (gradient_term kernel_matrix interaction_matrix
                                particle_index variable_index)
                 (enumerate gradients) ;;
  Finite (py_sum_ftensors terms).

(** [correct_gradient]: returns the bandwidth it has stored and the
    particles with their gradients overwritten.  Nothing in it tests the
    bandwidth: with a bandwidth of 0.0 or nan the same lines run, in
    floats. *)
Definition SVGD_correct_gradient (posterior_model : list particle)
  : outcome (float * list particle) :=
  bandwidth <~ stored_bandwidth (update_bandwidth posterior_model) ;;
  let gradients := map (fun p => map grad (flatten p)) posterior_model in
  let km := float_kernel_matrix bandwidth posterior_model in
  im <~ interaction_matrix bandwidth km posterior_model ;;
  ps <~ omapM (fun ip : nat * particle =>
          let (particle_index, particle) := ip in
          vs <~ omapM (fun iv : nat * variable =>
                  let (variable_index, variable) := iv in
                  g <~ corrected_grad km im gradients particle_index variable_index ;;
                  Finite {| value := value variable; grad := Some g |})
                (enumerate (flatten particle)) ;;
          Finite {| ident := ident particle; flatten := vs |})
        (enumerate posterior_model) ;;
  Finite (bandwidth, ps).

(** The raw gradient of a variable as a tensor of numbers, for the
    variables whose gradient is one. *)
Definition raw_gradient (x : variable) : tensor :=
  match grad x with
  | Some g => map number g
  | None => []
  end.

(** A variable whose gradient has been computed and holds numbers only. *)
Definition has_gradient (x : variable) : Prop :=
  exists g : tensor, grad x = Some (map Num g).

(** The gradient the specification describes for variable [v] of particle
    [i]: the sum over all particles [j] of [k(i,j)] times the raw gradient of
    [j] plus the repulsion term [-(value_i - value_j) k(i,j) / bandwidth]. *)
Definition spec_gradient (bandwidth : R) (posterior_model : list particle)
           (i v : nat) : tensor :=
  let val (p : particle) := value (nth v (flatten p) {| value := []; grad := None |}) in
  let gr (p : particle) :=
    raw_gradient (nth v (flatten p) {| value := []; grad := None |}) in
  let pi := nth i posterior_model {| ident := 0; flatten := [] |} in
  py_sum_tensors
    (map (fun pj =>
            let k := kernel (pair_deviation pi pj) bandwidth in
            tadd (tscale k (gr pj))
                 (map (fun d => - d * k / bandwidth) (tsub (val pi) (val pj))))
         posterior_model).

(** Variable number [v] of a particle. *)
Definition variable_at (p : particle) (v : nat) : variable :=
  nth v (flatten p) {| value := []; grad := None |}.

(** The gradient that lines 364-367 leave on variable [v] of [particle], in
    closed form, when the bandwidth is a number other than 0 and the raw
    gradients are numbers: the sum over the particles [other] of the kernel
    times the raw gradient of [other], plus
    [-(value_other - value_particle)] times the kernel over the
    bandwidth. *)
Definition overwritten_gradient (bandwidth : R) (posterior_model : list particle)
           (particle : particle) (v : nat) : tensor :=
  py_sum_tensors
    (map (fun other =>
            tadd (tscale (kernel (pair_deviation other particle) bandwidth)
                         (raw_gradient (variable_at other v)))
                 (map (fun d => - d * kernel (pair_deviation particle other) bandwidth
                                / bandwidth)
                      (tsub (value (variable_at other v))
                            (value (variable_at particle v)))))
         posterior_model).

(** The interaction matrix of lines 360-363, entry by entry. *)
Definition interaction_entries (bandwidth : float) (posterior_model : list particle)
  : list (list (list ftensor)) :=
  map (fun particle2 =>
         map (fun particle1 =>
                map (fun vv : variable * variable =>
                       map (fun d =>
                              fdiv (fmul (Num (- d))
                                         (float_kernel
                                            (pair_deviation particle2 particle1)
                                            bandwidth))
                                   bandwidth)
                           (tsub (value (fst vv)) (value (snd vv))))
                    (combine (flatten particle1) (flatten particle2)))
             posterior_model)
      posterior_model.

(** The gradient tensor of a variable that has one. *)
Definition gradient_of (x : variable) : ftensor :=
  match grad x with
  | Some g => g
  | None => []
  end.

(** The same closed form in floats, for any bandwidth and any raw
    gradients. *)
Definition float_overwritten_gradient (bandwidth : float)
           (posterior_model : list particle) (particle : particle) (v : nat) : ftensor :=
  py_sum_ftensors
    (map (fun other =>
            ftadd (ftscale (float_kernel (pair_deviation other particle) bandwidth)
                           (gradient_of (variable_at other v)))
                  (map (fun d =>
                          fdiv (fmul (Num (- d))
                                     (float_kernel (pair_deviation particle other)
                                                   bandwidth))
                               bandwidth)
                       (tsub (value (variable_at other v))
                             (value (variable_at particle v)))))
         posterior_model).

(** An outcome that is a value or one of the exceptions [allowed], never a
    non-finite outcome. *)
Definition value_or_raises {A} (allowed : exn -> Prop) (m : outcome A) : Prop :=
  (exists e, allowed e /\ m = Raises e) \/ exists a, m = Finite a.

(** The exceptions of lines 364-367: an index out of range, a gradient that
    is [None]. *)
Definition IndexError_or_TypeError (e : exn) : Prop :=
  e = IndexError \/ e = TypeError.

(** Multiply every value of every particle by [c]. *)
Definition rescale (c : R) (posterior_model : list particle) : list particle :=
  map (fun p => {| ident := ident p;
                   flatten := map (fun v => {| value := tscale c (value v);
                                               grad := grad v |})
                                  (flatten p) |})
      posterior_model.

(** ** WassersteinVariationalGradientDescent.get_particle_loss (lines 218-240) *)

Inductive weight : Type :=
| WFloat (r : R)             (* a Python float *)
| WTensor (w : tensor).      (* a flattened tensor of weights, one per draw *)

(** [to_tensor(w) * t], the float broadcast over the tensor. *)
Definition weigh (w : weight) (t : tensor) : tensor :=
  match w with
  | WFloat r => tscale r t
  | WTensor v => tmul v t
  end.

(** Python's [zip] of three lists. *)
Fixpoint zip3 {A B D} (la : list A) (lb : list B) (ld : list D) : list (A * B * D) :=
  match la, lb, ld with
  | a :: la', b :: lb', d :: ld' => (a, b, d) :: zip3 la' lb' ld'
  | _, _, _ => []
  end.

Section ParticleLoss.
(** The model layer: samplers, particles, samples (dictionaries from
    variables to batches of values) and the helpers of [brancher.utilities]. *)
Context {Sampler Particle Sample Var Value : Type}.
(* sampler._get_sample(number_samples, input_values=..., max_itr=1) *)
Variable sampler_get_sample : Sampler -> nat -> Sample.
(* particle._get_sample(1) *)
Variable particle_get_sample : Particle -> Sample.
(* joint_model.get_importance_weights(q_samples, q_model, for_gradient=False).flatten() *)
Variable get_importance_weights : Sample -> Sampler -> tensor.
Variable reassign_samples : Sample -> Sampler -> Particle -> Sample.
(* zip_dict(a, b).items() *)
Variable zip_dict : Sample -> Sample -> list (Var * (Value * Value)).
(* self.cost_function and self.deviation_statistics.  The statistics are
   taken to be a tensor, as [torch.sum] of line 237 requires: the default,
   builtin [sum], returns the int 0 on the empty list of an empty pair
   dictionary, and [torch.sum(0)] raises TypeError. *)
Variable cost_function : Value -> Value -> tensor.
Variable deviation_statistics : list tensor -> tensor.

(** [self.deviation_statistics([self.cost_function(value_pair[0], value_pair[1].detach())
                                for var, value_pair in particle.items()])] *)
Definition pair_statistics (particle : list (Var * (Value * Value))) : tensor :=
  deviation_statistics
    (map (fun item => cost_function (fst (snd item)) (snd (snd item))) particle).

Definition get_particle_loss (biased : bool)
           (particle_list : list Particle) (sampler_model : list Sampler)
           (number_samples : nat) : result R :=
  let samples_list := map (fun sampler => sampler_get_sample sampler number_samples)
                          sampler_model in
  match (if biased
         then rmapM (fun _ => if Nat.eqb number_samples 0
                              then Err ZeroDivisionError
                              else Ok (WFloat (1 / INR number_samples)))
                    sampler_model
         else Ok (map (fun ss => WTensor (get_importance_weights (fst ss) (snd ss)))
                      (combine samples_list sampler_model)))
  with
  | Err e => Err e
  | Ok importance_weights =>
      let reassigned_samples_list :=
        map (fun ssp => match ssp with
                        | (samples, sampler, particle) =>
                            reassign_samples samples sampler particle
                        end)
            (zip3 samples_list sampler_model particle_list) in
      let pair_list :=
        map (fun ps => zip_dict (particle_get_sample (fst ps)) (snd ps))
            (combine particle_list reassigned_samples_list) in
      if negb biased
      then Ok (py_sum (map (fun pw => np_sum (weigh (snd pw) (pair_statistics (fst pw))))
                           (combine pair_list importance_weights)))
      else Ok (py_sum (map (fun particle => np_sum (pair_statistics particle))
                           pair_list))
  end.

(** The list [pair_list] of the function, for the statements. *)
Definition pair_list_of (particle_list : list Particle) (sampler_model : list Sampler)
           (number_samples : nat) : list (list (Var * (Value * Value))) :=
  map (fun ps => zip_dict (particle_get_sample (fst ps)) (snd ps))
      (combine particle_list
         (map (fun ssp => match ssp with
                          | (samples, sampler, particle) =>
                              reassign_samples samples sampler particle
                          end)
              (zip3 (map (fun sampler => sampler_get_sample sampler number_samples)
                         sampler_model)
                    sampler_model particle_list))).

(** The particle loss in the words of the specification: every batch is
    weighted, and the weighted distances are summed over the particles. *)
Definition weighted_particle_loss (weights : list weight)
           (pairs : list (list (Var * (Value * Value)))) : R :=
  py_sum (map (fun pw => np_sum (weigh (snd pw) (pair_statistics (fst pw))))
              (combine pairs weights)).

End ParticleLoss.

(** ** MAP (lines 302-311) *)

(** The classes [isinstance] tells apart. *)
Inductive variable_class : Type :=
| DeterministicVariable
| RootVariable
| RandomVariable.

Section MAP.
Context {Value : Type}.
(* value[0, 0, :] *)
Variable first_draw : Value -> Value.

Record model_variable : Type := {
  name : string;
  class : variable_class;
  is_observed : bool;
  learnable : bool;
  (* the data of a deterministic variable *)
  data : option Value
}.

(** [DeterministicVariable(data, name, learnable=True)] *)
Definition new_DeterministicVariable (d : Value) (n : string) : model_variable :=
  {| name := n; class := DeterministicVariable; is_observed := false;
     learnable := true; data := Some d |}.

(** Modelled from the spec: [ProbabilisticModel] is not part of
    [inference.py]; a model is the sequence of its variables, which
    [flatten()] returns. *)
Record ProbabilisticModel : Type := { variables : list model_variable }.
Definition model_flatten (m : ProbabilisticModel) : list model_variable := variables m.

(* joint_model._get_sample(1, observed=False).items() *)
Variable get_sample : ProbabilisticModel -> list (model_variable * Value).

(** [isinstance(variable, (DeterministicVariable, RootVariable))] *)
Definition is_deterministic_or_root (v : model_variable) : bool :=
  match class v with
  | DeterministicVariable | RootVariable => true
  | RandomVariable => false
  end.

(** The filter of the comprehension of [construct_posterior_model]. *)
Definition needs_point_estimate (v : model_variable) : bool :=
  negb (is_observed v) && negb (is_deterministic_or_root v).

Definition MAP_construct_posterior_model (joint_model : ProbabilisticModel)
  : ProbabilisticModel :=
  let test_sample := get_sample joint_model in
  {| variables :=
       map (fun item => new_DeterministicVariable (first_draw (snd item)) (name (fst item)))
           (List.filter (fun item => needs_point_estimate (fst item)) test_sample) |}.

Definition MAP_check_model_compatibility (posterior_model : ProbabilisticModel)
  : result unit :=
  if forallb is_deterministic_or_root (model_flatten posterior_model)
  then Ok tt
  else Err (AssertionError "").

End MAP.

(** ** The optimizer roles, in the words of the specification *)

Inductive role : Type := Posterior | Joint | Sampler.

Definition roles : list role := [Posterior; Joint; Sampler].

Definition role_flag (f : flags) (r : role) : bool :=
  match r with
  | Posterior => learnable_posterior f
  | Joint => learnable_model f
  | Sampler => learnable_sampler f
  end.

Section Roles.
Context `{C : Collaborators}.

Definition role_model (joint_model : Model) (posterior_model sampler_model : option Model)
           (r : role) : option Model :=
  match r with
  | Posterior => posterior_model
  | Joint => Some joint_model
  | Sampler => sampler_model
  end.

(** The entries a role contributes to the optimizer list: its optimizer when
    the role is flagged learnable and the model yields one, nothing
    otherwise. *)
Definition role_entry (f : flags)
           (joint_model : Model) (posterior_model sampler_model : option Model)
           (optimizer : string) (opt_params : OptParams) (r : role) : list PO :=
  if role_flag f r then
    match ProbabilisticOptimizer
            (role_model joint_model posterior_model sampler_model r)
            optimizer opt_params with
    | Ok prob_opt => if po_optimizer prob_opt then [prob_opt] else []
    | Err _ => []
    end
  else [].

(** The events one skipped iteration leaves in the trace. *)
Definition skipped_events : list event := [EvComputeLoss; EvWarn skip_message].

(** The events of one iteration that takes the step, for a non-empty
    optimizer list. *)
Definition step_events (pretraining_iterations iteration : Z)
           (opt0 : PO) (others : list PO) : list event :=
  [EvComputeLoss] ++ map EvZeroGrad (opt0 :: others)
    ++ [EvBackward; EvCorrectGradient; EvUpdate opt0]
    ++ (if (pretraining_iterations <? iteration)%Z then map EvUpdate others else []).

(** What an iteration that completes adds to the loss history. *)
Definition history_entries (l : Loss) : list (loss_record Loss) :=
  if is_finite l then [Flattened l; Plain l] else [Plain l].

(** What ends the iteration of a finite loss when the optimizer list is
    empty: the exception of [loss.backward()] or of [correct_gradient] when
    one of them raises, the [IndexError] of [optimizers_list[0]] when both
    return. *)
Definition step_error_without_optimizer (im : InferenceMethod)
           (joint_model : Model) (posterior_model sampler_model : option Model)
           (number_samples : nat) (loss : Loss) (w : W) : exn :=
  match backward loss w with
  | Err e => e
  | Ok w' =>
      match correct_gradient im joint_model posterior_model sampler_model
                             number_samples w' with
      | Err e => e
      | Ok _ => IndexError
      end
  end.

(** A computation that leaves [joint_model.diagnostics] alone. *)
Definition keeps_diagnostics {A} (m : M A) : Prop :=
  forall st a st', m st = Ok (a, st') -> diagnostics st' = diagnostics st.

End Roles.

(** ** A small instance of the collaborators

    One integer parameter; a model is the number of its learnable
    parameters; an optimizer remembers the model it was built for and moves
    the parameter by one at each update; the loss is the current parameter,
    or nan, in a tensor of shape (1,), so that numpy stacks the history. *)

Definition toy : Collaborators := {|
  W := Z;
  Model := nat;
  Loss := option Z;
  PO := nat;
  OptParams := unit;
  is_finite := fun l => match l with Some _ => true | None => false end;
  ProbabilisticOptimizer := fun m _ _ =>
    match m with
    | Some k => Ok k
    | None => Err (ValueError "the model is None")
    end;
  po_optimizer := fun po => negb (Nat.eqb po 0);
  zero_grad := fun _ w => Ok w;
  update := fun _ w => Ok (w + 1)%Z;
  backward := fun _ w => Ok w;
  posterior_model_is_None := fun _ _ => false;
  np_array := fun _ => Ok tt
|}.

(** A strategy over [toy] whose loss is nan when [nan] is set. *)
Definition toy_method (f : flags) (nan : bool) : @InferenceMethod toy :=
  @Build_InferenceMethod toy f
    (fun _ _ _ _ => Ok tt)
    (fun _ _ _ _ w => Ok (if nan then None else Some w, w))
    (fun _ _ _ _ w => Ok w)
    (fun _ w => Ok w)
    (fun _ _ _ w => Ok w).

Definition toy_state (w : Z) : @state toy := @Build_state toy w ∅ [].

(** ** Small particle systems *)

(** A particle with one scalar variable of value [x] and gradient [g]. *)
Definition point (i : nat) (x g : R) : particle :=
  {| ident := i; flatten := [{| value := [x]; grad := Some [Num g] |}] |}.

(** Three particles at the same place. *)
Definition coincident_particles : list particle :=
  [point 0 0 0; point 1 0 0; point 2 0 0].

(** Two particles at distance 1 whose raw gradients vanish. *)
Definition two_particles : list particle := [point 0 0 0; point 1 1 0].

(** ** A small instance of the model layer

    One sampler and one particle with a single variable, two draws whose
    cost to the particle is 1 each; the statistics are the default
    [lambda lst: sum(lst)]. *)

Definition toy_particle_loss (biased : bool) : result R :=
  get_particle_loss (Sampler := unit) (Particle := unit) (Sample := unit)
                    (Var := unit) (Value := unit)
                    (fun _ _ => tt) (fun _ => tt) (fun _ _ => [1 / 2; 1 / 2])
                    (fun _ _ _ => tt) (fun _ _ => [(tt, (tt, tt))])
                    (fun _ _ => [1; 1]) py_sum_tensors
                    biased [tt] [tt] 2.

(** The same two draws weighted by 1/number_samples each. *)
Definition toy_uniformly_weighted_loss : R :=
  weighted_particle_loss (Var := unit) (Value := unit)
                         (fun _ _ => [1; 1]) py_sum_tensors
                         [WFloat (1 / INR 2)]
                         [[(tt, (tt, tt))]].

(** ** A small joint model for MAP

    A latent mean, a root scale, an observed datum, a deterministic
    transform and a second latent variable; a sample gives the value 7 to
    every variable. *)

Definition toy_joint_model : @ProbabilisticModel nat :=
  {| variables :=
       [ {| name := "mu"; class := RandomVariable; is_observed := false;
            learnable := false; data := None |};
         {| name := "sigma"; class := RootVariable; is_observed := false;
            learnable := true; data := None |};
         {| name := "x"; class := RandomVariable; is_observed := true;
            learnable := false; data := None |};
         {| name := "d"; class := DeterministicVariable; is_observed := false;
            learnable := false; data := Some 3%nat |};
         {| name := "z"; class := RandomVariable; is_observed := false;
            learnable := false; data := None |} ] |}.

Definition toy_get_sample (m : @ProbabilisticModel nat)
  : list (@model_variable nat * nat) :=
  map (fun v => (v, 7%nat)) (variables m).

(** ** The five strategy classes and the front of [perform_inference] *)

Inductive strategy : Type :=
| ReverseKL
| WassersteinVariationalGradientDescent
| MaximumLikelihood
| MAP
| SteinVariationalGradientDescent.

Definition strategy_flags (s : strategy) : flags :=
  match s with
  | ReverseKL => ReverseKL_flags
  | WassersteinVariationalGradientDescent => WassersteinVariationalGradientDescent_flags
  | MaximumLikelihood => MaximumLikelihood_flags
  | MAP => MAP_flags
  | SteinVariationalGradientDescent => SteinVariationalGradientDescent_flags
  end.

(** Line 52. *)
Definition default_method_message : string :=
  "The inference method was not specified, using the default reverse KL variational inference".

(** Line 124: [InferenceMethod.construct_posterior_model]. *)
Definition base_construction_message : string :=
  "Automatic construction of the posterior model is not currently implemented for this inference method. Set the posterior model manually".

(** Line 153: [ReverseKL.construct_posterior_model]. *)
Definition ReverseKL_construction_message : string :=
  "The variational model cannot be constructed automatically as the latent submodel does not contains all the variables".

Section Strategies.
Context `{C : Collaborators}.

(** The object of class [s].  The bodies that reach into the model layer
    come from [raw]; a method whose body is [pass] does nothing, and a
    method the class neither defines nor inherits raises [AttributeError]
    when it is called. *)
Definition method_of (s : strategy) (raw : InferenceMethod) : InferenceMethod :=
  {| im_flags := strategy_flags s;
     check_model_compatibility :=
       match s with
       | WassersteinVariationalGradientDescent | MAP => check_model_compatibility raw
       | _ => fun _ _ _ _ => Ok tt
       end;
     compute_loss := compute_loss raw;
     correct_gradient :=
       match s with
       | SteinVariationalGradientDescent => correct_gradient raw
       | _ => fun _ _ _ _ w => Ok w
       end;
     post_process :=
       match s with
       | WassersteinVariationalGradientDescent => post_process raw
       | _ => fun _ w => Ok w
       end;
     set_posterior_model_after_inference :=
       match s with
       | ReverseKL | WassersteinVariationalGradientDescent =>
           set_posterior_model_after_inference raw
       | _ => fun _ _ _ _ => Err (AttributeError "set_posterior_model_after_inference")
       end |}.

(** [inference_method.construct_posterior_model(joint_model)], by class:
    [ReverseKL] overrides the base method with another [ValueError],
    [MaximumLikelihood] returns [None], [MAP] builds its point masses
    ([MAP_construct], which draws a sample), the two particle methods
    inherit the base method. *)
Definition construct_posterior_model (s : strategy)
           (MAP_construct : Model -> W -> result (Model * W))
           (joint_model : Model) (w : W) : result (option Model * W) :=
  match s with
  | ReverseKL => Err (ValueError ReverseKL_construction_message)
  | MaximumLikelihood => Ok (None, w)
  | MAP => match MAP_construct joint_model w with
           | Ok (m, w') => Ok (Some m, w')
           | Err e => Err e
           end
  | WassersteinVariationalGradientDescent | SteinVariationalGradientDescent =>
      Err (ValueError base_construction_message)
  end.

(** Lines 58-66.  [falsy] is the truth value Python gives a model object
    (an empty list of samplers is false); only the Wasserstein class has a
    [sampler_model] attribute; [joint_posterior_sampler] is [None] when the
    joint model has no [posterior_sampler] attribute. *)
Definition resolve_sampler_model (s : strategy) (falsy : Model -> bool)
           (sampler_model : option Model) (own_samplers : Model)
           (joint_posterior_sampler : option (option Model)) : option Model :=
  if match sampler_model with None => true | Some m => falsy m end
  then match s with
       | WassersteinVariationalGradientDescent => Some own_samplers
       | _ => match joint_posterior_sampler with
              | Some attribute => attribute
              | None => None
              end
       end
  else sampler_model.

(** A call into the model layer that the trace does not record. *)
Definition quiet {A} (f : W -> result (A * W)) : M A :=
  fun st => match f (world st) with
            | Ok (a, w) => Ok (a, {| world := w; diagnostics := diagnostics st;
                                     trace := trace st |})
            | Err e => Err e
            end.

(** Lines 51-106: [perform_inference] for a joint model that is a
    [ProbabilisticModel].  [joint_posterior_model] reads
    [joint_model.posterior_model]. *)
Definition perform_inference_from_arguments
           (joint_model : Model) (number_iterations number_samples : nat)
           (optimizer : string) (inference_method : option strategy)
           (raw : InferenceMethod)
           (MAP_construct : Model -> W -> result (Model * W))
           (own_samplers : Model) (falsy : Model -> bool)
           (joint_posterior_model : W -> option Model)
           (joint_posterior_sampler : option (option Model))
           (update_observed_submodel : W -> result W)
           (posterior_model sampler_model : option Model)
           (pretraining_iterations : Z) (opt_params : OptParams) : M unit :=
  s <- match inference_method with
       | None => warn default_method_message ;;; ret ReverseKL
       | Some s => ret s
       end ;;
  posterior_model <-
    quiet (fun w => match posterior_model, joint_posterior_model w with
                    | None, Some attached => Ok (Some attached, w)
                    | _, _ => Ok (posterior_model, w)
                    end) ;;
  posterior_model <-
    match posterior_model with
    | None => quiet (construct_posterior_model s MAP_construct joint_model)
    | Some m => ret (Some m)
    end ;;
  let sampler_model :=
    resolve_sampler_model s falsy sampler_model own_samplers joint_posterior_sampler in
  quiet (fun w => match update_observed_submodel w with
                  | Ok w' => Ok (tt, w')
                  | Err e => Err e
                  end) ;;;
  perform_inference joint_model number_iterations number_samples optimizer
                    (method_of s raw) posterior_model sampler_model
                    pretraining_iterations opt_params.

(** The events of one completed iteration on the optimizers
    [opt0 :: others]. *)
Definition iteration_events (pretraining_iterations : Z) (opt0 : PO) (others : list PO)
           (iteration : Z) (l : Loss) : list event :=
  if is_finite l
  then step_events pretraining_iterations iteration opt0 others
  else skipped_events.

End Strategies.

(** The small instance with a joint model whose posterior slot is empty. *)
Definition toy_unattached : Collaborators := {|
  W := Z;
  Model := nat;
  Loss := option Z;
  PO := nat;
  OptParams := unit;
  is_finite := fun l => match l with Some _ => true | None => false end;
  ProbabilisticOptimizer := fun m _ _ =>
    match m with
    | Some k => Ok k
    | None => Err (ValueError "the model is None")
    end;
  po_optimizer := fun po => negb (Nat.eqb po 0);
  zero_grad := fun _ w => Ok w;
  update := fun _ w => Ok (w + 1)%Z;
  backward := fun _ w => Ok w;
  posterior_model_is_None := fun _ _ => true;
  np_array := fun _ => Ok tt
|}.

Definition toy_unattached_method (nan : bool) : @InferenceMethod toy_unattached :=
  @Build_InferenceMethod toy_unattached ReverseKL_flags
    (fun _ _ _ _ => Ok tt)
    (fun _ _ _ _ w => Ok (if nan then None else Some w, w))
    (fun _ _ _ _ w => Ok w)
    (fun _ w => Ok w)
    (fun _ _ _ w => Ok w).

(** The small instance with a loss that no parameter enters: there is
    nothing to differentiate and [loss.backward()] raises. *)
Definition toy_constant : Collaborators := {|
  W := Z;
  Model := nat;
  Loss := option Z;
  PO := nat;
  OptParams := unit;
  is_finite := fun l => match l with Some _ => true | None => false end;
  ProbabilisticOptimizer := fun m _ _ =>
    match m with
    | Some k => Ok k
    | None => Err (ValueError "the model is None")
    end;
  po_optimizer := fun po => negb (Nat.eqb po 0);
  zero_grad := fun _ w => Ok w;
  update := fun _ w => Ok (w + 1)%Z;
  backward := fun _ _ => Err (Raised "RuntimeError");
  posterior_model_is_None := fun _ _ => false;
  np_array := fun _ => Ok tt
|}.

Definition toy_constant_method : @InferenceMethod toy_constant :=
  @Build_InferenceMethod toy_constant MaximumLikelihood_flags
    (fun _ _ _ _ => Ok tt)
    (fun _ _ _ _ w => Ok (Some w, w))
    (fun _ _ _ _ w => Ok w)
    (fun _ w => Ok w)
    (fun _ _ _ w => Ok w).

(** ** WassersteinVariationalGradientDescent.__init__ (lines 195-201) *)

(** [np.argmin]: the index of the first smallest entry; [best_index] and
    [best] are the index and the value of the smallest entry among the
    first [index] ones. *)
Fixpoint argmin_from (best_index : nat) (best : R) (index : nat) (a : list R) : nat :=
  match a with
  | [] => best_index
  | x :: a' =>
      if Rlt_dec x best
      then argmin_from index x (S index) a'
      else argmin_from best_index best (S index) a'
  end.

Definition np_argmin (a : list R) : result nat :=
  match a with
  | [] => Err (ValueError "attempt to get argmin of an empty sequence")
  | x :: a' => Ok (argmin_from 0 x 1 a')
  end.

(** [lambda a, idx=index: True if (idx == np.argmin(a)) else False] *)
Definition truncation_rule (idx : nat) (a : list R) : result bool :=
  match np_argmin a with
  | Ok m => Ok (Nat.eqb idx m)
  | Err e => Err e
  end.

Section WassersteinInit.
Context {Sampler Particle Statistics Truncated : Type}.
(* truncate_model(model=sampler, truncation_rule=rule, model_statistics=model_statistics) *)
Variable truncate_model : Sampler -> (list R -> result bool) -> Statistics -> Truncated.

(** One rule per index of [range(len(particles))]. *)
Definition truncation_rules (particles : list Particle) : list (list R -> result bool) :=
  map truncation_rule (seq 0 (length particles)).

(** [self.sampler_model] *)
Definition WVGD_sampler_model (variational_samplers : list Sampler)
           (particles : list Particle) (model_statistics : Statistics) : list Truncated :=
  map (fun sr => truncate_model (fst sr) (snd sr) model_statistics)
      (combine variational_samplers (truncation_rules particles)).

End WassersteinInit.

(** ** The losses of MaximumLikelihood and MAP (lines 282-285, 313-319)

    A sample is a dictionary from the identity of a variable to its value. *)

Section PointEstimateLoss.
Context {Value : Type}.
(* joint_model.calculate_log_probability(sample, for_gradient=True) *)
Variable calculate_log_probability : gmap nat Value -> tensor.

(** [empirical_samples] is the sample of the observed submodel. *)
Definition MaximumLikelihood_compute_loss (empirical_samples : gmap nat Value) : R :=
  let loss := map Ropp (calculate_log_probability empirical_samples) in
  np_sum loss.

(** [variable_values] is the reassigned sample of the posterior model;
    [variable_values.update(empirical_samples)] lets the observed values
    win. *)
Definition MAP_compute_loss (empirical_samples variable_values : gmap nat Value) : R :=
  let variable_values := empirical_samples ∪ variable_values in
  let loss := map Ropp (calculate_log_probability variable_values) in
  np_sum loss.

End PointEstimateLoss.

(** Two particles with one and two variables. *)
Definition ragged_particles : list particle :=
  [point 0 0 0;
   {| ident := 1;
      flatten := [{| value := [1]; grad := Some [Num 0] |};
                  {| value := [5]; grad := Some [Num 0] |}] |}].

(** Two particles, the second of which has received no gradient. *)
Definition no_gradient_particles : list particle :=
  [point 0 0 0; {| ident := 1; flatten := [{| value := [1]; grad := None |}] |}].

(** * Properties of the training loop *)

Section LoopFacts.
Context `{C : Collaborators}.
Variable im : InferenceMethod.
Variables (joint_model : Model) (posterior_model sampler_model : option Model).
Variable number_samples : nat.
Variable pretraining_iterations : Z.

Local Abbreviation body :=
  (iteration_body im joint_model posterior_model sampler_model
                  number_samples pretraining_iterations).
Local Abbreviation loop :=
  (training_loop im joint_model posterior_model sampler_model
                 number_samples pretraining_iterations).
Local Abbreviation loss_of :=
  (compute_loss im joint_model posterior_model sampler_model number_samples).
Local Abbreviation correct :=
  (correct_gradient im joint_model posterior_model sampler_model number_samples).

Lemma bind_Ok {A B} (m : M A) (k : A -> M B) st a st' :
  m st = Ok (a, st') -> bind m k st = k a st'.
Proof. intros H. unfold bind. now rewrite H. Qed.

Lemma bind_inv {A B} (m : M A) (k : A -> M B) st b st2 :
  bind m k st = Ok (b, st2) ->
  exists a st1, m st = Ok (a, st1) /\ k a st1 = Ok (b, st2).
Proof.
  unfold bind. destruct (m st) as [[a st1]|e]; [|discriminate].
  intros H. now exists a, st1.
Qed.

Lemma call_val_Ok {A} e (f : W -> result (A * W)) st a w :
  f (world st) = Ok (a, w) ->
  call_val e f st = Ok (a, {| world := w; diagnostics := diagnostics st;
                              trace := trace st ++ [e] |}).
Proof. intros H. unfold call_val. now rewrite H. Qed.


Lemma keeps_ret {A} (a : A) : keeps_diagnostics (ret a).
Proof. intros st a' st' H. unfold ret in H. inversion H; subst. reflexivity. Qed.

Lemma keeps_bind {A B} (m : M A) (k : A -> M B) :
  keeps_diagnostics m -> (forall a, keeps_diagnostics (k a)) ->
  keeps_diagnostics (bind m k).
Proof.
  intros Hm Hk st b st2 H. apply bind_inv in H as (a & st1 & H1 & H2).
  rewrite (Hk _ _ _ _ H2). exact (Hm _ _ _ H1).
Qed.

Lemma keeps_call e f : keeps_diagnostics (call e f).
Proof.
  intros st a st'. unfold call. destruct (f (world st)); [|discriminate].
  intros H. inversion H; subst. reflexivity.
Qed.

Lemma keeps_call_val {A} e (f : W -> result (A * W)) : keeps_diagnostics (call_val e f).
Proof.
  intros st a st'. unfold call_val. destruct (f (world st)) as [[a0 w]|]; [|discriminate].
  intros H. inversion H; subst. reflexivity.
Qed.

Lemma keeps_tick e : keeps_diagnostics (tick e).
Proof. intros st a st' H. unfold tick in H. inversion H; subst. reflexivity. Qed.

Lemma keeps_for_each {A} (f : A -> M unit) xs :
  (forall x, keeps_diagnostics (f x)) -> keeps_diagnostics (for_each f xs).
Proof.
  intros Hf. induction xs as [|x xs IH]; simpl.
  - apply keeps_ret.
  - apply keeps_bind; [apply Hf | intros _; exact IH].
Qed.

Lemma keeps_index0 {A} (xs : list A) : keeps_diagnostics (index0 xs).
Proof. destruct xs; simpl; [intros st a st' H; discriminate | apply keeps_ret]. Qed.

Lemma keeps_body optimizers_list iteration loss_list :
  keeps_diagnostics (body optimizers_list iteration loss_list).
Proof.
  unfold iteration_body.
  apply keeps_bind; [apply keeps_call_val|intros l].
  apply keeps_bind; [|intros; apply keeps_ret].
  destruct (is_finite l).
  - repeat (apply keeps_bind; [|intros]);
      try apply keeps_call; try apply keeps_ret; try apply keeps_index0.
    + apply keeps_for_each. intros; apply keeps_call.
    + destruct (pretraining_iterations <? iteration)%Z; [|apply keeps_ret].
      apply keeps_for_each. intros; apply keeps_call.
  - apply keeps_bind; [apply keeps_tick|intros; apply keeps_ret].
Qed.

Lemma keeps_loop optimizers_list iterations :
  forall loss_list, keeps_diagnostics (loop optimizers_list iterations loss_list).
Proof.
  induction iterations as [|i rest IH]; intros loss_list; simpl.
  - apply keeps_ret.
  - apply keeps_bind; [apply keeps_body | intros; apply IH].
Qed.


(** The iteration of a non-finite loss: a warning, nothing else. *)
Lemma iteration_nonfinite optimizers_list iteration loss_list st l w :
  loss_of (world st) = Ok (l, w) ->
  is_finite l = false ->
  body optimizers_list iteration loss_list st
  = Ok (loss_list ++ [Plain l],
        {| world := w; diagnostics := diagnostics st;
           trace := trace st ++ skipped_events |}).
Proof.
  intros Hl Hf. unfold iteration_body.
  rewrite (bind_Ok _ _ _ _ _ (call_val_Ok EvComputeLoss _ st l w Hl)).
  rewrite Hf. unfold bind, warn, tick, ret, skipped_events. simpl.
  now rewrite <- app_assoc.
Qed.

(** The iteration of a finite loss with no optimizer at all. *)
Lemma iteration_finite_no_optimizer iteration loss_list st l w1 :
  loss_of (world st) = Ok (l, w1) ->
  is_finite l = true ->
  body [] iteration loss_list st
  = Err (step_error_without_optimizer im joint_model posterior_model sampler_model
                                      number_samples l w1).
Proof.
  intros Hl Hf. unfold iteration_body, step_error_without_optimizer.
  rewrite (bind_Ok _ _ _ _ _ (call_val_Ok EvComputeLoss _ st l w1 Hl)).
  rewrite Hf. simpl.
  unfold bind at 1. unfold bind at 1. unfold ret at 1.
  unfold bind at 1. unfold call at 1. simpl world.
  destruct (backward l w1) as [w2|e]; [|reflexivity].
  unfold bind at 1. unfold call at 1. simpl world.
  destruct (correct w2) as [w3|e]; reflexivity.
Qed.

(** What a completed iteration appends to the history. *)
Lemma iteration_history optimizers_list iteration loss_list st loss_list' st' :
  body optimizers_list iteration loss_list st = Ok (loss_list', st') ->
  exists l w, loss_of (world st) = Ok (l, w) /\
    loss_list' = loss_list ++ (if is_finite l then [Flattened l; Plain l] else [Plain l]) /\
    (is_finite l = true -> optimizers_list <> []).
Proof.
  unfold iteration_body. intros H.
  apply bind_inv in H as (l & st1 & H1 & H).
  unfold call_val in H1.
  destruct (loss_of (world st)) as [[l0 w0]|e] eqn:El; [|discriminate].
  injection H1 as -> <-.
  exists l, w0. split; [reflexivity|].
  apply bind_inv in H as (ll1 & st2 & H2 & H).
  unfold ret in H. injection H as <- <-.
  destruct (is_finite l) eqn:Ef.
  - apply bind_inv in H2 as ([] & sa & Ha & H2).
    apply bind_inv in H2 as ([] & sb & Hb & H2).
    apply bind_inv in H2 as ([] & sc & Hc & H2).
    apply bind_inv in H2 as (o & sd & Hd & H2).
    apply bind_inv in H2 as ([] & se & He & H2).
    apply bind_inv in H2 as ([] & sf & Hf & H2).
    unfold ret in H2. injection H2 as <- <-.
    split; [now rewrite <- app_assoc|].
    intros _ ->. discriminate.
  - apply bind_inv in H2 as ([] & sa & Ha & H2).
    unfold ret in H2. injection H2 as <- <-.
    split; [reflexivity|discriminate].
Qed.


Lemma loop_app optimizers_list iters1 iters2 :
  forall loss_list st,
    loop optimizers_list (iters1 ++ iters2) loss_list st
    = bind (loop optimizers_list iters1 loss_list)
           (fun ll => loop optimizers_list iters2 ll) st.
Proof.
  induction iters1 as [|i rest IH]; intros loss_list st; simpl.
  - reflexivity.
  - unfold bind.
    destruct (body optimizers_list i loss_list st) as [[ll1 st1]|e]; [|reflexivity].
    rewrite IH. reflexivity.
Qed.

(** A completed run over an empty optimizer list saw only non-finite
    losses. *)
Lemma loop_no_optimizer_history iterations :
  forall loss_list st loss_list' st',
    loop [] iterations loss_list st = Ok (loss_list', st') ->
    exists losses,
      loss_list' = loss_list ++ map Plain losses /\
      Forall (fun l => is_finite l = false) losses /\
      length losses = length iterations.
Proof.
  induction iterations as [|i rest IH]; intros loss_list st loss_list' st' H; simpl in H.
  - injection H as <- <-. exists []. simpl. now rewrite app_nil_r.
  - apply bind_inv in H as (ll1 & st1 & H1 & H2).
    apply iteration_history in H1 as (l & w & Hl & -> & Hne).
    destruct (is_finite l) eqn:Ef; [now destruct (Hne eq_refl)|].
    apply IH in H2 as (losses & -> & Hall & Hlen).
    exists (l :: losses). simpl. rewrite <- app_assoc. simpl.
    repeat split; [now constructor | now rewrite Hlen].
Qed.

End LoopFacts.

Section LoopClaims.
Context `{C : Collaborators}.
Variable im : InferenceMethod.
Variables (joint_model : Model) (posterior_model sampler_model : option Model).
Variable number_samples : nat.
Variable pretraining_iterations : Z.
Variables (optimizer : string) (opt_params : OptParams).

Local Abbreviation body :=
  (iteration_body im joint_model posterior_model sampler_model
                  number_samples pretraining_iterations).
Local Abbreviation loop :=
  (training_loop im joint_model posterior_model sampler_model
                 number_samples pretraining_iterations).
Local Abbreviation loss_of :=
  (compute_loss im joint_model posterior_model sampler_model number_samples).
Local Abbreviation correct :=
  (correct_gradient im joint_model posterior_model sampler_model number_samples).
Local Abbreviation optimizers :=
  (build_optimizers (im_flags im) joint_model posterior_model sampler_model
                    optimizer opt_params).
Local Abbreviation run n :=
  (perform_inference joint_model n number_samples optimizer im
                     posterior_model sampler_model pretraining_iterations opt_params).

Lemma loop_history optimizers_list iterations :
  forall loss_list st loss_list' st',
    loop optimizers_list iterations loss_list st = Ok (loss_list', st') ->
    exists losses,
      length losses = length iterations /\
      loss_list' = loss_list ++ flat_map history_entries losses.
Proof.
  induction iterations as [|i rest IH]; intros loss_list st loss_list' st' H; simpl in H.
  - injection H as <- <-. exists []. simpl. now rewrite app_nil_r.
  - apply bind_inv in H as (ll1 & st1 & H1 & H2).
    apply iteration_history in H1 as (l & w & _ & -> & _).
    apply IH in H2 as (losses & Hlen & ->).
    exists (l :: losses). simpl. rewrite <- app_assoc.
    split; [now rewrite Hlen | reflexivity].
Qed.

Lemma length_range n : length (range n) = n.
Proof. unfold range. now rewrite length_map, length_seq. Qed.

(** A completed call of [perform_inference] ran the loop on the optimizers
    it built and left the final history under "loss curve". *)
Lemma perform_inference_inv n st st' :
  run n st = Ok (tt, st') ->
  exists optimizers_list st1 loss_list st2,
    optimizers = Ok optimizers_list /\
    loop optimizers_list (range n) [] st1 = Ok (loss_list, st2) /\
    diagnostics st' !! "loss curve"%string = Some loss_list.
Proof.
  unfold perform_inference. intros H.
  destruct optimizers as [optimizers_list|e]; [|discriminate].
  apply bind_inv in H as ([] & st1 & _ & H).
  apply bind_inv in H as (loss_list & st2 & Hloop & H).
  apply bind_inv in H as ([] & st3 & Hrec & H).
  apply bind_inv in H as ([] & st4 & Hpost & H).
  exists optimizers_list, st1, loss_list, st2.
  split; [reflexivity|]. split; [exact Hloop|].
  assert (H4 : diagnostics st' = diagnostics st4).
  { destruct (posterior_model_is_None joint_model (world st4)
              && learnable_posterior (im_flags im)).
    - exact (keeps_call _ _ _ _ _ H).
    - exact (keeps_ret _ _ _ _ H). }
  rewrite H4, (keeps_call _ _ _ _ _ Hpost).
  unfold record_loss_curve in Hrec.
  destruct (np_array loss_list) as [[]|e]; [|discriminate].
  injection Hrec as <-. simpl.
  apply lookup_insert_eq.
Qed.

(** C1. The history kept under "loss curve" after a completed run holds, for
    every iteration, the loss twice when it was finite (the step was taken)
    and once when it was not (the step was skipped): the loss of an
    iteration is not appended exactly once, nor only when the step was
    taken. *)
Theorem loss_history_two_entries_per_step n st st' :
  perform_inference joint_model n number_samples optimizer im
                    posterior_model sampler_model pretraining_iterations opt_params st
  = Ok (tt, st') ->
  exists losses,
    length losses = n /\
    diagnostics st' !! "loss curve"%string
    = Some (flat_map (fun l => if is_finite l
                               then [Flattened l; Plain l]
                               else [Plain l]) losses).
Proof.
  intros H.
  apply perform_inference_inv in H as (opts & st1 & ll & st2 & _ & Hloop & Hd).
  apply loop_history in Hloop as (losses & Hlen & ->).
  exists losses. rewrite Hlen, length_range. split; [reflexivity|exact Hd].
Qed.

(** C2. An iteration whose loss is not finite only computes the loss and
    warns: the world is the one [compute_loss] left, the trace gains no
    gradient clearing, backpropagation, gradient correction or optimizer
    step, and nothing is raised.  Hence over any number of iterations of a
    model whose loss is never finite the run returns and whatever
    [compute_loss] preserves (the parameters) is unchanged. *)
Theorem non_finite_loss_skips_the_step optimizers_list :
  (forall iteration loss_list st l w,
      loss_of (world st) = Ok (l, w) ->
      is_finite l = false ->
      body optimizers_list iteration loss_list st
      = Ok (loss_list ++ [Plain l],
            {| world := w; diagnostics := diagnostics st;
               trace := trace st ++ [EvComputeLoss; EvWarn skip_message] |}))
  /\
  (forall (P : Type) (params : W -> P),
      (forall w, exists l w', loss_of w = Ok (l, w') /\ is_finite l = false
                              /\ params w' = params w) ->
      forall iterations loss_list st,
      exists loss_list' st',
        loop optimizers_list iterations loss_list st = Ok (loss_list', st') /\
        params (world st') = params (world st) /\
        trace st' = trace st
                      ++ concat (map (fun _ => [EvComputeLoss; EvWarn skip_message])
                                     iterations) /\
        length loss_list' = (length loss_list + length iterations)%nat).
Proof.
  split.
  - intros iteration loss_list st l w Hl Hf.
    exact (iteration_nonfinite im joint_model posterior_model sampler_model
             number_samples pretraining_iterations optimizers_list
             iteration loss_list st l w Hl Hf).
  - intros P params Hnan iterations.
    induction iterations as [|i rest IH]; intros loss_list st; simpl.
    + exists loss_list, st. unfold ret. rewrite app_nil_r.
      repeat split. lia.
    + destruct (Hnan (world st)) as (l & w & Hl & Hf & Hp).
      rewrite (bind_Ok _ _ _ _ _
                 (iteration_nonfinite im joint_model posterior_model sampler_model
                    number_samples pretraining_iterations optimizers_list
                    i loss_list st l w Hl Hf)).
      destruct (IH (loss_list ++ [Plain l])
                   {| world := w; diagnostics := diagnostics st;
                      trace := trace st ++ skipped_events |})
        as (ll' & st' & Hrun & Hp' & Ht & Hlen).
      exists ll', st'. simpl in *. repeat split.
      * exact Hrun.
      * now rewrite Hp'.
      * rewrite Ht. unfold skipped_events. now rewrite <- app_assoc.
      * rewrite Hlen, length_app. simpl. lia.
Qed.

(** C3. The optimizer list is the concatenation, over the roles posterior,
    joint model, sampler in this order, of what each role contributes: its
    optimizer when its flag is set and the model yields one, nothing
    otherwise.  The construction fails only when the optimizer wrapper
    raises for a flagged role. *)
Theorem optimizers_follow_the_flags (f : flags) :
  match build_optimizers f joint_model posterior_model sampler_model
                         optimizer opt_params with
  | Ok optimizers_list =>
      optimizers_list
      = flat_map (role_entry f joint_model posterior_model sampler_model
                             optimizer opt_params)
                 [Posterior; Joint; Sampler]
      /\ forall r, role_flag f r = true ->
                   is_ok (ProbabilisticOptimizer
                            (role_model joint_model posterior_model sampler_model r)
                            optimizer opt_params)
  | Err e =>
      exists r, role_flag f r = true /\
                ProbabilisticOptimizer
                  (role_model joint_model posterior_model sampler_model r)
                  optimizer opt_params = Err e
  end.
Proof.
  unfold build_optimizers, append_prob_optimizer, role_entry. simpl.
  destruct f as [fp fm ns fs]; simpl.
  destruct fp; simpl.
  - destruct (ProbabilisticOptimizer posterior_model optimizer opt_params)
      as [po|e] eqn:Ep; [|now exists Posterior].
    destruct fm; simpl.
    + destruct (ProbabilisticOptimizer (Some joint_model) optimizer opt_params)
        as [jo|e] eqn:Ej.
      2:{ destruct (po_optimizer po); now exists Joint. }
      destruct fs; simpl.
      * destruct (ProbabilisticOptimizer sampler_model optimizer opt_params)
          as [so|e] eqn:Es.
        2:{ destruct (po_optimizer po), (po_optimizer jo); now exists Sampler. }
        destruct (po_optimizer po), (po_optimizer jo), (po_optimizer so);
          (split; [reflexivity|]);
          intros []; simpl; intros _; eexists; eassumption.
      * destruct (po_optimizer po), (po_optimizer jo);
          (split; [reflexivity|]);
          intros []; simpl; intros Hr; try discriminate; eexists; eassumption.
    + destruct fs; simpl.
      * destruct (ProbabilisticOptimizer sampler_model optimizer opt_params)
          as [so|e] eqn:Es.
        2:{ destruct (po_optimizer po); now exists Sampler. }
        destruct (po_optimizer po), (po_optimizer so);
          (split; [reflexivity|]);
          intros []; simpl; intros Hr; try discriminate; eexists; eassumption.
      * destruct (po_optimizer po);
          (split; [reflexivity|]);
          intros []; simpl; intros Hr; try discriminate; eexists; eassumption.
  - destruct fm; simpl.
    + destruct (ProbabilisticOptimizer (Some joint_model) optimizer opt_params)
        as [jo|e] eqn:Ej; [|now exists Joint].
      destruct fs; simpl.
      * destruct (ProbabilisticOptimizer sampler_model optimizer opt_params)
          as [so|e] eqn:Es.
        2:{ destruct (po_optimizer jo); now exists Sampler. }
        destruct (po_optimizer jo), (po_optimizer so);
          (split; [reflexivity|]);
          intros []; simpl; intros Hr; try discriminate; eexists; eassumption.
      * destruct (po_optimizer jo);
          (split; [reflexivity|]);
          intros []; simpl; intros Hr; try discriminate; eexists; eassumption.
    + destruct fs; simpl.
      * destruct (ProbabilisticOptimizer sampler_model optimizer opt_params)
          as [so|e] eqn:Es; [|now exists Sampler].
        destruct (po_optimizer so);
          (split; [reflexivity|]);
          intros []; simpl; intros Hr; try discriminate; eexists; eassumption.
      * split; [reflexivity|]. intros []; simpl; intros Hr; discriminate.
Qed.

Lemma in_step_events iteration opt0 others o :
  In (EvUpdate o) (step_events pretraining_iterations iteration opt0 others)
  <-> o = opt0 \/ (In o others /\ (pretraining_iterations < iteration)%Z).
Proof.
  unfold step_events. rewrite !in_app_iff. split.
  - intros [H|[H|[H|H]]].
    + destruct H as [H|[]]; discriminate.
    + apply in_map_iff in H as (x & Hx & _). discriminate.
    + destruct H as [H|[H|[H|[]]]]; try discriminate. injection H as ->. now left.
    + destruct (pretraining_iterations <? iteration)%Z eqn:E; [|destruct H].
      apply in_map_iff in H as (x & Hx & Hin). injection Hx as ->.
      right. split; [exact Hin|]. now apply Z.ltb_lt.
  - intros [->|[Hin Hlt]].
    + right; right; left. simpl. auto.
    + right; right; right. apply Z.ltb_lt in Hlt. rewrite Hlt.
      now apply in_map.
Qed.


Lemma range_split n k :
  (k < n)%nat ->
  range n = range k ++ Z.of_nat k :: map Z.of_nat (seq (S k) (n - S k)).
Proof.
  intros Hk. unfold range.
  replace n with (k + S (n - S k))%nat at 1 by lia.
  rewrite seq_app, map_app. reflexivity.
Qed.

(** C10, as the code has it.  With an empty optimizer list, an iteration
    whose loss is finite raises: the exception of [loss.backward()] or of
    [correct_gradient] when one of them raises, and the [IndexError] of
    [optimizers_list[0]] once both have returned.  So does the whole call
    at the first such iteration; and a call that completes has seen a
    non-finite loss at every one of its iterations (none when there are no
    iterations). *)
Theorem empty_optimizer_list_fails_at_first_finite_loss :
  (forall iteration loss_list st l w1,
      loss_of (world st) = Ok (l, w1) ->
      is_finite l = true ->
      body [] iteration loss_list st
      = Err (step_error_without_optimizer im joint_model posterior_model
                                          sampler_model number_samples l w1))
  /\
  (forall n k st loss_list st1 l w1,
      optimizers = Ok [] ->
      check_model_compatibility im joint_model posterior_model sampler_model (world st)
      = Ok tt ->
      (k < n)%nat ->
      loop [] (range k) []
           {| world := world st; diagnostics := diagnostics st;
              trace := trace st ++ [EvCheckCompatibility] |}
      = Ok (loss_list, st1) ->
      loss_of (world st1) = Ok (l, w1) ->
      is_finite l = true ->
      perform_inference joint_model n number_samples optimizer im
                        posterior_model sampler_model pretraining_iterations
                        opt_params st
      = Err (step_error_without_optimizer im joint_model posterior_model
                                          sampler_model number_samples l w1))
  /\
  (forall l w1 w2 w3,
      backward l w1 = Ok w2 ->
      correct w2 = Ok w3 ->
      step_error_without_optimizer im joint_model posterior_model sampler_model
                                   number_samples l w1
      = IndexError)
  /\
  (forall n st st',
      optimizers = Ok [] ->
      perform_inference joint_model n number_samples optimizer im
                        posterior_model sampler_model pretraining_iterations
                        opt_params st
      = Ok (tt, st') ->
      exists losses,
        length losses = n /\
        Forall (fun l => is_finite l = false) losses /\
        diagnostics st' !! "loss curve"%string = Some (map Plain losses)).
Proof.
  split; [|split; [|split]].
  - intros iteration loss_list st l w1.
    apply iteration_finite_no_optimizer.
  - intros n k st loss_list st1 l w1 Hopt Hchk Hk Hloop Hl Hf.
    unfold perform_inference. rewrite Hopt.
    unfold bind at 1. unfold call_val at 1. rewrite Hchk.
    unfold bind at 1.
    rewrite (range_split n k Hk), loop_app.
    rewrite (bind_Ok _ _ _ _ _ Hloop). simpl.
    unfold bind at 1.
    now rewrite (iteration_finite_no_optimizer im joint_model posterior_model
                   sampler_model number_samples pretraining_iterations
                   (Z.of_nat k) loss_list st1 l w1 Hl Hf).
  - intros l w1 w2 w3 Hb Hc. unfold step_error_without_optimizer.
    now rewrite Hb, Hc.
  - intros n st st' Hopt H.
    apply perform_inference_inv in H as (opts & st1 & ll & st2 & Hopt' & Hloop & Hd).
    rewrite Hopt in Hopt'. injection Hopt' as <-.
    apply loop_no_optimizer_history in Hloop as (losses & -> & Hall & Hlen).
    exists losses. rewrite Hlen, length_range. simpl in Hd. now repeat split.
Qed.

End LoopClaims.

(** ** The loop on the small instance *)

Section ToyRuns.
#[local] Existing Instance toy.

Lemma loss_history_two_entries_per_step_witness :
  exists st',
    perform_inference (C := toy) 1%nat 1 1 "Adam" (toy_method ReverseKL_flags false)
                      (Some 1%nat) None 0 tt (toy_state 0) = Ok (tt, st') /\
    exists losses : list (option Z),
      length losses = 1%nat /\
      diagnostics st' !! "loss curve"%string
      = Some (flat_map (fun l => if is_finite (Collaborators := toy) l
                                 then [Flattened l; Plain l]
                                 else [Plain l]) losses).
Proof.
  eexists. split; [reflexivity|].
  apply (loss_history_two_entries_per_step (C := toy)
           (toy_method ReverseKL_flags false) 1%nat (Some 1%nat) None 1 0
           "Adam" tt 1 (toy_state 0)).
  reflexivity.
Defined.

(** One iteration with a finite loss leaves two entries, one iteration with
    a nan loss leaves one although no step was taken. *)
Example toy_loss_curve_finite :
  exists st',
    perform_inference (C := toy) 1%nat 1 1 "Adam" (toy_method ReverseKL_flags false)
                      (Some 1%nat) None 0 tt (toy_state 0) = Ok (tt, st') /\
    diagnostics st' !! "loss curve"%string = Some [Flattened (Some 0%Z); Plain (Some 0%Z)] /\
    trace st' = [EvCheckCompatibility; EvComputeLoss; EvZeroGrad 1%nat; EvZeroGrad 1%nat;
                 EvBackward; EvCorrectGradient; EvUpdate 1%nat; EvPostProcess].
Proof. eexists. split; [reflexivity|]. split; reflexivity. Qed.

Example toy_loss_curve_nan :
  exists st',
    perform_inference (C := toy) 1%nat 1 1 "Adam" (toy_method ReverseKL_flags true)
                      (Some 1%nat) None 0 tt (toy_state 0) = Ok (tt, st') /\
    diagnostics st' !! "loss curve"%string = Some [Plain None] /\
    trace st' = [EvCheckCompatibility; EvComputeLoss; EvWarn skip_message; EvPostProcess].
Proof. eexists. split; [reflexivity|]. split; reflexivity. Qed.

Lemma non_finite_loss_skips_the_step_witness :
  iteration_body (toy_method ReverseKL_flags true) 1%nat (Some 1%nat) None 1 0
                 [1%nat; 1%nat] 0 [] (toy_state 7)
  = Ok ([] ++ [Plain None],
        {| world := 7%Z; diagnostics := diagnostics (toy_state 7);
           trace := trace (toy_state 7) ++ [EvComputeLoss; EvWarn skip_message] |})
  /\
  exists loss_list' st',
    training_loop (toy_method ReverseKL_flags true) 1%nat (Some 1%nat) None 1 0
                  [1%nat; 1%nat] (range 3) [] (toy_state 7) = Ok (loss_list', st') /\
    world st' = world (toy_state 7) /\
    trace st' = trace (toy_state 7)
                  ++ concat (map (fun _ => [EvComputeLoss; EvWarn skip_message]) (range 3)) /\
    length loss_list' = (length (@nil (loss_record (option Z))) + length (range 3))%nat.
Proof.
  split.
  - apply (proj1 (non_finite_loss_skips_the_step
                    (toy_method ReverseKL_flags true) 1%nat (Some 1%nat) None 1 0
                    [1%nat; 1%nat]) 0%Z [] (toy_state 7) None 7%Z);
      reflexivity.
  - apply (proj2 (non_finite_loss_skips_the_step
                    (toy_method ReverseKL_flags true) 1%nat (Some 1%nat) None 1 0
                    [1%nat; 1%nat]) Z (fun w => w)).
    intros w. exists None, w. repeat split; reflexivity.
Defined.


(** The iteration index 2 does not exceed a pretraining threshold of 2: only
    the first optimizer is stepped. *)
Example toy_pretraining_holds_the_others :
  exists loss_list' st',
    iteration_body (toy_method ReverseKL_flags false) 1%nat (Some 1%nat) None 1 2
                   [1%nat; 2%nat] 2 [] (toy_state 0) = Ok (loss_list', st') /\
    trace st' = [EvComputeLoss; EvZeroGrad 1%nat; EvZeroGrad 2%nat;
                 EvBackward; EvCorrectGradient; EvUpdate 1%nat].
Proof. eexists _, _. split; reflexivity. Qed.

Lemma empty_optimizer_list_fails_at_first_finite_loss_witness :
  iteration_body (toy_method MaximumLikelihood_flags false) 0%nat None None 1 0
                 [] 0 [] (toy_state 0) = Err IndexError
  /\
  perform_inference 0%nat 3 1 "Adam" (toy_method MaximumLikelihood_flags false)
                    None None 0 tt (toy_state 0) = Err IndexError
  /\
  exists losses : list (option Z),
    length losses = 2%nat /\
    Forall (fun l => is_finite l = false) losses /\
    match perform_inference 0%nat 2 1 "Adam" (toy_method MaximumLikelihood_flags true)
                            None None 0 tt (toy_state 0) with
    | Ok (_, st') => diagnostics st' !! "loss curve"%string = Some (map Plain losses)
    | Err _ => False
    end.
Proof.
  pose proof (empty_optimizer_list_fails_at_first_finite_loss
                (toy_method MaximumLikelihood_flags false) 0%nat None None 1 0
                "Adam" tt) as (H1 & H2 & H3 & _).
  pose proof (empty_optimizer_list_fails_at_first_finite_loss
                (toy_method MaximumLikelihood_flags true) 0%nat None None 1 0
                "Adam" tt) as (_ & _ & _ & H4).
  split; [|split].
  - rewrite (H1 0%Z [] (toy_state 0) (Some 0%Z) 0%Z eq_refl eq_refl).
    rewrite (H3 (Some 0%Z) 0%Z 0%Z 0%Z eq_refl eq_refl). reflexivity.
  - rewrite (H2 3%nat 0%nat (toy_state 0) []
                (@Build_state toy 0%Z ∅ [EvCheckCompatibility])
                (Some 0%Z) 0%Z eq_refl eq_refl ltac:(lia) eq_refl eq_refl eq_refl).
    rewrite (H3 (Some 0%Z) 0%Z 0%Z 0%Z eq_refl eq_refl). reflexivity.
  - destruct (H4 2%nat (toy_state 0) _ eq_refl eq_refl) as (losses & Hlen & Hall & Hd).
    exists losses. repeat split; assumption.
Defined.

(** The optimizer lists of the five strategies on the small instance, where
    the joint model has no learnable parameter, the posterior has two and
    the sampler three. *)
Example toy_optimizers_of_the_strategies :
  build_optimizers ReverseKL_flags 0%nat (Some 2%nat) (Some 3%nat) "Adam" tt = Ok [2%nat] /\
  build_optimizers WassersteinVariationalGradientDescent_flags
                   0%nat (Some 2%nat) (Some 3%nat) "Adam" tt = Ok [2%nat; 3%nat] /\
  build_optimizers MaximumLikelihood_flags 0%nat None None "Adam" tt = Ok [] /\
  build_optimizers MAP_flags 1%nat (Some 2%nat) None "Adam" tt = Ok [2%nat; 1%nat] /\
  build_optimizers SteinVariationalGradientDescent_flags
                   1%nat (Some 2%nat) None "Adam" tt = Ok [2%nat].
Proof. repeat split. Qed.

End ToyRuns.

Section ToyConstantLoss.
#[local] Existing Instance toy_constant.

(** [MaximumLikelihood] on a joint model without learnable parameter: no
    optimizer is built, the loss of the first iteration is finite, and the
    call ends in the exception of [loss.backward()], not in [IndexError]. *)
Lemma empty_optimizer_list_backward_raises_first :
  build_optimizers (im_flags toy_constant_method) 0%nat None None "Adam" tt = Ok [] /\
  is_finite (Some 0%Z) = true /\
  perform_inference 0%nat 3 1 "Adam" toy_constant_method None None 0 tt
                    (@Build_state toy_constant 0%Z ∅ [])
  = Err (Raised "RuntimeError") /\
  perform_inference 0%nat 3 1 "Adam" toy_constant_method None None 0 tt
                    (@Build_state toy_constant 0%Z ∅ [])
  <> Err IndexError.
Proof.
  split; [reflexivity|]. split; [reflexivity|].
  split; [vm_compute; reflexivity|vm_compute; discriminate].
Qed.

End ToyConstantLoss.

(** * Ensemble weights of the Wasserstein method *)

Section EnsembleWeights.
Local Open Scope R_scope.

Lemma np_sum_nonneg (l : list R) : Forall (fun x => 0 <= x) l -> 0 <= np_sum l.
Proof.
  induction 1 as [|x l Hx _ IH]; simpl; [lra|]. lra.
Qed.

Lemma np_sum_map_pos {A} (f : A -> R) (x : A) (l : list A) :
  (forall y, 0 < f y) -> 0 < np_sum (map f (x :: l)).
Proof.
  intros Hf. cbn [map np_sum fold_right].
  assert (0 <= np_sum (map f l)).
  { apply np_sum_nonneg. apply List.Forall_forall. intros y Hy.
    apply List.in_map_iff in Hy as (z & <- & _). apply Rlt_le, Hf. }
  specialize (Hf x). unfold np_sum in *. lra.
Qed.







End EnsembleWeights.

(** * The bandwidth of the Stein method *)

Lemma np_sum_cons (x : R) (l : list R) : np_sum (x :: l) = (x + np_sum l)%R.
Proof. reflexivity. Qed.

Lemma np_sum_nil : np_sum [] = 0%R.
Proof. reflexivity. Qed.

(** Unfold the list functions, not the arithmetic. *)
Ltac lists :=
  cbn [map zip_with combine fst snd value grad flatten ident
       tsub tadd tmul tscale];
  rewrite ?np_sum_cons, ?np_sum_nil.

Section Bandwidth.
Local Open Scope R_scope.

Lemma py_sum_from (l : list R) (a : R) : fold_left Rplus l a = a + np_sum l.
Proof.
  revert a. induction l as [|x l IH]; intros a; simpl; [lra|].
  rewrite IH. lra.
Qed.

Lemma py_sum_np_sum (l : list R) : py_sum l = np_sum l.
Proof. unfold py_sum. rewrite py_sum_from. lra. Qed.

Lemma tsub_tscale (c : R) (x y : tensor) :
  tsub (tscale c x) (tscale c y) = tscale c (tsub x y).
Proof.
  unfold tsub, tscale. revert y.
  induction x as [|a x IH]; intros [|b y]; lists; try reflexivity.
  rewrite IH. f_equal. lra.
Qed.

Lemma deviation_nonneg (x y : tensor) : 0 <= deviation x y.
Proof.
  unfold deviation. apply np_sum_nonneg. apply List.Forall_forall.
  intros d Hd. apply List.in_map_iff in Hd as (e & <- & _).
  apply pow2_ge_0.
Qed.

Lemma deviation_tscale (c : R) (x y : tensor) :
  deviation (tscale c x) (tscale c y) = c ^ 2 * deviation x y.
Proof.
  unfold deviation. rewrite tsub_tscale. unfold tscale.
  induction (tsub x y) as [|d l IH]; lists; [ring|].
  rewrite IH. ring.
Qed.

Lemma deviation_sym (x y : tensor) : deviation x y = deviation y x.
Proof.
  unfold deviation, tsub. revert y.
  induction x as [|a x IH]; intros [|b y]; lists; try reflexivity.
  rewrite IH. ring.
Qed.

Lemma deviation_self (x : tensor) : deviation x x = 0.
Proof.
  unfold deviation, tsub. induction x as [|a x IH]; lists; [reflexivity|].
  rewrite IH. ring.
Qed.

(** The summed deviation of two particles, as a sum over their variables. *)
Lemma pair_deviation_np_sum (p1 p2 : particle) :
  pair_deviation p1 p2
  = np_sum (map (fun vv => deviation (value (fst vv)) (value (snd vv)))
                (combine (flatten p1) (flatten p2))).
Proof. unfold pair_deviation. apply py_sum_np_sum. Qed.

Lemma pair_deviation_nonneg (p1 p2 : particle) : 0 <= pair_deviation p1 p2.
Proof.
  rewrite pair_deviation_np_sum. apply np_sum_nonneg. apply List.Forall_forall.
  intros d Hd. apply List.in_map_iff in Hd as (vv & <- & _).
  apply deviation_nonneg.
Qed.

Lemma pair_deviation_sym (p1 p2 : particle) :
  pair_deviation p1 p2 = pair_deviation p2 p1.
Proof.
  rewrite !pair_deviation_np_sum.
  generalize (flatten p1) (flatten p2). intros l1.
  induction l1 as [|a l1 IH]; intros [|b l2]; lists; try reflexivity.
  rewrite IH, deviation_sym. reflexivity.
Qed.

Lemma pair_deviation_self (p : particle) : pair_deviation p p = 0.
Proof.
  rewrite pair_deviation_np_sum.
  induction (flatten p) as [|a l IH]; lists; [reflexivity|].
  rewrite IH, deviation_self. lra.
Qed.

Lemma rescale_one_flatten (c : R) (l1 l2 : list variable) :
  np_sum (map (fun vv => deviation (value (fst vv)) (value (snd vv)))
              (combine (map (fun v => {| value := tscale c (value v); grad := grad v |}) l1)
                       (map (fun v => {| value := tscale c (value v); grad := grad v |}) l2)))
  = c ^ 2 * np_sum (map (fun vv => deviation (value (fst vv)) (value (snd vv)))
                        (combine l1 l2)).
Proof.
  revert l2. induction l1 as [|a l1 IH]; intros [|b l2]; lists; try ring.
  rewrite IH, deviation_tscale. ring.
Qed.

Lemma sqrt_scaled (c d : R) : 0 <= d -> sqrt (c ^ 2 * d) = Rabs c * sqrt d.
Proof.
  intros Hd. rewrite sqrt_mult_alt by apply pow2_ge_0.
  f_equal. replace (c ^ 2) with (Rsqr c) by (unfold Rsqr; lra).
  apply sqrt_Rsqr_abs.
Qed.

(** Rescaling the values by [c] multiplies every pairwise distance by [|c|]. *)
Lemma distances_rescale (c : R) (posterior_model : list particle) :
  distances (rescale c posterior_model)
  = map (Rmult (Rabs c)) (distances posterior_model).
Proof.
  unfold distances, rescale.
  set (f := fun p => {| ident := ident p;
                        flatten := map (fun v => {| value := tscale c (value v);
                                                    grad := grad v |}) (flatten p) |}).
  assert (Hinner : forall p1 l2,
             flat_map (fun particle2 =>
                         if is_not (f p1) particle2
                         then [sqrt (pair_deviation (f p1) particle2)] else [])
                      (map f l2)
             = map (Rmult (Rabs c))
                   (flat_map (fun particle2 =>
                                if is_not p1 particle2
                                then [sqrt (pair_deviation p1 particle2)] else [])
                             l2)).
  { intros p1 l2. induction l2 as [|p2 l2 IH]; [reflexivity|].
    cbn [map flat_map]. rewrite IH, map_app. f_equal.
    assert (Hid : is_not (f p1) (f p2) = is_not p1 p2) by reflexivity.
    rewrite Hid. destruct (is_not p1 p2); [|reflexivity].
    cbn [map]. f_equal.
    rewrite <- sqrt_scaled by apply pair_deviation_nonneg.
    f_equal. rewrite !pair_deviation_np_sum. unfold f. cbn [flatten].
    apply rescale_one_flatten. }
  assert (Houter : forall l1 l2,
             flat_map (fun particle1 =>
                         flat_map (fun particle2 =>
                                     if is_not particle1 particle2
                                     then [sqrt (pair_deviation particle1 particle2)]
                                     else [])
                                  (map f l2))
                      (map f l1)
             = map (Rmult (Rabs c))
                   (flat_map (fun particle1 =>
                                flat_map (fun particle2 =>
                                            if is_not particle1 particle2
                                            then [sqrt (pair_deviation particle1 particle2)]
                                            else [])
                                         l2)
                             l1)).
  { intros l1 l2. induction l1 as [|p1 l1 IH]; [reflexivity|].
    cbn [map flat_map]. rewrite IH, map_app, Hinner. reflexivity. }
  apply Houter.
Qed.

Lemma length_insert_sorted (x : R) (l : list R) :
  length (insert_sorted x l) = S (length l).
Proof.
  induction l as [|y l IH]; simpl; [reflexivity|].
  destruct (Rle_dec x y); simpl; [reflexivity|now rewrite IH].
Qed.

Lemma length_sort (l : list R) : length (sort l) = length l.
Proof.
  induction l as [|x l IH]; simpl; [reflexivity|].
  now rewrite length_insert_sorted, IH.
Qed.

Lemma in_insert_sorted (x y : R) (l : list R) :
  In y (insert_sorted x l) <-> y = x \/ In y l.
Proof.
  induction l as [|z l IH]; simpl; [intuition|].
  destruct (Rle_dec x z); simpl; [intuition|]. rewrite IH. intuition.
Qed.

Lemma in_sort (y : R) (l : list R) : In y (sort l) <-> In y l.
Proof.
  induction l as [|x l IH]; simpl; [reflexivity|].
  rewrite in_insert_sorted, IH. intuition.
Qed.

Lemma insert_sorted_scale (k x : R) (l : list R) :
  0 < k ->
  insert_sorted (k * x) (map (Rmult k) l) = map (Rmult k) (insert_sorted x l).
Proof.
  intros Hk. induction l as [|y l IH]; simpl; [reflexivity|].
  destruct (Rle_dec x y) as [Hxy|Hxy], (Rle_dec (k * x) (k * y)) as [Hk'|Hk'];
    simpl; try reflexivity.
  - exfalso. apply Hk'. apply Rmult_le_compat_l; lra.
  - exfalso. apply Hxy. apply (Rmult_le_reg_l k); assumption.
  - now rewrite IH.
Qed.

Lemma sort_scale (k : R) (l : list R) :
  0 < k -> sort (map (Rmult k) l) = map (Rmult k) (sort l).
Proof.
  intros Hk. induction l as [|x l IH]; simpl; [reflexivity|].
  rewrite IH. now apply insert_sorted_scale.
Qed.

(** Sorting does not move equal entries. *)
Lemma sort_constant (v : R) (l : list R) :
  Forall (fun x => x = v) l -> sort l = l.
Proof.
  induction 1 as [|x l Hx Hl IH]; simpl; [reflexivity|].
  rewrite IH. destruct Hl as [|y l Hy Hl]; simpl; [reflexivity|].
  destruct (Rle_dec x y); [reflexivity|]. exfalso. lra.
Qed.

Lemma nth_scale (k : R) (l : list R) (i : nat) :
  nth i (map (Rmult k) l) 0 = k * nth i l 0.
Proof.
  revert i. induction l as [|x l IH]; intros [|i]; simpl; try lra.
  apply IH.
Qed.

Lemma nth_zero_scale (l s : list R) (i : nat) :
  nth i (map (Rmult 0) l) 0 = 0 * nth i s 0.
Proof. rewrite nth_scale. lra. Qed.

(** The median commutes with a non-negative scaling. *)
Lemma np_median_scale (k : R) (l : list R) :
  0 <= k ->
  np_median (map (Rmult k) l)
  = match np_median l with
    | Finite m => Finite (k * m)
    | NonFinite => NonFinite
    | Raises e => Raises e
    end.
Proof.
  intros Hk. unfold np_median. rewrite length_map.
  destruct (Nat.eqb (length l) 0); [reflexivity|].
  destruct (Rle_lt_or_eq_dec 0 k Hk) as [Hpos|<-].
  - rewrite sort_scale by assumption.
    destruct (Nat.even (length l)); rewrite !nth_scale; f_equal; lra.
  - rewrite (sort_constant 0).
    2:{ apply List.Forall_forall. intros x Hx.
        apply List.in_map_iff in Hx as (y & <- & _). lra. }
    destruct (Nat.even (length l));
      rewrite !(nth_zero_scale l (sort l)); f_equal; lra.
Qed.

Lemma length_rescale (c : R) (posterior_model : list particle) :
  length (rescale c posterior_model) = length posterior_model.
Proof. unfold rescale. apply length_map. Qed.

(** Rescaling the values by [c] multiplies the bandwidth by [c^2]. *)
Lemma update_bandwidth_rescale (c : R) (posterior_model : list particle) :
  update_bandwidth (rescale c posterior_model)
  = match update_bandwidth posterior_model with
    | Finite bw => Finite (c ^ 2 * bw)
    | NonFinite => NonFinite
    | Raises e => Raises e
    end.
Proof.
  unfold update_bandwidth.
  rewrite distances_rescale, length_rescale, np_median_scale by apply Rabs_pos.
  destruct (np_median (distances posterior_model)) as [m| |e];
    cbn [obind]; try reflexivity.
  f_equal. rewrite <- (pow2_abs c). unfold Rdiv. ring.
Qed.

(** A distance is the distance of two particles that are not the same
    object. *)
Lemma in_distances (d : R) (posterior_model : list particle) :
  In d (distances posterior_model)
  <-> exists particle1 particle2,
        In particle1 posterior_model /\ In particle2 posterior_model /\
        ident particle1 <> ident particle2 /\
        d = sqrt (pair_deviation particle1 particle2).
Proof.
  unfold distances. rewrite in_flat_map. split.
  - intros (p1 & H1 & H). apply in_flat_map in H as (p2 & H2 & H).
    unfold is_not in H. destruct (Nat.eqb (ident p1) (ident p2)) eqn:E;
      simpl in H; [destruct H|].
    destruct H as [<-|[]]. exists p1, p2. repeat split; try assumption.
    now apply Nat.eqb_neq.
  - intros (p1 & p2 & H1 & H2 & Hne & ->). exists p1. split; [assumption|].
    apply in_flat_map. exists p2. split; [assumption|].
    unfold is_not. apply Nat.eqb_neq in Hne. rewrite Hne. simpl. now left.
Qed.

(** Some distance exists only among two particles or more. *)
Lemma distances_two_particles (posterior_model : list particle) :
  distances posterior_model <> [] -> (2 <= length posterior_model)%nat.
Proof.
  intros Hne. destruct (distances posterior_model) as [|d ds] eqn:E; [easy|].
  assert (Hd : In d (distances posterior_model)) by (rewrite E; now left).
  apply in_distances in Hd as (p1 & p2 & H1 & H2 & Hid & _).
  destruct posterior_model as [|a [|b l]].
  - destruct H1.
  - destruct H1 as [<-|[]], H2 as [<-|[]]. now destruct Hid.
  - simpl. lia.
Qed.

Lemma np_median_defined (l : list R) (m : R) :
  np_median l = Finite m -> l <> [].
Proof. intros H ->. discriminate. Qed.

Lemma ln_count_pos (n : nat) : (2 <= n)%nat -> 0 < ln (INR n).
Proof.
  intros Hn. rewrite <- ln_1. apply ln_increasing; [lra|].
  apply le_INR in Hn. simpl in Hn. lra.
Qed.

(** The median of positive data is positive. *)
Lemma np_median_positive (l : list R) :
  l <> [] -> Forall (fun d => 0 < d) l ->
  exists m, np_median l = Finite m /\ 0 < m.
Proof.
  intros Hne Hall. unfold np_median.
  destruct l as [|x l']; [easy|]. set (l := x :: l') in *.
  assert (Hlen : (0 < length l)%nat) by (simpl; lia).
  replace (Nat.eqb (length l) 0) with false
    by (symmetry; apply Nat.eqb_neq; lia).
  assert (Hnth : forall i, (i < length l)%nat -> 0 < nth i (sort l) 0).
  { intros i Hi. rewrite List.Forall_forall in Hall. apply Hall.
    apply in_sort. apply nth_In. now rewrite length_sort. }
  assert (Hhalf : (length l / 2 < length l)%nat)
    by (apply Nat.div_lt; lia).
  destruct (Nat.even (length l)); eexists; (split; [reflexivity|]).
  - assert (0 < nth (length l / 2 - 1) (sort l) 0) by (apply Hnth; lia).
    specialize (Hnth _ Hhalf). lra.
  - now apply Hnth.
Qed.

Lemma point_deviation (i j : nat) (x y g h : R) :
  pair_deviation (point i x g) (point j y h) = (x - y) ^ 2.
Proof.
  rewrite pair_deviation_np_sum. unfold point, deviation. lists. ring.
Qed.

Lemma distances_coincident : distances coincident_particles = repeat 0 6.
Proof.
  unfold distances, coincident_particles.
  cbn [flat_map is_not point ident negb Nat.eqb app].
  fold (point 0 0 0) (point 1 0 0) (point 2 0 0).
  rewrite !point_deviation.
  replace ((0 - 0) ^ 2) with 0 by ring. rewrite sqrt_0. reflexivity.
Qed.

Lemma distances_two : distances two_particles = [1; 1].
Proof.
  unfold distances, two_particles.
  cbn [flat_map is_not point ident negb Nat.eqb app].
  fold (point 0 0 0) (point 1 1 0).
  rewrite !point_deviation.
  replace ((0 - 1) ^ 2) with 1 by ring.
  replace ((1 - 0) ^ 2) with 1 by ring.
  rewrite sqrt_1. reflexivity.
Qed.

Lemma median_two : np_median (distances two_particles) = Finite 1.
Proof.
  rewrite distances_two. unfold np_median.
  rewrite (sort_constant 1) by (repeat constructor).
  cbn [length Nat.eqb Nat.even]. change (2 / 2)%nat with 1%nat.
  cbn [Nat.sub nth]. f_equal. lra.
Qed.

(** C6, as the code has it.  The distances are the square roots of the
    squared differences summed over all entries of all variables, over the
    ordered pairs of distinct particles.  When their median [m] is positive
    there are two particles at least, the bandwidth is
    [2 m^2 / ln(count)], it is positive, and multiplying every value by [c]
    multiplies it by [c^2]. *)
Theorem bandwidth_median_heuristic (posterior_model : list particle) (m : R) :
  np_median (distances posterior_model) = Finite m ->
  0 < m ->
  (forall d,
      In d (distances posterior_model)
      <-> exists particle1 particle2,
            In particle1 posterior_model /\ In particle2 posterior_model /\
            ident particle1 <> ident particle2 /\
            d = sqrt (np_sum
                        (map (fun vv =>
                                np_sum (map (fun e => e ^ 2)
                                            (tsub (value (fst vv)) (value (snd vv)))))
                             (combine (flatten particle1) (flatten particle2))))) /\
  (2 <= length posterior_model)%nat /\
  update_bandwidth posterior_model
  = Finite (2 * m ^ 2 / ln (INR (length posterior_model))) /\
  0 < 2 * m ^ 2 / ln (INR (length posterior_model)) /\
  forall c,
    update_bandwidth (rescale c posterior_model)
    = Finite (c ^ 2 * (2 * m ^ 2 / ln (INR (length posterior_model)))).
Proof.
  intros Hmed Hm.
  assert (Hcount : (2 <= length posterior_model)%nat).
  { apply distances_two_particles. eapply np_median_defined. exact Hmed. }
  assert (Hbw : update_bandwidth posterior_model
                = Finite (2 * m ^ 2 / ln (INR (length posterior_model)))).
  { unfold update_bandwidth. rewrite Hmed. reflexivity. }
  split; [|split; [exact Hcount|split; [exact Hbw|split]]].
  - intros d. rewrite in_distances.
    split; intros (p1 & p2 & H1 & H2 & Hid & ->); exists p1, p2;
      repeat split; try assumption; now rewrite pair_deviation_np_sum.
  - apply Rdiv_lt_0_compat; [|now apply ln_count_pos].
    assert (0 < m ^ 2) by (apply pow_lt; exact Hm). lra.
  - intros c. rewrite update_bandwidth_rescale, Hbw. reflexivity.
Qed.

Lemma bandwidth_median_heuristic_witness :
  update_bandwidth two_particles
  = Finite (2 * 1 ^ 2 / ln (INR (length two_particles))) /\
  0 < 2 * 1 ^ 2 / ln (INR (length two_particles)) /\
  update_bandwidth (rescale 3 two_particles)
  = Finite (3 ^ 2 * (2 * 1 ^ 2 / ln (INR (length two_particles)))).
Proof.
  destruct (bandwidth_median_heuristic two_particles 1 median_two Rlt_0_1)
    as (_ & _ & Hbw & Hpos & Hscale).
  split; [exact Hbw|]. split; [exact Hpos|]. exact (Hscale 3).
Defined.

(** Three particles at the same place: the count exceeds 2 and the
    bandwidth is 0, not positive. *)
Lemma coincident_particles_bandwidth_zero :
  (2 < length coincident_particles)%nat /\
  update_bandwidth coincident_particles = Finite 0 /\
  ~ (exists bw, update_bandwidth coincident_particles = Finite bw /\ 0 < bw).
Proof.
  assert (H : update_bandwidth coincident_particles = Finite 0).
  { unfold update_bandwidth. rewrite distances_coincident. unfold np_median.
    rewrite (sort_constant 0) by (repeat constructor).
    cbn [repeat length Nat.eqb Nat.even]. change (6 / 2)%nat with 3%nat.
    cbn [Nat.sub nth obind]. f_equal. unfold Rdiv. ring. }
  split; [simpl; lia|]. split; [exact H|].
  intros (bw & Hbw & Hpos). rewrite H in Hbw. injection Hbw as <-. lra.
Qed.

(** X9.  Particles that are pairwise apart have a positive bandwidth. *)
Lemma bandwidth_positive_when_apart (posterior_model : list particle)
      (particle1 particle2 : particle) :
  In particle1 posterior_model -> In particle2 posterior_model ->
  ident particle1 <> ident particle2 ->
  (forall p q, In p posterior_model -> In q posterior_model ->
               ident p <> ident q -> 0 < pair_deviation p q) ->
  exists bw, update_bandwidth posterior_model = Finite bw /\ 0 < bw.
Proof.
  intros H1 H2 Hid Hapart.
  assert (Hne : distances posterior_model <> []).
  { intros E.
    assert (Hin : In (sqrt (pair_deviation particle1 particle2))
                     (distances posterior_model)).
    { apply in_distances. exists particle1, particle2. now repeat split. }
    rewrite E in Hin. destruct Hin. }
  destruct (np_median_positive (distances posterior_model) Hne) as (m & Hm & Hpos).
  { apply List.Forall_forall. intros d Hd.
    apply in_distances in Hd as (p & q & Hp & Hq & Hpq & ->).
    apply sqrt_lt_R0. now apply Hapart. }
  exists (2 * m ^ 2 / ln (INR (length posterior_model))). split.
  - unfold update_bandwidth. rewrite Hm. reflexivity.
  - apply Rdiv_lt_0_compat.
    + assert (0 < m ^ 2) by (apply pow_lt; exact Hpos). lra.
    + apply ln_count_pos. now apply distances_two_particles.
Qed.

End Bandwidth.

(** * The gradient the Stein method writes, in closed form *)

Section GradientFormula.
Local Open Scope R_scope.

Lemma omapM_Finite {A B} (f : A -> outcome B) (g : A -> B) (l : list A) :
  (forall a, In a l -> f a = Finite (g a)) -> omapM f l = Finite (map g l).
Proof.
  induction l as [|x l IH]; intros Hf; cbn [omapM map]; [reflexivity|].
  rewrite (Hf x) by now left. cbn [obind].
  rewrite IH by (intros a Ha; apply Hf; now right). reflexivity.
Qed.

Lemma in_enumerate_from {A} (l : list A) (n i : nat) (x : A) :
  In (i, x) (combine (seq n (length l)) l) ->
  (n <= i)%nat /\ l !! (i - n)%nat = Some x.
Proof.
  revert n. induction l as [|y l IH]; intros n; cbn [length seq combine];
    [intros []|].
  intros [H|H].
  - injection H as <- <-. rewrite Nat.sub_diag. split; [lia|reflexivity].
  - apply IH in H as [Hle Hl]. split; [lia|].
    replace (i - n)%nat with (S (i - S n)) by lia. exact Hl.
Qed.

Lemma in_enumerate {A} (l : list A) (i : nat) (x : A) :
  In (i, x) (enumerate l) -> l !! i = Some x.
Proof.
  intros H. apply in_enumerate_from in H as [_ H].
  now rewrite Nat.sub_0_r in H.
Qed.

Lemma map_enumerate_from {A B} (g : A -> B) (l : list A) (n : nat) :
  map (fun ix => g (snd ix)) (combine (seq n (length l)) l) = map g l.
Proof.
  revert n. induction l as [|y l IH]; intros n; cbn [length seq combine map];
    [reflexivity|].
  now rewrite IH.
Qed.

Lemma lookup_map {A B} (f : A -> B) (l : list A) (i : nat) (x : A) :
  l !! i = Some x -> map f l !! i = Some (f x).
Proof.
  revert i. induction l as [|y l IH]; intros [|i] H; try discriminate.
  - injection H as ->. reflexivity.
  - apply (IH i H).
Qed.

Lemma item_map {A B} (f : A -> B) (l : list A) (i : nat) (x : A) :
  l !! i = Some x -> item (map f l) i = Finite (f x).
Proof. intros H. unfold item. now rewrite (lookup_map f l i x H). Qed.

Lemma lookup_nth {A} (l : list A) (i : nat) (d : A) :
  (i < length l)%nat -> l !! i = Some (nth i l d).
Proof.
  revert i. induction l as [|y l IH]; intros [|i] H; simpl in H; try lia.
  - reflexivity.
  - apply IH. lia.
Qed.

Lemma lookup_lt {A} (l : list A) (i : nat) (x : A) :
  l !! i = Some x -> (i < length l)%nat.
Proof.
  revert i. induction l as [|y l IH]; intros [|i] H; try discriminate; simpl.
  - lia.
  - apply IH in H. lia.
Qed.

Lemma lookup_in {A} (l : list A) (i : nat) (x : A) : l !! i = Some x -> In x l.
Proof.
  revert i. induction l as [|y l IH]; intros [|i] H; try discriminate.
  - injection H as ->. now left.
  - right. exact (IH i H).
Qed.

Lemma lookup_combine {A B} (l1 : list A) (l2 : list B) (i : nat) (a : A) (b : B) :
  l1 !! i = Some a -> l2 !! i = Some b -> combine l1 l2 !! i = Some (a, b).
Proof.
  revert l2 i. induction l1 as [|x l1 IH]; intros [|y l2] [|i] H1 H2;
    try discriminate.
  - injection H1 as ->. injection H2 as ->. reflexivity.
  - apply (IH l2 i H1 H2).
Qed.

(** Floats that are numbers compute as the reals do. *)
Lemma fdiv_number (a b : R) : b <> 0 -> fdiv (Num a) (Num b) = Num (a / b).
Proof.
  intros H. unfold fdiv. destruct (Req_dec_T b 0) as [E|_]; [now destruct H|reflexivity].
Qed.

Lemma float_kernel_number (d bw : R) :
  bw <> 0 -> float_kernel d (Num bw) = Num (kernel d bw).
Proof.
  intros H. unfold float_kernel, kernel. cbn [fneg fmul].
  rewrite fdiv_number; [reflexivity|]. intros E. apply H. lra.
Qed.

(** For a bandwidth that is a number other than 0 the kernel matrix that
    [correct_gradient] builds is the one over the reals. *)
Lemma float_kernel_matrix_number (bw : R) (posterior_model : list particle) :
  bw <> 0 ->
  float_kernel_matrix (Num bw) posterior_model
  = map (map Num) (kernel_matrix bw posterior_model).
Proof.
  intros H. unfold float_kernel_matrix, kernel_matrix.
  rewrite map_map. apply map_ext. intros particle2.
  rewrite map_map. apply map_ext. intros particle1.
  now apply float_kernel_number.
Qed.

Lemma ftscale_number (k : R) (g : tensor) :
  ftscale (Num k) (map Num g) = map Num (tscale k g).
Proof. unfold ftscale, tscale. rewrite !map_map. reflexivity. Qed.

Lemma ftadd_number (x y : tensor) :
  ftadd (map Num x) (map Num y) = map Num (tadd x y).
Proof.
  unfold ftadd, tadd. revert y.
  induction x as [|a x IH]; intros [|b y]; cbn [map zip_with]; try reflexivity.
  now rewrite IH.
Qed.

Lemma py_sum_ftensors_number (ts : list tensor) :
  py_sum_ftensors (map (map Num) ts) = map Num (py_sum_tensors ts).
Proof.
  destruct ts as [|t0 rest]; [reflexivity|].
  cbn [map py_sum_ftensors py_sum_tensors].
  assert (H0 : map (fadd (Num 0)) (map Num t0) = map Num (map (Rplus 0) t0)).
  { rewrite !map_map. reflexivity. }
  rewrite H0. generalize (map (Rplus 0) t0) as acc.
  induction rest as [|t rest IH]; intros acc; cbn [map fold_left]; [reflexivity|].
  rewrite ftadd_number. apply IH.
Qed.

Lemma interaction_number (k bw : R) (t : tensor) :
  bw <> 0 ->
  map (fun d => fdiv (fmul (Num (- d)) (Num k)) (Num bw)) t
  = map Num (map (fun d => - d * k / bw) t).
Proof.
  intros H. rewrite map_map. apply map_ext. intros d. cbn [fmul].
  now apply fdiv_number.
Qed.

(** The interaction matrix: entry [[i2][i1][v]] holds
    [-(value1 - value2) k / bandwidth] for variable [v] of particle [i1]
    (value1) and of particle [i2] (value2).  Its indices are those of the
    kernel matrix: building it never raises. *)
Lemma interaction_matrix_value (bw : float) (posterior_model : list particle) :
  interaction_matrix bw (float_kernel_matrix bw posterior_model) posterior_model
  = Finite (interaction_entries bw posterior_model).
Proof.
  unfold interaction_matrix, interaction_entries.
  rewrite <- (map_enumerate_from
                (fun particle2 =>
                   map (fun particle1 =>
                          map (fun vv : variable * variable =>
                                 map (fun d =>
                                        fdiv (fmul (Num (- d))
                                                   (float_kernel
                                                      (pair_deviation particle2 particle1)
                                                      bw))
                                             bw)
                                     (tsub (value (fst vv)) (value (snd vv))))
                              (combine (flatten particle1) (flatten particle2)))
                       posterior_model)
                posterior_model 0).
  apply omapM_Finite. intros [i2 p2] H2. apply in_enumerate in H2. cbn [snd].
  rewrite <- (map_enumerate_from
                (fun particle1 =>
                   map (fun vv : variable * variable =>
                          map (fun d =>
                                 fdiv (fmul (Num (- d))
                                            (float_kernel (pair_deviation p2 particle1) bw))
                                      bw)
                              (tsub (value (fst vv)) (value (snd vv))))
                       (combine (flatten particle1) (flatten p2)))
                posterior_model 0).
  apply omapM_Finite. intros [i1 p1] H1. apply in_enumerate in H1. cbn [snd].
  apply omapM_Finite. intros [v1 v2] _.
  unfold float_kernel_matrix.
  rewrite (item_map _ _ _ _ H1). cbn [obind].
  rewrite (item_map _ _ _ _ H2). cbn [obind fst snd]. reflexivity.
Qed.

Lemma grad_gradient_of (x : variable) :
  grad x <> None -> grad x = Some (gradient_of x).
Proof. unfold gradient_of. destruct (grad x); [reflexivity|intros H; now destruct H]. Qed.

(** The element that line 366 sums for the particle [q] of index [j], when
    variable [v] exists in [q] and in the particle [p] of index [i]: every
    index is in range, and the element is a tensor unless the gradient of
    [q] is [None]. *)
Lemma gradient_term_value (bw : float) (posterior_model : list particle)
      (i j v : nat) (p q : particle) :
  posterior_model !! i = Some p ->
  posterior_model !! j = Some q ->
  (v < length (flatten p))%nat ->
  (v < length (flatten q))%nat ->
  gradient_term (float_kernel_matrix bw posterior_model)
                (interaction_entries bw posterior_model) i v
                (j, map grad (flatten q))
  = (kg <~ times_gradient (float_kernel (pair_deviation q p) bw)
                          (grad (variable_at q v)) ;;
     Finite (ftadd kg
                   (map (fun d =>
                           fdiv (fmul (Num (- d))
                                      (float_kernel (pair_deviation p q) bw))
                                bw)
                        (tsub (value (variable_at q v))
                              (value (variable_at p v)))))).
Proof.
  intros Hp Hq Hvp Hvq.
  assert (Hpv : flatten p !! v = Some (variable_at p v)) by now apply lookup_nth.
  assert (Hqv : flatten q !! v = Some (variable_at q v)) by now apply lookup_nth.
  unfold gradient_term, float_kernel_matrix, interaction_entries.
  rewrite (item_map _ _ _ _ Hp). cbn [obind].
  rewrite (item_map _ _ _ _ Hq). cbn [obind].
  rewrite (item_map grad _ _ _ Hqv). cbn [obind].
  destruct (grad (variable_at q v)) as [g|]; [|reflexivity].
  cbn [times_gradient obind].
  rewrite (item_map _ _ _ _ Hp). cbn [obind].
  rewrite (item_map _ _ _ _ Hq). cbn [obind].
  rewrite (item_map _ _ _ _ (lookup_combine _ _ _ _ _ Hqv Hpv)).
  cbn [obind fst snd]. reflexivity.
Qed.

(** The right-hand side of the assignment, in closed form, on particles
    with [nv] variables each, all with a gradient. *)
Lemma corrected_grad_value (bw : float) (posterior_model : list particle)
      (i v : nat) (p : particle) (nv : nat) :
  Forall (fun q => length (flatten q) = nv) posterior_model ->
  Forall (fun q => Forall (fun x => grad x <> None) (flatten q)) posterior_model ->
  posterior_model !! i = Some p ->
  (v < nv)%nat ->
  corrected_grad (float_kernel_matrix bw posterior_model)
                 (interaction_entries bw posterior_model)
                 (map (fun q => map grad (flatten q)) posterior_model) i v
  = Finite (float_overwritten_gradient bw posterior_model p v).
Proof.
  intros Hshape Hgrad Hp Hv. unfold corrected_grad, float_overwritten_gradient.
  rewrite List.Forall_forall in Hshape. rewrite List.Forall_forall in Hgrad.
  set (term := fun other =>
                 ftadd (ftscale (float_kernel (pair_deviation other p) bw)
                                (gradient_of (variable_at other v)))
                       (map (fun d =>
                               fdiv (fmul (Num (- d))
                                          (float_kernel (pair_deviation p other) bw))
                                    bw)
                            (tsub (value (variable_at other v))
                                  (value (variable_at p v))))).
  assert (Hgen : forall l n,
             (forall j q, l !! j = Some q -> posterior_model !! (n + j)%nat = Some q) ->
             omapM (gradient_term (float_kernel_matrix bw posterior_model)
                                  (interaction_entries bw posterior_model) i v)
                   (combine (seq n (length l))
                            (map (fun q => map grad (flatten q)) l))
             = Finite (map term l)).
  { induction l as [|q l IH]; intros n Hl; [reflexivity|].
    cbn [length seq map combine omapM].
    assert (Hq : posterior_model !! n = Some q).
    { rewrite <- (Nat.add_0_r n). apply Hl. reflexivity. }
    assert (Hvq : (v < length (flatten q))%nat).
    { rewrite (Hshape q) by exact (lookup_in _ _ _ Hq). exact Hv. }
    assert (Hvp : (v < length (flatten p))%nat).
    { rewrite (Hshape p) by exact (lookup_in _ _ _ Hp). exact Hv. }
    assert (Hg : grad (variable_at q v) = Some (gradient_of (variable_at q v))).
    { apply grad_gradient_of.
      pose proof (Hgrad q (lookup_in _ _ _ Hq)) as Hall.
      rewrite List.Forall_forall in Hall. apply Hall.
      unfold variable_at. now apply nth_In. }
    rewrite (IH (S n)).
    2:{ intros j q' Hj. replace (S n + j)%nat with (n + S j)%nat by lia.
        apply Hl. exact Hj. }
    rewrite (gradient_term_value bw posterior_model i n v p q Hp Hq Hvp Hvq).
    rewrite Hg. reflexivity. }
  unfold enumerate. rewrite length_map.
  rewrite (Hgen posterior_model 0%nat) by (intros j q Hj; exact Hj).
  reflexivity.
Qed.

(** What [correct_gradient] computes on particles with [nv] variables each,
    all with a gradient, whatever the bandwidth it has stored. *)
Lemma SVGD_correct_gradient_floats (posterior_model : list particle) (bw : float)
      (nv : nat) :
  stored_bandwidth (update_bandwidth posterior_model) = Finite bw ->
  Forall (fun q => length (flatten q) = nv) posterior_model ->
  Forall (fun q => Forall (fun x => grad x <> None) (flatten q)) posterior_model ->
  SVGD_correct_gradient posterior_model
  = Finite (bw,
            map (fun p =>
                   {| ident := ident p;
                      flatten :=
                        map (fun iv : nat * variable =>
                               {| value := value (snd iv);
                                  grad := Some (float_overwritten_gradient
                                                  bw posterior_model p (fst iv)) |})
                            (enumerate (flatten p)) |})
                posterior_model).
Proof.
  intros Hbw Hshape Hgrad. unfold SVGD_correct_gradient.
  rewrite Hbw. cbn [obind].
  rewrite interaction_matrix_value. cbn [obind].
  rewrite (omapM_Finite _
             (fun ip : nat * particle =>
                {| ident := ident (snd ip);
                   flatten :=
                     map (fun iv : nat * variable =>
                            {| value := value (snd iv);
                               grad := Some (float_overwritten_gradient
                                               bw posterior_model (snd ip) (fst iv)) |})
                         (enumerate (flatten (snd ip))) |})).
  - cbn [obind].
    change (enumerate posterior_model)
      with (combine (seq 0 (length posterior_model)) posterior_model).
    rewrite (map_enumerate_from
               (fun p =>
                  {| ident := ident p;
                     flatten :=
                       map (fun iv : nat * variable =>
                              {| value := value (snd iv);
                                 grad := Some (float_overwritten_gradient
                                                 bw posterior_model p (fst iv)) |})
                           (enumerate (flatten p)) |})).
    reflexivity.
  - intros [i p] Hip. apply in_enumerate in Hip. cbn [snd].
    rewrite (omapM_Finite _
               (fun iv : nat * variable =>
                  {| value := value (snd iv);
                     grad := Some (float_overwritten_gradient
                                     bw posterior_model p (fst iv)) |})).
    + reflexivity.
    + intros [v x] Hvx. apply in_enumerate in Hvx. cbn [fst snd].
      rewrite (corrected_grad_value bw posterior_model i v p nv Hshape Hgrad Hip).
      * reflexivity.
      * rewrite List.Forall_forall in Hshape.
        rewrite <- (Hshape p) by exact (lookup_in _ _ _ Hip).
        exact (lookup_lt _ _ _ Hvx).
Qed.

Lemma has_gradient_grad (x : variable) : has_gradient x -> grad x <> None.
Proof. intros [g Hg]. rewrite Hg. discriminate. Qed.

Lemma has_gradient_raw (x : variable) :
  has_gradient x -> gradient_of x = map Num (raw_gradient x).
Proof.
  intros [g Hg]. unfold gradient_of, raw_gradient. rewrite Hg.
  assert (E : map number (map Num g) = g).
  { rewrite map_map. exact (List.map_id g). }
  now rewrite E.
Qed.

(** For a bandwidth that is a number other than 0 and raw gradients that
    are numbers, the closed form in floats is the one over the reals. *)
Lemma float_overwritten_gradient_number (bw : R) (posterior_model : list particle)
      (p : particle) (v : nat) :
  bw <> 0 ->
  (forall other, In other posterior_model -> has_gradient (variable_at other v)) ->
  float_overwritten_gradient (Num bw) posterior_model p v
  = map Num (overwritten_gradient bw posterior_model p v).
Proof.
  intros Hbw Hgrad. unfold float_overwritten_gradient, overwritten_gradient.
  rewrite <- py_sum_ftensors_number, map_map. f_equal.
  apply map_ext_in. intros other Hother.
  rewrite !float_kernel_number by exact Hbw.
  rewrite (has_gradient_raw _ (Hgrad other Hother)).
  rewrite ftscale_number, interaction_number by exact Hbw.
  apply ftadd_number.
Qed.

(** What [correct_gradient] computes on particles with [nv] variables each,
    once the new bandwidth is a number other than 0 and when the raw
    gradients are numbers. *)
Lemma SVGD_correct_gradient_value (posterior_model : list particle) (bw : R) (nv : nat) :
  update_bandwidth posterior_model = Finite bw ->
  bw <> 0 ->
  Forall (fun q => length (flatten q) = nv) posterior_model ->
  Forall (fun q => Forall has_gradient (flatten q)) posterior_model ->
  SVGD_correct_gradient posterior_model
  = Finite (Num bw,
            map (fun p =>
                   {| ident := ident p;
                      flatten :=
                        map (fun iv : nat * variable =>
                               {| value := value (snd iv);
                                  grad := Some (map Num (overwritten_gradient
                                                           bw posterior_model p (fst iv))) |})
                            (enumerate (flatten p)) |})
                posterior_model).
Proof.
  intros Hbw Hne Hshape Hgrad.
  rewrite (SVGD_correct_gradient_floats posterior_model (Num bw) nv).
  - f_equal. f_equal. apply map_ext_in. intros p Hp. f_equal.
    apply map_ext_in. intros [v x] Hvx. cbn [fst snd]. f_equal. f_equal.
    apply float_overwritten_gradient_number; [exact Hne|].
    intros other Hother.
    rewrite List.Forall_forall in Hshape. rewrite List.Forall_forall in Hgrad.
    pose proof (Hgrad other Hother) as Hall. rewrite List.Forall_forall in Hall.
    apply Hall. unfold variable_at. apply nth_In.
    rewrite (Hshape other Hother), <- (Hshape p Hp).
    apply in_enumerate in Hvx. exact (lookup_lt _ _ _ Hvx).
  - now rewrite Hbw.
  - exact Hshape.
  - apply List.Forall_forall. intros q Hq. apply List.Forall_forall. intros x Hx.
    apply has_gradient_grad.
    rewrite List.Forall_forall in Hgrad.
    pose proof (Hgrad q Hq) as Hall. rewrite List.Forall_forall in Hall. now apply Hall.
Qed.

End GradientFormula.

(** * The gradient correction of the Stein method *)

Section SteinGradient.
Local Open Scope R_scope.

Lemma kernel_pos (d bw : R) : 0 < kernel d bw.
Proof. apply exp_pos. Qed.

(** The kernel is symmetric in the two particles. *)
Lemma kernel_symmetric (bw : R) (p1 p2 : particle) :
  kernel (pair_deviation p1 p2) bw = kernel (pair_deviation p2 p1) bw.
Proof. now rewrite pair_deviation_sym. Qed.

(** The kernel of a particle with itself is 1. *)
Lemma kernel_self (bw : R) (p : particle) :
  bw <> 0 -> kernel (pair_deviation p p) bw = 1.
Proof.
  intros _. unfold kernel. rewrite pair_deviation_self.
  replace (- 0 / (2 * bw)) with 0 by (unfold Rdiv; ring). apply exp_0.
Qed.

Lemma bandwidth_two : update_bandwidth two_particles = Finite (2 / ln 2).
Proof.
  unfold update_bandwidth. rewrite median_two. cbn [obind].
  f_equal. change (INR (length two_particles)) with (1 + 1).
  replace (1 + 1) with 2 by lra. unfold Rdiv. ring.
Qed.

Lemma bandwidth_two_pos : 0 < 2 / ln 2.
Proof.
  apply Rdiv_lt_0_compat; [lra|]. rewrite <- ln_1. apply ln_increasing; lra.
Qed.

(** The entry [kernel_matrix[i][j]] is the kernel of particles [j] and [i]. *)
Lemma kernel_matrix_entry (bw : R) (posterior_model : list particle) (i j : nat)
      (d : particle) :
  (i < length posterior_model)%nat ->
  (j < length posterior_model)%nat ->
  nth j (nth i (kernel_matrix bw posterior_model) []) 0
  = kernel (pair_deviation (nth j posterior_model d) (nth i posterior_model d)) bw.
Proof.
  intros Hi Hj. unfold kernel_matrix.
  rewrite (nth_indep _ []
             (map (fun particle1 => kernel (pair_deviation particle1 d) bw)
                  posterior_model))
    by now rewrite length_map.
  rewrite (map_nth (fun particle2 =>
                      map (fun particle1 =>
                             kernel (pair_deviation particle1 particle2) bw)
                          posterior_model)).
  rewrite (nth_indep _ 0
             (kernel (pair_deviation d (nth i posterior_model d)) bw))
    by now rewrite length_map.
  apply (map_nth (fun particle1 =>
                    kernel (pair_deviation particle1 (nth i posterior_model d)) bw)).
Qed.

(** The kernel matrix is symmetric, with 1 on the diagonal. *)
Lemma kernel_matrix_symmetric (bw : R) (posterior_model : list particle) (i j : nat) :
  (i < length posterior_model)%nat ->
  (j < length posterior_model)%nat ->
  nth j (nth i (kernel_matrix bw posterior_model) []) 0
  = nth i (nth j (kernel_matrix bw posterior_model) []) 0.
Proof.
  intros Hi Hj.
  rewrite !(kernel_matrix_entry bw posterior_model _ _ {| ident := 0; flatten := [] |})
    by assumption.
  apply kernel_symmetric.
Qed.

Lemma kernel_matrix_diagonal (bw : R) (posterior_model : list particle) (i : nat) :
  bw <> 0 ->
  (i < length posterior_model)%nat ->
  nth i (nth i (kernel_matrix bw posterior_model) []) 0 = 1.
Proof.
  intros Hbw Hi.
  rewrite (kernel_matrix_entry bw posterior_model _ _ {| ident := 0; flatten := [] |})
    by assumption.
  now apply kernel_self.
Qed.

Lemma two_particles_shape :
  Forall (fun q => length (flatten q) = 1%nat) two_particles.
Proof. repeat constructor. Qed.

Lemma point_has_gradient (i : nat) (x g : R) : Forall has_gradient (flatten (point i x g)).
Proof. repeat constructor. now exists [g]. Qed.

Lemma two_particles_gradients :
  Forall (fun q => Forall has_gradient (flatten q)) two_particles.
Proof. repeat constructor; now exists [0]. Qed.

Lemma bandwidth_two_nonzero : 2 / ln 2 <> 0.
Proof. pose proof bandwidth_two_pos. lra. Qed.

(** C7, at two particles at 0 and 1 whose raw gradients vanish.  The
    kernel matrix is symmetric with 1 on the diagonal and the raw gradients
    are the ones read before the overwrite, as [SVGD_correct_gradient_value]
    shows for every input whose gradients are numbers, but the
    interaction term the code adds for particle [i] and the other particle
    [j] is [-(value_j - value_i) k(j,i) / bandwidth]: the gradient of the
    particle at 0 becomes [-k/bandwidth] where the repulsion term
    [-(value_i - value_j) k(i,j) / bandwidth] of the specification gives
    [+k/bandwidth], and symmetrically for the particle at 1. *)
Theorem stein_interaction_has_the_opposite_sign :
  let bw := 2 / ln 2 in
  let k := kernel 1 bw in
  SVGD_correct_gradient two_particles
  = Finite (Num bw, [point 0 0 (- (k / bw)); point 1 1 (k / bw)]) /\
  spec_gradient bw two_particles 0 0 = [k / bw] /\
  spec_gradient bw two_particles 1 0 = [- (k / bw)] /\
  0 < k / bw.
Proof.
  intros bw k.
  assert (Hbw : 0 < bw) by apply bandwidth_two_pos.
  assert (Hk : 0 < k) by apply kernel_pos.
  assert (H01 : kernel (pair_deviation (point 0 0 0) (point 1 1 0)) bw = k).
  { rewrite point_deviation. unfold k. f_equal. ring. }
  assert (H10 : kernel (pair_deviation (point 1 1 0) (point 0 0 0)) bw = k).
  { rewrite point_deviation. unfold k. f_equal. ring. }
  split; [|split; [|split]].
  - rewrite (SVGD_correct_gradient_value two_particles bw 1 bandwidth_two
               bandwidth_two_nonzero two_particles_shape two_particles_gradients).
    unfold two_particles, overwritten_gradient.
    cbn [map enumerate combine seq length flatten point value grad ident fst snd
         variable_at nth raw_gradient number
         py_sum_tensors fold_left tadd tscale tsub zip_with].
    fold (point 0 0 0) (point 1 1 0). rewrite H01, H10.
    unfold point. clearbody bw k.
    repeat f_equal; field; lra.
  - unfold spec_gradient, two_particles.
    cbn [nth map flatten point value grad raw_gradient number
         py_sum_tensors fold_left tadd tscale tsub zip_with].
    fold (point 0 0 0) (point 1 1 0). rewrite H01.
    clearbody bw k. f_equal. field. lra.
  - unfold spec_gradient, two_particles.
    cbn [nth map flatten point value grad raw_gradient number
         py_sum_tensors fold_left tadd tscale tsub zip_with].
    fold (point 0 0 0) (point 1 1 0). rewrite H10.
    clearbody bw k. f_equal. field. lra.
  - now apply Rdiv_lt_0_compat.
Qed.

End SteinGradient.

(** * The particle loss of the Wasserstein method *)

Section ParticleLossFacts.
Local Open Scope R_scope.
Context {Sampler Particle Sample Var Value : Type}.
Variable sampler_get_sample : Sampler -> nat -> Sample.
Variable particle_get_sample : Particle -> Sample.
Variable get_importance_weights : Sample -> Sampler -> tensor.
Variable reassign_samples : Sample -> Sampler -> Particle -> Sample.
Variable zip_dict : Sample -> Sample -> list (Var * (Value * Value)).
Variable cost_function : Value -> Value -> tensor.
Variable deviation_statistics : list tensor -> tensor.

Local Abbreviation loss :=
  (get_particle_loss sampler_get_sample particle_get_sample get_importance_weights
                     reassign_samples zip_dict cost_function deviation_statistics).
Local Abbreviation pairs_of :=
  (pair_list_of sampler_get_sample particle_get_sample reassign_samples zip_dict).
Local Abbreviation statistics := (pair_statistics cost_function deviation_statistics).
Local Abbreviation weighted :=
  (weighted_particle_loss cost_function deviation_statistics).

Lemma combine_map_self {A B} (f : A -> B) (l : list A) :
  combine (map f l) l = map (fun x => (f x, x)) l.
Proof. induction l as [|x l IH]; simpl; [reflexivity|now rewrite IH]. Qed.

Lemma rmapM_const {A B} (b : B) (l : list A) :
  rmapM (fun _ => Ok b) l = Ok (map (fun _ => b) l).
Proof. induction l as [|x l IH]; simpl; [reflexivity|now rewrite IH]. Qed.

Lemma np_sum_tscale (r : R) (t : tensor) : np_sum (tscale r t) = r * np_sum t.
Proof.
  unfold tscale. induction t as [|x t IH]; lists; [ring|]. rewrite IH. ring.
Qed.

Lemma length_zip3 {A B D} (la : list A) (lb : list B) (ld : list D) :
  (length (zip3 la lb ld) <= length lb)%nat.
Proof.
  revert lb ld. induction la as [|a la IH]; intros [|b lb] [|d ld]; simpl; try lia.
  specialize (IH lb ld). lia.
Qed.

Lemma length_pairs_of particle_list sampler_model number_samples :
  (length (pairs_of particle_list sampler_model number_samples)
   <= length sampler_model)%nat.
Proof.
  unfold pair_list_of. rewrite length_map, length_combine, length_map.
  etransitivity; [apply Nat.le_min_r|].
  etransitivity; [apply length_zip3|]. reflexivity.
Qed.

(** Weights that are all the float [r] scale the unweighted sum by [r]. *)
Lemma weighted_uniform {A} (r : R) (pairs : list (list (Var * (Value * Value))))
      (l : list A) :
  (length pairs <= length l)%nat ->
  weighted (map (fun _ => WFloat r) l) pairs
  = r * py_sum (map (fun particle => np_sum (statistics particle)) pairs).
Proof.
  unfold weighted_particle_loss. rewrite !py_sum_np_sum. revert l.
  induction pairs as [|p pairs IH]; intros [|x l] Hlen; simpl in Hlen;
    cbn [map combine]; rewrite ?np_sum_cons, ?np_sum_nil; try ring; try lia.
  cbn [fst snd weigh]. rewrite np_sum_tscale, IH by lia. ring.
Qed.

(** C9, as the code has it.  Without [biased] the loss is the sum over the
    particles of the distances weighted by the importance weights of the
    joint model.  With [biased] the floats 1/number_samples are computed
    but not applied: the loss is the plain sum of the distances, which is
    number_samples times the uniformly weighted loss. *)
Theorem particle_loss_is_weighted_unless_biased :
  (forall particle_list sampler_model number_samples,
      get_particle_loss sampler_get_sample particle_get_sample get_importance_weights
                        reassign_samples zip_dict cost_function deviation_statistics
                        false particle_list sampler_model number_samples
      = Ok (weighted_particle_loss cost_function deviation_statistics
              (map (fun sampler =>
                      WTensor (get_importance_weights
                                 (sampler_get_sample sampler number_samples) sampler))
                   sampler_model)
              (pairs_of particle_list sampler_model number_samples)))
  /\
  (forall particle_list sampler_model number_samples,
      number_samples <> 0%nat ->
      get_particle_loss sampler_get_sample particle_get_sample get_importance_weights
                        reassign_samples zip_dict cost_function deviation_statistics
                        true particle_list sampler_model number_samples
      = Ok (py_sum (map (fun particle => np_sum (statistics particle))
                        (pairs_of particle_list sampler_model number_samples)))
      /\
      py_sum (map (fun particle => np_sum (statistics particle))
                  (pairs_of particle_list sampler_model number_samples))
      = INR number_samples
        * weighted_particle_loss cost_function deviation_statistics
            (map (fun _ => WFloat (1 / INR number_samples)) sampler_model)
            (pairs_of particle_list sampler_model number_samples)).
Proof.
  split.
  - intros particle_list sampler_model number_samples.
    unfold get_particle_loss, weighted_particle_loss, pair_list_of.
    cbn [negb]. rewrite combine_map_self, map_map. reflexivity.
  - intros particle_list sampler_model number_samples Hn. split.
    + unfold get_particle_loss, pair_list_of.
      apply Nat.eqb_neq in Hn. rewrite Hn, rmapM_const. reflexivity.
    + rewrite weighted_uniform by apply length_pairs_of.
      assert (INR number_samples <> 0) by now apply not_0_INR.
      field. assumption.
Qed.

(** With [biased] and no draw at all the float division raises. *)
Lemma biased_particle_loss_without_samples particle_list sampler sampler_model :
  loss true particle_list (sampler :: sampler_model) 0%nat = Err ZeroDivisionError.
Proof. reflexivity. Qed.

End ParticleLossFacts.

Section ToyParticleLoss.
Local Open Scope R_scope.

Lemma toy_biased_loss : toy_particle_loss true = Ok 2.
Proof.
  unfold toy_particle_loss, get_particle_loss, pair_statistics, py_sum.
  cbn [Nat.eqb rmapM map zip3 combine negb fst snd py_sum_tensors fold_left tadd
       zip_with].
  rewrite ?np_sum_cons, ?np_sum_nil. f_equal. lra.
Qed.

Lemma toy_weighted_loss : toy_uniformly_weighted_loss = 1.
Proof.
  unfold toy_uniformly_weighted_loss, weighted_particle_loss, pair_statistics, py_sum.
  cbn [map combine fst snd weigh tscale py_sum_tensors fold_left tadd zip_with].
  rewrite ?np_sum_cons, ?np_sum_nil. change (INR 2) with (1 + 1). field.
Qed.

(** One particle, two draws at cost 1 each, [biased] set: the loss is 2,
    not the 1 that weights of 1/number_samples give. *)
Lemma biased_particle_loss_is_not_weighted :
  toy_particle_loss true = Ok 2 /\
  toy_uniformly_weighted_loss = 1 /\
  toy_particle_loss true <> Ok toy_uniformly_weighted_loss.
Proof.
  split; [exact toy_biased_loss|]. split; [exact toy_weighted_loss|].
  rewrite toy_biased_loss, toy_weighted_loss. intros H. injection H as H. lra.
Qed.

Lemma particle_loss_is_weighted_unless_biased_witness :
  toy_particle_loss false
  = Ok (weighted_particle_loss (Var := unit) (Value := unit)
          (fun _ _ => [1; 1]) py_sum_tensors
          [WTensor [1 / 2; 1 / 2]] [[(tt, (tt, tt))]])
  /\
  toy_particle_loss true
  = Ok (py_sum (map (fun particle =>
                       np_sum (pair_statistics (Var := unit) (Value := unit)
                                 (fun _ _ => [1; 1]) py_sum_tensors particle))
                    [[(tt, (tt, tt))]])).
Proof.
  pose proof (particle_loss_is_weighted_unless_biased
                (Sampler := unit) (Particle := unit) (Sample := unit)
                (Var := unit) (Value := unit)
                (fun _ _ => tt) (fun _ => tt) (fun _ _ => [1 / 2; 1 / 2])
                (fun _ _ _ => tt) (fun _ _ => [(tt, (tt, tt))])
                (fun _ _ => [1; 1]) py_sum_tensors) as [Hu Hb].
  split.
  - exact (Hu [tt] [tt] 2%nat).
  - refine (proj1 (Hb [tt] [tt] 2%nat _)). lia.
Defined.

End ToyParticleLoss.

(** * MAP: the constructed posterior and the compatibility check *)

Section MAPFacts.
Context {Value : Type}.
Variable first_draw : Value -> Value.
Variable get_sample : @ProbabilisticModel Value -> list (@model_variable Value * Value).

Local Abbreviation construct := (MAP_construct_posterior_model first_draw get_sample).

Lemma filter_map_fst {A B} (f : A -> bool) (l : list (A * B)) :
  List.filter f (map fst l) = map fst (List.filter (fun item => f (fst item)) l).
Proof.
  induction l as [|[a b] l IH]; simpl; [reflexivity|].
  destruct (f a); simpl; now rewrite IH.
Qed.

Lemma Permutation_list_filter {A} (f : A -> bool) (l l' : list A) :
  Permutation l l' -> Permutation (List.filter f l) (List.filter f l').
Proof.
  induction 1 as [|x l l' _ IH|x y l|l l' l'' _ IH1 _ IH2]; simpl.
  - constructor.
  - destruct (f x); [now constructor|exact IH].
  - destruct (f x), (f y); try reflexivity. constructor.
  - now transitivity (List.filter f l').
Qed.

Lemma needs_point_estimate_spec (v : @model_variable Value) :
  needs_point_estimate v = true
  <-> is_observed v = false /\ class v <> DeterministicVariable
      /\ class v <> RootVariable.
Proof.
  unfold needs_point_estimate, is_deterministic_or_root.
  destruct (is_observed v), (class v); simpl; intuition congruence.
Qed.

Lemma is_deterministic_or_root_spec (v : @model_variable Value) :
  is_deterministic_or_root v = false <-> class v = RandomVariable.
Proof.
  unfold is_deterministic_or_root. destruct (class v); intuition congruence.
Qed.

(** C8.  The constructed posterior has, in the order of the sample, one
    variable for each sampled variable that is neither observed nor
    deterministic nor root: deterministic, learnable, of the same name, with
    the first draw of the sample as its data.  When the sample holds the
    variables of the joint model, these are, name for name, the variables of
    the joint model that are neither observed nor deterministic nor root.
    The compatibility check raises exactly when some variable of the
    posterior is neither deterministic nor root, and accepts the constructed
    posterior. *)
Theorem MAP_posterior_is_one_point_mass_per_latent :
  (forall joint_model,
      Forall2 (fun item d =>
                 name d = name (fst item) /\ class d = DeterministicVariable /\
                 learnable d = true /\ data d = Some (first_draw (snd item)))
              (List.filter (fun item => negb (is_observed (fst item))
                                        && negb (is_deterministic_or_root (fst item)))
                           (get_sample joint_model))
              (model_flatten (MAP_construct_posterior_model first_draw get_sample
                                                            joint_model)))
  /\
  (forall joint_model,
      Permutation (map fst (get_sample joint_model)) (model_flatten joint_model) ->
      Permutation
        (map name (model_flatten (MAP_construct_posterior_model first_draw get_sample
                                                                joint_model)))
        (map name (List.filter (fun v => negb (is_observed v)
                                         && negb (is_deterministic_or_root v))
                               (model_flatten joint_model))))
  /\
  (forall posterior_model : @ProbabilisticModel Value,
      (MAP_check_model_compatibility posterior_model = Err (AssertionError "")
       <-> exists v, In v (model_flatten posterior_model) /\ class v = RandomVariable)
      /\
      (MAP_check_model_compatibility posterior_model = Ok tt
       <-> forall v, In v (model_flatten posterior_model) -> class v <> RandomVariable))
  /\
  (forall joint_model,
      MAP_check_model_compatibility
        (MAP_construct_posterior_model first_draw get_sample joint_model) = Ok tt).
Proof.
  split; [|split; [|split]].
  - intros joint_model. unfold MAP_construct_posterior_model, model_flatten.
    cbn [variables]. unfold needs_point_estimate.
    induction (List.filter _ (get_sample joint_model)) as [|item l IH];
      cbn [map]; constructor; [|exact IH].
    repeat split.
  - intros joint_model Hperm.
    unfold MAP_construct_posterior_model, model_flatten in *. cbn [variables].
    rewrite map_map. cbn [new_DeterministicVariable name].
    rewrite <- (map_map fst name).
    apply Permutation_map.
    pose proof (filter_map_fst
                  (fun v : @model_variable Value =>
                     negb (is_observed v) && negb (is_deterministic_or_root v))
                  (get_sample joint_model)) as Hf.
    cbv beta in Hf. unfold needs_point_estimate. rewrite <- Hf.
    apply Permutation_list_filter. exact Hperm.
  - intros posterior_model. unfold MAP_check_model_compatibility.
    destruct (forallb is_deterministic_or_root (model_flatten posterior_model)) eqn:E.
    + rewrite forallb_forall in E. split; split; try discriminate; try reflexivity.
      * intros (v & Hin & Hv). apply E in Hin.
        apply is_deterministic_or_root_spec in Hv. congruence.
      * intros _ v Hin Hv. apply E in Hin.
        apply is_deterministic_or_root_spec in Hv. congruence.
    + assert (Hex : exists v, In v (model_flatten posterior_model)
                              /\ class v = RandomVariable).
      { induction (model_flatten posterior_model) as [|v l IH]; [discriminate|].
        simpl in E. destruct (is_deterministic_or_root v) eqn:Ev.
        - destruct (IH E) as (w & Hin & Hw). exists w. split; [now right|exact Hw].
        - exists v. split; [now left|]. now apply is_deterministic_or_root_spec. }
      split; split; try discriminate; try reflexivity.
      * intros _. exact Hex.
      * intros Hall. destruct Hex as (v & Hin & Hv). now destruct (Hall v Hin).
  - intros joint_model. unfold MAP_check_model_compatibility, model_flatten,
      MAP_construct_posterior_model. cbn [variables].
    replace (forallb _ _) with true; [reflexivity|].
    symmetry. apply forallb_forall. intros d Hd.
    apply List.in_map_iff in Hd as (item & <- & _). reflexivity.
Qed.

End MAPFacts.

Section ToyMAP.

Lemma MAP_posterior_is_one_point_mass_per_latent_witness :
  Permutation
    (map name (model_flatten (MAP_construct_posterior_model (fun v : nat => v)
                                                            toy_get_sample
                                                            toy_joint_model)))
    (map name (List.filter (fun v => negb (is_observed v)
                                     && negb (is_deterministic_or_root v))
                           (model_flatten toy_joint_model))).
Proof.
  apply (proj1 (proj2 (MAP_posterior_is_one_point_mass_per_latent
                         (fun v : nat => v) toy_get_sample)) toy_joint_model).
  reflexivity.
Defined.

(** On the small model: point masses for [mu] and [z], seeded with the
    sampled value; a posterior that keeps a random variable is refused. *)
Example toy_MAP_posterior :
  MAP_construct_posterior_model (fun v : nat => v) toy_get_sample toy_joint_model
  = {| variables :=
         [ {| name := "mu"; class := DeterministicVariable; is_observed := false;
              learnable := true; data := Some 7%nat |};
           {| name := "z"; class := DeterministicVariable; is_observed := false;
              learnable := true; data := Some 7%nat |} ] |}
  /\ MAP_check_model_compatibility toy_joint_model = Err (AssertionError "").
Proof. split; reflexivity. Qed.

End ToyMAP.

(** * The trace of a completed run *)

Section RunTrace.
Context `{C : Collaborators}.
Variable im : InferenceMethod.
Variables (joint_model : Model) (posterior_model sampler_model : option Model).
Variable number_samples : nat.
Variable pretraining_iterations : Z.
Variables (optimizer : string) (opt_params : OptParams).

Lemma for_each_inv (ev : PO -> event) (f : PO -> W -> result W) os :
  forall st st',
    for_each (fun o => call (ev o) (f o)) os st = Ok (tt, st') ->
    trace st' = trace st ++ map ev os.
Proof.
  induction os as [|o os IH]; intros st st' H; simpl in H.
  - unfold ret in H. inversion H; subst. now rewrite app_nil_r.
  - apply bind_inv in H as ([] & st1 & H1 & H2).
    apply IH in H2. rewrite H2.
    unfold call in H1. destruct (f o (world st)); [|discriminate].
    inversion H1; subst. simpl. now rewrite <- app_assoc.
Qed.

Lemma call_inv e (f : W -> result W) st st' :
  call e f st = Ok (tt, st') -> trace st' = trace st ++ [e].
Proof.
  unfold call. destruct (f (world st)); [|discriminate].
  intros H. inversion H; subst. reflexivity.
Qed.

(** What a completed iteration leaves in the history and in the trace. *)
Lemma iteration_inv opt0 others iteration loss_list st loss_list' st' :
  iteration_body im joint_model posterior_model sampler_model number_samples
                 pretraining_iterations (opt0 :: others) iteration loss_list st
  = Ok (loss_list', st') ->
  exists l,
    loss_list' = loss_list ++ history_entries l /\
    trace st' = trace st ++ iteration_events pretraining_iterations opt0 others iteration l.
Proof.
  unfold iteration_body, iteration_events, history_entries. intros H.
  apply bind_inv in H as (l & st1 & H1 & H).
  assert (T1 : trace st1 = trace st ++ [EvComputeLoss]).
  { unfold call_val in H1.
    destruct (compute_loss im joint_model posterior_model sampler_model
                           number_samples (world st)) as [[l0 w0]|]; [|discriminate].
    inversion H1; subst; reflexivity. }
  exists l.
  apply bind_inv in H as (ll1 & st2 & H2 & H).
  unfold ret in H. injection H as <- <-.
  destruct (is_finite l).
  - apply bind_inv in H2 as ([] & sa & Ha & H2). apply for_each_inv in Ha.
    apply bind_inv in H2 as ([] & sb & Hb & H2). apply call_inv in Hb.
    apply bind_inv in H2 as ([] & sc & Hc & H2). apply call_inv in Hc.
    apply bind_inv in H2 as (o & sd & Hd & H2).
    unfold index0, ret in Hd. injection Hd as <- <-.
    apply bind_inv in H2 as ([] & se & He & H2). apply call_inv in He.
    apply bind_inv in H2 as ([] & sf & Hf & H2).
    unfold ret in H2. injection H2 as <- <-.
    split; [now rewrite <- app_assoc|].
    assert (Tf : trace sf = trace se
                   ++ (if (pretraining_iterations <? iteration)%Z
                       then map EvUpdate others else [])).
    { destruct (pretraining_iterations <? iteration)%Z.
      - now apply for_each_inv in Hf.
      - unfold ret in Hf. injection Hf as <-. now rewrite app_nil_r. }
    rewrite Tf, He, Hc, Hb, Ha, T1. unfold step_events.
    repeat rewrite <- app_assoc. reflexivity.
  - apply bind_inv in H2 as ([] & sa & Ha & H2).
    unfold ret in H2. injection H2 as <- <-.
    split; [reflexivity|].
    unfold warn, tick in Ha. injection Ha as <-. simpl.
    rewrite T1. unfold skipped_events. now rewrite <- app_assoc.
Qed.

Lemma loop_inv opt0 others iterations :
  forall loss_list st loss_list' st',
    training_loop im joint_model posterior_model sampler_model number_samples
                  pretraining_iterations (opt0 :: others) iterations loss_list st
    = Ok (loss_list', st') ->
    exists losses,
      length losses = length iterations /\
      loss_list' = loss_list ++ flat_map history_entries losses /\
      trace st' = trace st
                    ++ concat (zip_with (iteration_events pretraining_iterations
                                                          opt0 others)
                                        iterations losses).
Proof.
  induction iterations as [|i rest IH]; intros loss_list st loss_list' st' H; simpl in H.
  - unfold ret in H. injection H as <- <-. exists []. simpl.
    now rewrite !app_nil_r.
  - apply bind_inv in H as (ll1 & st1 & H1 & H2).
    apply iteration_inv in H1 as (l & -> & T1).
    apply IH in H2 as (losses & Hlen & -> & T2).
    exists (l :: losses). simpl. rewrite Hlen, T2, T1, <- !app_assoc.
    repeat split.
Qed.


Lemma in_iteration_events iteration opt0 others l o :
  In (EvUpdate o) (iteration_events pretraining_iterations opt0 others iteration l) ->
  o = opt0 \/ (In o others /\ (pretraining_iterations < iteration)%Z).
Proof.
  unfold iteration_events. destruct (is_finite l).
  - apply in_step_events.
  - unfold skipped_events. intros [H|[H|[]]]; discriminate.
Qed.

(** X2.  The pretraining phase: in a completed call of at most
    [pretraining_iterations + 1] iterations no optimizer but the first is
    ever stepped. *)
Theorem pretraining_steps_only_the_first_optimizer number_iterations opt0 others st st' o :
  build_optimizers (im_flags im) joint_model posterior_model sampler_model
                   optimizer opt_params = Ok (opt0 :: others) ->
  perform_inference joint_model number_iterations number_samples optimizer im
                    posterior_model sampler_model pretraining_iterations opt_params st
  = Ok (tt, st') ->
  (Z.of_nat number_iterations <= pretraining_iterations + 1)%Z ->
  In (EvUpdate o) (skipn (length (trace st)) (trace st')) ->
  o = opt0.
Proof.
  intros Hopt H Hn Hin. unfold perform_inference in H. rewrite Hopt in H.
  apply bind_inv in H as ([] & st1 & Hchk & H).
  apply bind_inv in H as (loss_list & st2 & Hloop & H).
  apply bind_inv in H as ([] & st3 & Hrec & H).
  apply bind_inv in H as ([] & st4 & Hpost & H).
  apply loop_inv in Hloop as (losses & Hlen & _ & T2).
  assert (T1 : trace st1 = trace st ++ [EvCheckCompatibility]).
  { unfold call_val in Hchk.
    destruct (check_model_compatibility im joint_model posterior_model
                                        sampler_model (world st)); [|discriminate].
    inversion Hchk; subst; reflexivity. }
  assert (T3 : trace st3 = trace st2).
  { unfold record_loss_curve in Hrec.
    destruct (np_array loss_list) as [[]|e]; [|discriminate].
    inversion Hrec; subst; reflexivity. }
  apply call_inv in Hpost.
  assert (T5 : exists final, trace st' = trace st4 ++ final /\
                             ~ In (EvUpdate o) final).
  { destruct (posterior_model_is_None joint_model (world st4)
              && learnable_posterior (im_flags im)).
    - apply call_inv in H. exists [EvSetPosterior]. split; [exact H|].
      intros [E|[]]; discriminate.
    - unfold ret in H. injection H as <-. exists []. split; [now rewrite app_nil_r|].
      intros []. }
  destruct T5 as (final & T5 & Hfinal).
  rewrite T5, Hpost, T3, T2, T1 in Hin.
  repeat rewrite <- app_assoc in Hin.
  rewrite skipn_app, skipn_all, Nat.sub_diag in Hin. simpl in Hin.
  destruct Hin as [E|Hin]; [discriminate|].
  apply in_app_iff in Hin as [Hin|Hin].
  - apply in_concat in Hin as (evs & Hevs & Hin).
    assert (Hall : forall its ls,
               Forall (fun i => (i <= pretraining_iterations)%Z) its ->
               In evs (zip_with (iteration_events pretraining_iterations opt0 others)
                                its ls) ->
               o = opt0).
    { induction its as [|i its IH]; intros [|l ls] Hits Hmem; simpl in Hmem;
        try destruct Hmem.
      - subst evs. apply in_iteration_events in Hin as [->|[_ Hlt]]; [reflexivity|].
        inversion Hits; subst. lia.
      - inversion Hits; subst. eapply IH; eassumption. }
    apply (Hall (range number_iterations) losses); [|exact Hevs].
    apply List.Forall_forall. intros i Hi. unfold range in Hi.
    apply List.in_map_iff in Hi as (k & <- & Hk). apply in_seq in Hk. lia.
  - destruct Hin as [E|Hin]; [discriminate|]. now destruct (Hfinal Hin).
Qed.

End RunTrace.

(** * The front of [perform_inference] and the strategy classes *)

Section FrontEnd.
Context `{C : Collaborators}.
Variable raw : InferenceMethod.
Variable MAP_construct : Model -> W -> result (Model * W).
Variables (own_samplers : Model) (falsy : Model -> bool).
Variable joint_posterior_model : W -> option Model.
Variable joint_posterior_sampler : option (option Model).
Variable update_observed_submodel : W -> result W.
Variable joint_model : Model.
Variables (number_iterations number_samples : nat).
Variables (optimizer : string) (opt_params : OptParams).
Variable pretraining_iterations : Z.

(** X3.  Called without a posterior model on a joint model that has none
    attached, every strategy but [MaximumLikelihood] and [MAP] (the default
    included) raises the [ValueError] of its [construct_posterior_model],
    whatever the other arguments are. *)
Theorem missing_posterior_raises_ValueError
        (inference_method : option strategy) (sampler_model : option Model) st :
  inference_method <> Some MaximumLikelihood ->
  inference_method <> Some MAP ->
  joint_posterior_model (world st) = None ->
  perform_inference_from_arguments
    joint_model number_iterations number_samples optimizer inference_method raw
    MAP_construct own_samplers falsy joint_posterior_model joint_posterior_sampler
    update_observed_submodel None sampler_model pretraining_iterations opt_params st
  = Err (ValueError
           match inference_method with
           | None | Some ReverseKL => ReverseKL_construction_message
           | Some _ => base_construction_message
           end).
Proof.
  intros Hml Hmap Hnone. unfold perform_inference_from_arguments.
  destruct inference_method as [[]|]; try congruence;
    unfold bind, ret, warn, tick, quiet; simpl; rewrite Hnone; reflexivity.
Qed.

(** Leaving the inference method out is running [ReverseKL] after one
    warning. *)
Theorem default_method_is_ReverseKL (posterior_model sampler_model : option Model) st :
  perform_inference_from_arguments
    joint_model number_iterations number_samples optimizer None raw
    MAP_construct own_samplers falsy joint_posterior_model joint_posterior_sampler
    update_observed_submodel posterior_model sampler_model
    pretraining_iterations opt_params st
  = perform_inference_from_arguments
      joint_model number_iterations number_samples optimizer (Some ReverseKL) raw
      MAP_construct own_samplers falsy joint_posterior_model joint_posterior_sampler
      update_observed_submodel posterior_model sampler_model
      pretraining_iterations opt_params
      {| world := world st; diagnostics := diagnostics st;
         trace := trace st ++ [EvWarn default_method_message] |}.
Proof. reflexivity. Qed.

(** X4.  [MAP] and [SteinVariationalGradientDescent] declare a learnable
    posterior but have no [set_posterior_model_after_inference]: on a joint
    model whose posterior slot is empty the call never returns; once the
    iterations are done, numpy has stacked the loss history and the
    post-processing has returned, it raises [AttributeError]. *)
Theorem strategies_without_installer_never_return
        (s : strategy) (posterior_model sampler_model : option Model) :
  s = MAP \/ s = SteinVariationalGradientDescent ->
  (forall w, posterior_model_is_None joint_model w = true) ->
  (forall st u st',
      perform_inference joint_model number_iterations number_samples optimizer
                        (method_of s raw) posterior_model sampler_model
                        pretraining_iterations opt_params st
      <> Ok (u, st'))
  /\
  (forall st optimizers_list loss_list st2,
      build_optimizers (strategy_flags s) joint_model posterior_model sampler_model
                       optimizer opt_params = Ok optimizers_list ->
      check_model_compatibility (method_of s raw) joint_model posterior_model
                                sampler_model (world st) = Ok tt ->
      training_loop (method_of s raw) joint_model posterior_model sampler_model
                    number_samples pretraining_iterations optimizers_list
                    (range number_iterations) []
                    {| world := world st; diagnostics := diagnostics st;
                       trace := trace st ++ [EvCheckCompatibility] |}
      = Ok (loss_list, st2) ->
      is_ok (np_array loss_list) ->
      is_ok (post_process (method_of s raw) joint_model (world st2)) ->
      perform_inference joint_model number_iterations number_samples optimizer
                        (method_of s raw) posterior_model sampler_model
                        pretraining_iterations opt_params st
      = Err (AttributeError "set_posterior_model_after_inference")).
Proof.
  intros Hs Hnone.
  assert (Hflag : learnable_posterior (im_flags (method_of s raw)) = true)
    by (destruct Hs as [-> | ->]; reflexivity).
  assert (Hset : forall j p q w,
             set_posterior_model_after_inference (method_of s raw) j p q w
             = Err (AttributeError "set_posterior_model_after_inference"))
    by (destruct Hs as [-> | ->]; reflexivity).
  split.
  - intros st u st' H. unfold perform_inference in H.
    destruct (build_optimizers _ _ _ _ _ _) as [opts|]; [|discriminate].
    apply bind_inv in H as ([] & st1 & _ & H).
    apply bind_inv in H as (loss_list & st2 & _ & H).
    apply bind_inv in H as ([] & st3 & _ & H).
    apply bind_inv in H as ([] & st4 & _ & H).
    rewrite Hnone, Hflag in H. simpl in H.
    unfold call in H. rewrite Hset in H. discriminate.
  - intros st opts loss_list st2 Hopt Hchk Hloop [[] Hnp] [w Hpost].
    unfold perform_inference.
    change (im_flags (method_of s raw)) with (strategy_flags s). rewrite Hopt.
    unfold bind at 1. unfold call_val at 1. rewrite Hchk.
    rewrite (bind_Ok _ _ _ _ _ Hloop).
    unfold bind at 1. unfold record_loss_curve at 1. rewrite Hnp.
    unfold bind at 1. unfold call at 1. simpl world. rewrite Hpost.
    rewrite Hnone.
    change (learnable_posterior (strategy_flags s))
      with (learnable_posterior (im_flags (method_of s raw))).
    rewrite Hflag. simpl. unfold call. now rewrite Hset.
Qed.

End FrontEnd.

Section ToyRunTrace.
#[local] Existing Instance toy.


Lemma pretraining_steps_only_the_first_optimizer_witness :
  exists st',
    perform_inference 2%nat 2 1 "Adam" (toy_method ReverseKL_flags false)
                      (Some 1%nat) None 5 tt (toy_state 0) = Ok (tt, st') /\
    In (EvUpdate 1%nat) (skipn (length (trace (toy_state 0))) (trace st')) /\
    1%nat = 1%nat.
Proof.
  eexists. split; [vm_compute; reflexivity|].
  assert (Hin : In (EvUpdate 1%nat)
                   (skipn (length (trace (toy_state 0)))
                          [EvCheckCompatibility; EvComputeLoss; EvZeroGrad 1%nat;
                           EvZeroGrad 2%nat; EvBackward; EvCorrectGradient;
                           EvUpdate 1%nat; EvComputeLoss; EvZeroGrad 1%nat;
                           EvZeroGrad 2%nat; EvBackward; EvCorrectGradient;
                           EvUpdate 1%nat; EvPostProcess]))
    by (simpl; auto 10).
  split; [exact Hin|].
  eapply (pretraining_steps_only_the_first_optimizer
            (toy_method ReverseKL_flags false) 2%nat (Some 1%nat) None 1 5 "Adam" tt
            2 1%nat [2%nat] (toy_state 0)).
  - vm_compute; reflexivity.
  - vm_compute; reflexivity.
  - lia.
  - exact Hin.
Defined.

Lemma missing_posterior_raises_ValueError_witness :
  perform_inference_from_arguments
    2%nat 2 1 "Adam" None (toy_method ReverseKL_flags false)
    (fun m w => Ok (m, w)) 3%nat (fun m => Nat.eqb m 0) (fun _ => None) None
    (fun w => Ok w) None None 0 tt (toy_state 0)
  = Err (ValueError ReverseKL_construction_message).
Proof.
  apply (missing_posterior_raises_ValueError
           (toy_method ReverseKL_flags false) (fun m w => Ok (m, w)) 3%nat
           (fun m => Nat.eqb m 0) (fun _ => None) None (fun w => Ok w)
           2%nat 2 1 "Adam" tt 0 None None (toy_state 0));
    [discriminate|discriminate|reflexivity].
Defined.

End ToyRunTrace.

Section ToyUnattached.
#[local] Existing Instance toy_unattached.

Lemma strategies_without_installer_never_return_witness :
  perform_inference 2%nat 2 1 "Adam" (method_of MAP (toy_unattached_method false))
                    (Some 1%nat) None 0 tt
                    (@Build_state toy_unattached 0%Z ∅ [])
  = Err (AttributeError "set_posterior_model_after_inference").
Proof.
  eapply (proj2 (strategies_without_installer_never_return
                   (toy_unattached_method false) 2%nat 2 1 "Adam" tt 0
                   MAP (Some 1%nat) None (or_introl eq_refl) (fun _ => eq_refl))
                (@Build_state toy_unattached 0%Z ∅ []) [1%nat; 2%nat]).
  - vm_compute; reflexivity.
  - vm_compute; reflexivity.
  - vm_compute; reflexivity.
  - eexists. vm_compute; reflexivity.
  - eexists. vm_compute; reflexivity.
Defined.

End ToyUnattached.

(** * More on the gradient correction of the Stein method *)

Section SteinMore.
Local Open Scope R_scope.

Lemma obind_inv {A B} (m : outcome A) (k : A -> outcome B) (b : B) :
  obind m k = Finite b -> exists a, m = Finite a /\ k a = Finite b.
Proof. destruct m as [a| |e]; simpl; try discriminate. intros H. now exists a. Qed.

Lemma omapM_inv {A B} (f : A -> outcome B) (l : list A) (l' : list B) :
  omapM f l = Finite l' -> Forall2 (fun a b => f a = Finite b) l l'.
Proof.
  revert l'. induction l as [|x l IH]; intros l' H; cbn [omapM] in H.
  - injection H as <-. constructor.
  - apply obind_inv in H as (y & Hy & H).
    apply obind_inv in H as (ys & Hys & H). injection H as <-.
    constructor; [exact Hy|now apply IH].
Qed.

Lemma Forall2_enumerate_map {A B D} (R : nat * A -> B -> Prop) (h : B -> D) (g : A -> D)
      (l : list A) (l' : list B) (n : nat) :
  (forall i x b, R (i, x) b -> h b = g x) ->
  Forall2 R (combine (seq n (length l)) l) l' ->
  map h l' = map g l.
Proof.
  intros HR. revert n l'. induction l as [|x l IH]; intros n l' H;
    cbn [length seq combine] in H; inversion H; subst; [reflexivity|].
  cbn [map]. f_equal; [eapply HR; eassumption|]. eapply IH; eassumption.
Qed.

Lemma Forall2_enumerate_Forall {A B} (R : nat * A -> B -> Prop) (P : B -> Prop)
      (l : list A) (l' : list B) (n : nat) :
  (forall i x b, R (i, x) b -> P b) ->
  Forall2 R (combine (seq n (length l)) l) l' ->
  Forall P l'.
Proof.
  intros HR. revert n l'. induction l as [|x l IH]; intros n l' H;
    cbn [length seq combine] in H; inversion H; subst; constructor.
  - eapply HR; eassumption.
  - eapply IH; eassumption.
Qed.

(** [update_bandwidth] does not raise: the bandwidth it stores is a number
    or nan. *)
Lemma stored_bandwidth_returns (posterior_model : list particle) :
  exists bw, stored_bandwidth (update_bandwidth posterior_model) = Finite bw.
Proof.
  unfold update_bandwidth, np_median. cbv zeta.
  destruct (Nat.eqb (length (distances posterior_model)) 0); [now exists NaN|].
  destruct (Nat.even (length (distances posterior_model))); cbn [obind stored_bandwidth];
    eexists; reflexivity.
Qed.

(** X6.  Whatever the particles are, when [correct_gradient] returns it
    has stored the bandwidth of [update_bandwidth], be it a number, 0.0 or
    nan, it has left the particles, their variables and the values of the
    variables as they were, and every variable has a gradient: only
    gradients are written, and all of them are. *)
Theorem stein_correction_only_writes_gradients
        (posterior_model corrected : list particle) (bw : float) :
  SVGD_correct_gradient posterior_model = Finite (bw, corrected) ->
  stored_bandwidth (update_bandwidth posterior_model) = Finite bw /\
  map ident corrected = map ident posterior_model /\
  map (fun p => map value (flatten p)) corrected
  = map (fun p => map value (flatten p)) posterior_model /\
  Forall (fun p => Forall (fun x => grad x <> None) (flatten p)) corrected.
Proof.
  unfold SVGD_correct_gradient. intros H.
  apply obind_inv in H as (bw0 & Hbw & H).
  apply obind_inv in H as (im & _ & H).
  apply obind_inv in H as (ps & Hps & H). injection H as <- <-.
  apply omapM_inv in Hps.
  split; [exact Hbw|]. split; [|split].
  - eapply (Forall2_enumerate_map _ ident ident); [|exact Hps].
    intros i x b Hb. cbv beta iota in Hb.
    apply obind_inv in Hb as (vs & _ & Hb). now injection Hb as <-.
  - eapply (Forall2_enumerate_map _ (fun p => map value (flatten p))
                                  (fun p => map value (flatten p))); [|exact Hps].
    intros i x b Hb. cbv beta iota in Hb.
    apply obind_inv in Hb as (vs & Hvs & Hb). injection Hb as <-. cbn [flatten].
    apply omapM_inv in Hvs.
    eapply (Forall2_enumerate_map _ value value); [|exact Hvs].
    intros v y c Hc. cbv beta iota in Hc.
    apply obind_inv in Hc as (g & _ & Hc). now injection Hc as <-.
  - eapply Forall2_enumerate_Forall; [|exact Hps].
    intros i x b Hb. cbv beta iota in Hb.
    apply obind_inv in Hb as (vs & Hvs & Hb). injection Hb as <-. cbn [flatten].
    apply omapM_inv in Hvs.
    eapply Forall2_enumerate_Forall; [|exact Hvs].
    intros v y c Hc. cbv beta iota in Hc.
    apply obind_inv in Hc as (g & _ & Hc). injection Hc as <-. discriminate.
Qed.

Lemma item_value_or_raises {A} (allowed : exn -> Prop) (l : list A) (i : nat) :
  allowed IndexError -> value_or_raises allowed (item l i).
Proof.
  intros Ha. unfold item. destruct (l !! i); [right; eauto|left; eauto].
Qed.

Lemma obind_value_or_raises {A B} (allowed : exn -> Prop)
      (m : outcome A) (k : A -> outcome B) :
  value_or_raises allowed m ->
  (forall a, m = Finite a -> value_or_raises allowed (k a)) ->
  value_or_raises allowed (obind m k).
Proof.
  intros [(e & He & ->)|[a ->]] Hk; [left; eauto|now apply Hk].
Qed.

Lemma omapM_value_or_raises {A B} (allowed : exn -> Prop)
      (f : A -> outcome B) (l : list A) :
  (forall a, In a l -> value_or_raises allowed (f a)) ->
  value_or_raises allowed (omapM f l).
Proof.
  induction l as [|x l IH]; intros Hf; cbn [omapM]; [right; eauto|].
  apply obind_value_or_raises; [apply Hf; now left|intros y _].
  apply obind_value_or_raises; [apply IH; intros a Ha; apply Hf; now right|].
  intros ys _. right; eauto.
Qed.

(** A comprehension whose elements return or raise an exception of
    [allowed] raises one of them as soon as one element does. *)
Lemma omapM_raises {A B} (allowed : exn -> Prop)
      (f : A -> outcome B) (l : list A) (a : A) :
  (forall x, In x l -> value_or_raises allowed (f x)) ->
  In a l ->
  (exists e, allowed e /\ f a = Raises e) ->
  exists e, allowed e /\ omapM f l = Raises e.
Proof.
  induction l as [|x l IH]; intros Hf Hin Ha; [destruct Hin|].
  cbn [omapM].
  destruct (Hf x (or_introl eq_refl)) as [(e & He & Hx)|[y Hy]].
  - exists e. split; [exact He|]. now rewrite Hx.
  - destruct Hin as [->|Hin].
    + destruct Ha as (e & _ & Ha). rewrite Ha in Hy. discriminate.
    + destruct (IH (fun z Hz => Hf z (or_intror Hz)) Hin Ha) as (e & He & Hl).
      exists e. split; [exact He|]. rewrite Hy. cbn [obind]. now rewrite Hl.
Qed.

Lemma in_enumerate_from_of_lookup {A} (l : list A) (n i : nat) (x : A) :
  l !! i = Some x -> In ((n + i)%nat, x) (combine (seq n (length l)) l).
Proof.
  revert n i. induction l as [|y l IH]; intros n [|i] H; try discriminate;
    cbn [length seq combine].
  - injection H as ->. left. f_equal. lia.
  - right. replace (n + S i)%nat with (S n + i)%nat by lia. now apply IH.
Qed.

Lemma in_enumerate_of_lookup {A} (l : list A) (i : nat) (x : A) :
  l !! i = Some x -> In (i, x) (enumerate l).
Proof. intros H. exact (in_enumerate_from_of_lookup l 0 i x H). Qed.

Lemma in_lookup {A} (l : list A) (x : A) : In x l -> exists i, l !! i = Some x.
Proof.
  induction l as [|y l IH]; [intros []|intros [->|H]]; [now exists 0%nat|].
  destruct (IH H) as [i Hi]. now exists (S i).
Qed.

Lemma lookup_ge {A} (l : list A) (i : nat) : (length l <= i)%nat -> l !! i = None.
Proof.
  revert i. induction l as [|y l IH]; intros [|i] H; simpl in H; try reflexivity;
    try lia.
  apply IH. lia.
Qed.

Lemma lookup_map_inv {A B} (f : A -> B) (l : list A) (i : nat) (y : B) :
  map f l !! i = Some y -> exists x, l !! i = Some x /\ y = f x.
Proof.
  revert i. induction l as [|a l IH]; intros [|i] H; try discriminate.
  - injection H as <-. now exists a.
  - apply (IH i H).
Qed.

Lemma item_Finite_in {A} (l : list A) (i : nat) (x : A) :
  item l i = Finite x -> In x l.
Proof.
  unfold item. destruct (l !! i) as [y|] eqn:E; [|discriminate].
  intros H. injection H as <-. exact (lookup_in _ _ _ E).
Qed.

Lemma times_gradient_value_or_raises (allowed : exn -> Prop)
      (k : float) (g : option ftensor) :
  allowed TypeError \/ g <> None -> value_or_raises allowed (times_gradient k g).
Proof.
  intros H. destruct g as [g|]; [right; eauto|].
  destruct H as [H|H]; [left; eauto|now destruct H].
Qed.

(** The element that line 366 sums returns a tensor or raises: an
    [IndexError] or, if the gradient is [None], a [TypeError]. *)
Lemma gradient_term_value_or_raises (allowed : exn -> Prop) km im i v j gj :
  allowed IndexError ->
  allowed TypeError \/ Forall (fun g : option ftensor => g <> None) gj ->
  value_or_raises allowed (gradient_term km im i v (j, gj)).
Proof.
  intros HI HT. unfold gradient_term.
  apply obind_value_or_raises; [now apply item_value_or_raises|intros krow _].
  apply obind_value_or_raises; [now apply item_value_or_raises|intros k _].
  apply obind_value_or_raises; [now apply item_value_or_raises|intros g Hg].
  apply obind_value_or_raises.
  { apply times_gradient_value_or_raises.
    destruct HT as [HT|HT]; [now left|right].
    rewrite List.Forall_forall in HT. apply HT. exact (item_Finite_in _ _ _ Hg). }
  intros kg _.
  apply obind_value_or_raises; [now apply item_value_or_raises|intros irow _].
  apply obind_value_or_raises; [now apply item_value_or_raises|intros icell _].
  apply obind_value_or_raises; [now apply item_value_or_raises|intros t _].
  right; eauto.
Qed.

Lemma corrected_grad_value_or_raises (allowed : exn -> Prop) km im gradients i v :
  allowed IndexError ->
  allowed TypeError
  \/ Forall (Forall (fun g : option ftensor => g <> None)) gradients ->
  value_or_raises allowed (corrected_grad km im gradients i v).
Proof.
  intros HI HT. unfold corrected_grad.
  apply obind_value_or_raises; [|intros terms _; right; eauto].
  apply omapM_value_or_raises. intros [j gj] Hj.
  apply gradient_term_value_or_raises; [exact HI|].
  destruct HT as [HT|HT]; [now left|right].
  rewrite List.Forall_forall in HT. apply HT.
  apply in_enumerate in Hj. exact (lookup_in _ _ _ Hj).
Qed.

Lemma gradients_present (posterior_model : list particle) :
  Forall (fun r => Forall (fun x => grad x <> None) (flatten r)) posterior_model ->
  Forall (Forall (fun g : option ftensor => g <> None))
         (map (fun p => map grad (flatten p)) posterior_model).
Proof.
  intros H. apply List.Forall_forall. intros gj Hgj.
  apply List.in_map_iff in Hgj as (r & <- & Hr).
  rewrite List.Forall_forall in H. pose proof (H r Hr) as Hall.
  apply List.Forall_forall. intros g Hg.
  apply List.in_map_iff in Hg as (x & <- & Hx).
  rewrite List.Forall_forall in Hall. now apply Hall.
Qed.

(** Particles with different numbers of variables: the call raises, and
    only exceptions of [allowed]. *)
Lemma ragged_particles_raise (allowed : exn -> Prop)
      (posterior_model : list particle) (p q : particle) :
  allowed IndexError ->
  allowed TypeError
  \/ Forall (fun r => Forall (fun x => grad x <> None) (flatten r)) posterior_model ->
  In p posterior_model -> In q posterior_model ->
  (length (flatten q) < length (flatten p))%nat ->
  exists e, allowed e /\ SVGD_correct_gradient posterior_model = Raises e.
Proof.
  intros HI HT Hp Hq Hlen.
  assert (HT' : allowed TypeError
                \/ Forall (Forall (fun g : option ftensor => g <> None))
                          (map (fun r => map grad (flatten r)) posterior_model)).
  { destruct HT as [HT|HT]; [now left|right]. now apply gradients_present. }
  destruct (stored_bandwidth_returns posterior_model) as [bw Hbw].
  unfold SVGD_correct_gradient. rewrite Hbw. cbn [obind].
  rewrite interaction_matrix_value. cbn [obind].
  destruct (in_lookup _ _ Hp) as [i Hi]. destruct (in_lookup _ _ Hq) as [j Hj].
  set (v := length (flatten q)) in *.
  match goal with
  | |- exists e, _ /\ obind (omapM ?G _) _ = _ => set (F := G)
  end.
  assert (HF : forall x, value_or_raises allowed (F x)).
  { intros [i' p']. unfold F.
    apply obind_value_or_raises; [|intros vs _; right; eauto].
    apply omapM_value_or_raises. intros [v' x'] _.
    apply obind_value_or_raises; [|intros g _; right; eauto].
    now apply corrected_grad_value_or_raises. }
  destruct (omapM_raises allowed F (enumerate posterior_model) (i, p)
              (fun x _ => HF x) (in_enumerate_of_lookup _ _ _ Hi))
    as (e & He & Hraise).
  2:{ exists e. split; [exact He|]. now rewrite Hraise. }
  unfold F.
  match goal with
  | |- exists e, _ /\ obind (omapM ?G _) _ = _ => set (H := G)
  end.
  assert (HH : forall x, value_or_raises allowed (H x)).
  { intros [v' x']. unfold H.
    apply obind_value_or_raises; [|intros g _; right; eauto].
    now apply corrected_grad_value_or_raises. }
  destruct (omapM_raises allowed H (enumerate (flatten p)) (v, variable_at p v)
              (fun x _ => HH x))
    as (e & He & Hraise).
  3:{ exists e. split; [exact He|]. now rewrite Hraise. }
  { apply in_enumerate_of_lookup. now apply lookup_nth. }
  unfold H, corrected_grad.
  destruct (omapM_raises allowed
              (gradient_term (float_kernel_matrix bw posterior_model)
                             (interaction_entries bw posterior_model) i v)
              (enumerate (map (fun r => map grad (flatten r)) posterior_model))
              (j, map grad (flatten q)))
    as (e & He & Hraise).
  4:{ exists e. split; [exact He|]. now rewrite Hraise. }
  - intros [j' gj'] Hj'. apply gradient_term_value_or_raises; [exact HI|].
    destruct HT' as [HT'|HT']; [now left|right].
    rewrite List.Forall_forall in HT'. apply HT'.
    apply in_enumerate in Hj'. exact (lookup_in _ _ _ Hj').
  - apply in_enumerate_of_lookup.
    apply (lookup_map (fun r => map grad (flatten r))). exact Hj.
  - exists IndexError. split; [exact HI|].
    unfold gradient_term, float_kernel_matrix.
    rewrite (item_map _ _ _ _ Hi). cbn [obind].
    rewrite (item_map _ _ _ _ Hj). cbn [obind].
    unfold item at 1. rewrite lookup_ge; [reflexivity|].
    rewrite length_map. unfold v. lia.
Qed.

(** X7.  Particles with different numbers of variables: when some particle
    has fewer variables than another one, [correct_gradient] does not
    return, whatever the bandwidth is.  It raises [IndexError] (reading the
    raw gradient of the shorter particle at a variable index of the longer
    one) or, when it meets a gradient that is [None] before, [TypeError];
    it raises [IndexError] when every variable has a gradient. *)
Theorem stein_correction_raises_on_ragged_particles
        (posterior_model : list particle) (p q : particle) :
  In p posterior_model -> In q posterior_model ->
  (length (flatten q) < length (flatten p))%nat ->
  (exists e, IndexError_or_TypeError e /\
             SVGD_correct_gradient posterior_model = Raises e)
  /\
  (Forall (fun r => Forall (fun x => grad x <> None) (flatten r)) posterior_model ->
   SVGD_correct_gradient posterior_model = Raises IndexError).
Proof.
  intros Hp Hq Hlen. split.
  - apply (ragged_particles_raise IndexError_or_TypeError posterior_model p q);
      try assumption; [now left|left; now right].
  - intros Hgrad.
    destruct (ragged_particles_raise (eq IndexError) posterior_model p q)
      as (e & <- & H); try assumption; [reflexivity|now right].
Qed.

Lemma bandwidth_nan_iff (posterior_model : list particle) :
  update_bandwidth posterior_model = NonFinite
  <-> forall p q, In p posterior_model -> In q posterior_model -> ident p = ident q.
Proof.
  unfold update_bandwidth. split.
  - intros H p q Hp Hq.
    destruct (Nat.eq_dec (ident p) (ident q)) as [E|E]; [exact E|exfalso].
    assert (Hin : In (sqrt (pair_deviation p q)) (distances posterior_model)).
    { apply in_distances. exists p, q. now repeat split. }
    unfold np_median in H.
    destruct (distances posterior_model) as [|d ds]; [destruct Hin|].
    cbn [length Nat.eqb] in H.
    destruct (Nat.even (S (length ds))); discriminate.
  - intros Hall.
    assert (E : distances posterior_model = []).
    { destruct (distances posterior_model) as [|d ds] eqn:E; [reflexivity|].
      assert (Hin : In d (distances posterior_model)) by (rewrite E; now left).
      apply in_distances in Hin as (p & q & Hp & Hq & Hpq & _).
      now destruct (Hpq (Hall p q Hp Hq)). }
    rewrite E. reflexivity.
Qed.

Lemma bandwidth_nan_of_one (posterior_model : list particle) :
  (length posterior_model <= 1)%nat -> update_bandwidth posterior_model = NonFinite.
Proof.
  intros Hlen. apply bandwidth_nan_iff. intros p q Hp Hq.
  destruct posterior_model as [|a [|b l]].
  - destruct Hp.
  - destruct Hp as [<-|[]], Hq as [<-|[]]. reflexivity.
  - simpl in Hlen. lia.
Qed.

(** X8.  The bandwidth is nan exactly when no two entries of the particle
    list are distinct objects, in particular with no particle or a single
    one; otherwise it is a number that is not negative. *)
Theorem bandwidth_is_nan_without_two_particles (posterior_model : list particle) :
  (update_bandwidth posterior_model = NonFinite
   <-> forall p q, In p posterior_model -> In q posterior_model -> ident p = ident q)
  /\
  ((length posterior_model <= 1)%nat ->
   update_bandwidth posterior_model = NonFinite)
  /\
  (forall p q,
      In p posterior_model -> In q posterior_model -> ident p <> ident q ->
      exists bw, update_bandwidth posterior_model = Finite bw /\ 0 <= bw).
Proof.
  split; [apply bandwidth_nan_iff|]. split; [apply bandwidth_nan_of_one|].
  intros p q Hp Hq Hpq.
  assert (Hin : In (sqrt (pair_deviation p q)) (distances posterior_model)).
  { apply in_distances. exists p, q. now repeat split. }
  assert (Hne : distances posterior_model <> []).
  { intros E. rewrite E in Hin. destruct Hin. }
  pose proof (distances_two_particles _ Hne) as Hcount.
  unfold update_bandwidth, np_median. cbv zeta.
  destruct (distances posterior_model) as [|d ds]; [now destruct Hne|].
  cbn [length Nat.eqb].
  destruct (Nat.even (S (length ds))); cbn [obind]; eexists; (split; [reflexivity|]);
    (apply Rmult_le_pos; [|left; apply Rinv_0_lt_compat; now apply ln_count_pos]);
    (apply Rmult_le_pos; [lra|apply pow2_ge_0]).
Qed.

Lemma kernel_le_1 (d bw : R) : 0 <= d -> 0 < bw -> kernel d bw <= 1.
Proof.
  intros Hd Hbw. unfold kernel. rewrite <- exp_0.
  assert (Hle : - d / (2 * bw) <= 0).
  { unfold Rdiv. assert (0 < / (2 * bw)) by (apply Rinv_0_lt_compat; lra).
    nra. }
  destruct Hle as [Hlt|Heq].
  - left. now apply exp_increasing.
  - right. now rewrite Heq.
Qed.

(** X10.  For a positive bandwidth the kernel matrix is square, its entries
    lie in (0, 1], it is symmetric and its diagonal is 1. *)
Theorem kernel_matrix_is_a_similarity_matrix
        (bw : R) (posterior_model : list particle) :
  0 < bw ->
  length (kernel_matrix bw posterior_model) = length posterior_model /\
  Forall (fun row => length row = length posterior_model)
         (kernel_matrix bw posterior_model) /\
  forall i j,
    (i < length posterior_model)%nat -> (j < length posterior_model)%nat ->
    0 < nth j (nth i (kernel_matrix bw posterior_model) []) 0 <= 1 /\
    nth j (nth i (kernel_matrix bw posterior_model) []) 0
    = nth i (nth j (kernel_matrix bw posterior_model) []) 0 /\
    nth i (nth i (kernel_matrix bw posterior_model) []) 0 = 1.
Proof.
  intros Hbw. split; [|split].
  - unfold kernel_matrix. apply length_map.
  - unfold kernel_matrix. apply List.Forall_forall. intros row Hrow.
    apply List.in_map_iff in Hrow as (p & <- & _). apply length_map.
  - intros i j Hi Hj. split; [|split].
    + rewrite (kernel_matrix_entry bw posterior_model i j
                 {| ident := 0; flatten := [] |}) by assumption.
      split; [apply kernel_pos|].
      apply kernel_le_1; [apply pair_deviation_nonneg|exact Hbw].
    + now apply kernel_matrix_symmetric.
    + apply kernel_matrix_diagonal; [lra|exact Hi].
Qed.

End SteinMore.

(** * The gradient correction in floats: nan bandwidths and missing gradients *)

Section SteinFloats.
Local Open Scope R_scope.

Lemma fadd_NaN_r (x : float) : fadd x NaN = NaN.
Proof. destruct x; reflexivity. Qed.

Lemma fdiv_NaN_r (x : float) : fdiv x NaN = NaN.
Proof. destruct x; reflexivity. Qed.

Lemma fdiv_NaN_l (y : float) : fdiv NaN y = NaN.
Proof. destruct y; reflexivity. Qed.

Lemma fmul_NaN_r (x : float) : fmul x NaN = NaN.
Proof. destruct x; reflexivity. Qed.

(** With a bandwidth of 0.0 the kernel is [exp(-d/0.0)]: nan for [d = 0]
    and [exp(-inf) = 0.0] for [d > 0]. *)
Lemma float_kernel_bad (d : R) (bw : float) :
  0 <= d -> bw = NaN \/ bw = Num 0 ->
  float_kernel d bw = NaN \/ float_kernel d bw = Num 0.
Proof.
  intros Hd [-> | ->]; unfold float_kernel.
  - left. cbn [fneg fmul]. reflexivity.
  - cbn [fneg fmul]. unfold fdiv.
    destruct (Req_dec_T (2 * 0) 0) as [_|H]; [|exfalso; apply H; ring].
    destruct (Req_dec_T (- d) 0) as [_|_]; [now left|].
    destruct (Rlt_dec 0 (- d)) as [H|_]; [exfalso; lra|]. now right.
Qed.

(** Every entry of the interaction matrix is then nan. *)
Lemma interaction_bad (d : R) (k bw : float) :
  bw = NaN \/ bw = Num 0 -> k = NaN \/ k = Num 0 ->
  fdiv (fmul (Num (- d)) k) bw = NaN.
Proof.
  intros [-> | ->] Hk; [apply fdiv_NaN_r|].
  destruct Hk as [-> | ->]; cbn [fmul]; [reflexivity|].
  unfold fdiv. destruct (Req_dec_T 0 0) as [_|H]; [|now destruct H].
  destruct (Req_dec_T (- d * 0) 0) as [_|H]; [reflexivity|].
  exfalso. apply H. ring.
Qed.

Lemma length_zip_with_same {A B D} (f : A -> B -> D) (x : list A) (y : list B) (n : nat) :
  length x = n -> length y = n -> length (zip_with f x y) = n.
Proof.
  revert x y. induction n as [|n IH]; intros [|a x] [|b y] Hx Hy;
    try discriminate; [reflexivity|].
  cbn [zip_with length]. f_equal. apply IH; [now injection Hx|now injection Hy].
Qed.

Lemma ftadd_NaN (x : ftensor) (n : nat) :
  length x = n -> ftadd x (repeat NaN n) = repeat NaN n.
Proof.
  unfold ftadd. revert x. induction n as [|n IH]; intros [|a x] Hx; try discriminate;
    [reflexivity|].
  cbn [repeat zip_with]. rewrite fadd_NaN_r. f_equal. apply IH. now injection Hx.
Qed.

Lemma map_NaN {A} (f : A -> float) (l : list A) :
  (forall a, f a = NaN) -> map f l = repeat NaN (length l).
Proof.
  intros Hf. induction l as [|a l IH]; [reflexivity|].
  cbn [map length repeat]. now rewrite Hf, IH.
Qed.

Lemma zero_plus_NaN (n : nat) : map (fadd (Num 0)) (repeat NaN n) = repeat NaN n.
Proof. induction n as [|n IH]; [reflexivity|]. cbn [repeat map fadd]. now rewrite IH. Qed.

Lemma py_sum_NaN (ts : list ftensor) (n : nat) :
  ts <> [] -> Forall (fun t => t = repeat NaN n) ts ->
  py_sum_ftensors ts = repeat NaN n.
Proof.
  intros Hne Hall. destruct ts as [|t0 rest]; [now destruct Hne|].
  inversion Hall as [|? ? H0 Hrest]; subst. cbn [py_sum_ftensors].
  rewrite zero_plus_NaN. clear Hall Hne.
  induction Hrest as [|t rest Ht Hrest IH]; [reflexivity|].
  cbn [fold_left]. subst t. rewrite ftadd_NaN by apply repeat_length. exact IH.
Qed.

(** With a bandwidth of 0.0 or nan the gradient written on a variable is
    the tensor of nans of its shape. *)
Lemma float_overwritten_gradient_nan (bw : float) (posterior_model : list particle)
      (p : particle) (v n : nat) :
  bw = NaN \/ bw = Num 0 ->
  In p posterior_model ->
  (forall other, In other posterior_model ->
                 length (value (variable_at other v)) = n /\
                 length (gradient_of (variable_at other v)) = n) ->
  float_overwritten_gradient bw posterior_model p v = repeat NaN n.
Proof.
  intros Hbw Hp Hshape. unfold float_overwritten_gradient.
  apply py_sum_NaN.
  - destruct posterior_model; [destruct Hp|discriminate].
  - apply List.Forall_forall. intros t Ht.
    apply List.in_map_iff in Ht as (other & <- & Hother).
    destruct (Hshape other Hother) as [Hvo Hgo].
    destruct (Hshape p Hp) as [Hvp _].
    rewrite (map_NaN (fun d => fdiv (fmul (Num (- d))
                                          (float_kernel (pair_deviation p other) bw))
                                     bw)).
    2:{ intros d. apply interaction_bad; [exact Hbw|].
        apply float_kernel_bad; [apply pair_deviation_nonneg|exact Hbw]. }
    unfold tsub. rewrite (length_zip_with_same _ _ _ n Hvo Hvp).
    apply ftadd_NaN. unfold ftscale. now rewrite length_map.
Qed.

(** X18.  Nothing stops [correct_gradient] when the new bandwidth is nan
    (fewer than two distinct particles) or 0.0 (a median distance of 0): on
    particles with the same variables, all with a gradient, it returns, it
    keeps the values, and the gradient it writes on every variable is the
    tensor of nans of the shape of the variable. *)
Theorem nan_bandwidth_gives_nan_gradients
        (posterior_model : list particle) (nv : nat) (shape : nat -> nat) :
  update_bandwidth posterior_model = NonFinite
  \/ update_bandwidth posterior_model = Finite 0 ->
  Forall (fun q => length (flatten q) = nv) posterior_model ->
  Forall (fun q => forall v x,
              flatten q !! v = Some x ->
              length (value x) = shape v /\
              exists g, grad x = Some g /\ length g = shape v)
         posterior_model ->
  exists bw,
    stored_bandwidth (update_bandwidth posterior_model) = Finite bw /\
    (bw = NaN \/ bw = Num 0) /\
    SVGD_correct_gradient posterior_model
    = Finite (bw,
              map (fun p =>
                     {| ident := ident p;
                        flatten :=
                          map (fun iv : nat * variable =>
                                 {| value := value (snd iv);
                                    grad := Some (repeat NaN (shape (fst iv))) |})
                              (enumerate (flatten p)) |})
                  posterior_model).
Proof.
  intros Hbad Hcount Hshape.
  assert (Hbw : exists bw,
             stored_bandwidth (update_bandwidth posterior_model) = Finite bw /\
             (bw = NaN \/ bw = Num 0)).
  { destruct Hbad as [-> | ->]; [exists NaN|exists (Num 0)]; split;
      (reflexivity || (now left) || (now right)). }
  destruct Hbw as (bw & Hstored & Hbw).
  exists bw. split; [exact Hstored|]. split; [exact Hbw|].
  rewrite List.Forall_forall in Hshape.
  rewrite (SVGD_correct_gradient_floats posterior_model bw nv Hstored Hcount).
  2:{ apply List.Forall_forall. intros q Hq. apply List.Forall_forall. intros x Hx.
      destruct (in_lookup _ _ Hx) as [v Hv].
      destruct (Hshape q Hq v x Hv) as [_ (g & Hg & _)]. rewrite Hg. discriminate. }
  f_equal. f_equal. apply map_ext_in. intros p Hp. f_equal.
  apply map_ext_in. intros [v x] Hvx. cbn [fst snd]. f_equal. f_equal.
  apply float_overwritten_gradient_nan; [exact Hbw|exact Hp|].
  intros other Hother.
  rewrite List.Forall_forall in Hcount.
  assert (Hv : (v < length (flatten other))%nat).
  { rewrite (Hcount other Hother), <- (Hcount p Hp).
    apply in_enumerate in Hvx. exact (lookup_lt _ _ _ Hvx). }
  destruct (Hshape other Hother v (variable_at other v)) as [Hval (g & Hg & Hlen)].
  { now apply lookup_nth. }
  split; [exact Hval|]. unfold gradient_of. now rewrite Hg.
Qed.

(** On particles with [nv] variables each the indices of line 366 are in
    range: the right-hand side is a tensor unless a gradient is [None], and
    it raises [TypeError] when the gradient of variable [v] of some particle
    is. *)
Lemma corrected_grad_TypeError (bw : float) (posterior_model : list particle)
      (i v : nat) (p : particle) (nv : nat) :
  Forall (fun q => length (flatten q) = nv) posterior_model ->
  posterior_model !! i = Some p ->
  (v < nv)%nat ->
  value_or_raises (eq TypeError)
    (corrected_grad (float_kernel_matrix bw posterior_model)
                    (interaction_entries bw posterior_model)
                    (map (fun q => map grad (flatten q)) posterior_model) i v)
  /\
  (forall q, In q posterior_model -> grad (variable_at q v) = None ->
             corrected_grad (float_kernel_matrix bw posterior_model)
                            (interaction_entries bw posterior_model)
                            (map (fun q => map grad (flatten q)) posterior_model) i v
             = Raises TypeError).
Proof.
  intros Hcount Hp Hv. rewrite List.Forall_forall in Hcount.
  assert (Hvp : (v < length (flatten p))%nat).
  { rewrite (Hcount p) by exact (lookup_in _ _ _ Hp). exact Hv. }
  assert (Hterm : forall x,
             In x (enumerate (map (fun q => map grad (flatten q)) posterior_model)) ->
             value_or_raises (eq TypeError)
               (gradient_term (float_kernel_matrix bw posterior_model)
                              (interaction_entries bw posterior_model) i v x)).
  { intros [j gj] Hj. apply in_enumerate in Hj.
    apply lookup_map_inv in Hj as (q & Hq & ->).
    rewrite (gradient_term_value bw posterior_model i j v p q Hp Hq Hvp).
    2:{ rewrite (Hcount q) by exact (lookup_in _ _ _ Hq). exact Hv. }
    destruct (grad (variable_at q v)); [right; eauto|left; eauto]. }
  unfold corrected_grad. split.
  - apply obind_value_or_raises; [|intros terms _; right; eauto].
    now apply omapM_value_or_raises.
  - intros q Hq Hnone. destruct (in_lookup _ _ Hq) as [j Hj].
    destruct (omapM_raises (eq TypeError)
                (gradient_term (float_kernel_matrix bw posterior_model)
                               (interaction_entries bw posterior_model) i v)
                (enumerate (map (fun q => map grad (flatten q)) posterior_model))
                (j, map grad (flatten q)) Hterm)
      as (e & <- & Hraise).
    + apply in_enumerate_of_lookup.
      apply (lookup_map (fun r => map grad (flatten r))). exact Hj.
    + exists TypeError. split; [reflexivity|].
      rewrite (gradient_term_value bw posterior_model i j v p q Hp Hj Hvp).
      2:{ rewrite (Hcount q) by exact Hq. exact Hv. }
      now rewrite Hnone.
    + now rewrite Hraise.
Qed.

(** X19.  A variable without gradient: on particles with the same number
    of variables, as soon as the gradient of one variable of one particle
    is [None], [correct_gradient] raises [TypeError], whatever the
    bandwidth is. *)
Theorem missing_gradient_raises_TypeError
        (posterior_model : list particle) (nv : nat) (q : particle) (x : variable) :
  Forall (fun r => length (flatten r) = nv) posterior_model ->
  In q posterior_model -> In x (flatten q) -> grad x = None ->
  SVGD_correct_gradient posterior_model = Raises TypeError.
Proof.
  intros Hcount Hq Hx Hnone.
  destruct (in_lookup _ _ Hx) as [v Hv].
  assert (Hvq : (v < length (flatten q))%nat) by exact (lookup_lt _ _ _ Hv).
  assert (Hxv : variable_at q v = x).
  { pose proof (lookup_nth (flatten q) v {| value := []; grad := None |} Hvq) as H.
    rewrite Hv in H. now injection H as ->. }
  assert (Hvn : (v < nv)%nat).
  { rewrite List.Forall_forall in Hcount. now rewrite <- (Hcount q Hq). }
  destruct posterior_model as [|p0 rest]; [destruct Hq|].
  set (posterior_model := p0 :: rest) in *.
  assert (Hp0 : posterior_model !! 0%nat = Some p0) by reflexivity.
  destruct (stored_bandwidth_returns posterior_model) as [bw Hbw].
  unfold SVGD_correct_gradient. rewrite Hbw. cbn [obind].
  rewrite interaction_matrix_value. cbn [obind].
  assert (Hp0v : (v < length (flatten p0))%nat).
  { rewrite List.Forall_forall in Hcount.
    rewrite (Hcount p0) by exact (lookup_in _ _ _ Hp0). exact Hvn. }
  set (G := fun iv : nat * variable =>
              let (variable_index, variable) := iv in
              g <~ corrected_grad (float_kernel_matrix bw posterior_model)
                     (interaction_entries bw posterior_model)
                     (map (fun p => map grad (flatten p)) posterior_model)
                     0 variable_index ;;
              Finite {| value := value variable; grad := Some g |}).
  assert (HG : exists e, TypeError = e /\
                         omapM G (enumerate (flatten p0)) = Raises e).
  { apply (omapM_raises (eq TypeError) G _ (v, variable_at p0 v)).
    - intros [v' x'] Hv'. apply in_enumerate in Hv'. unfold G.
      apply obind_value_or_raises; [|intros g _; right; eauto].
      apply (corrected_grad_TypeError bw posterior_model 0 v' p0 nv Hcount Hp0).
      rewrite List.Forall_forall in Hcount.
      rewrite <- (Hcount p0) by exact (lookup_in _ _ _ Hp0).
      exact (lookup_lt _ _ _ Hv').
    - apply in_enumerate_of_lookup. now apply lookup_nth.
    - exists TypeError. split; [reflexivity|]. unfold G.
      rewrite (proj2 (corrected_grad_TypeError bw posterior_model 0 v p0 nv
                        Hcount Hp0 Hvn) q Hq); [reflexivity|].
      now rewrite Hxv. }
  destruct HG as (e & <- & HG).
  change (enumerate posterior_model)
    with ((0%nat, p0) :: combine (seq 1 (length rest)) rest).
  cbn [omapM]. cbv beta iota.
  match goal with
  | |- context [omapM ?g (enumerate (flatten p0))] => change g with G
  end.
  rewrite HG. reflexivity.
Qed.

End SteinFloats.

Section SteinWitnesses.
Local Open Scope R_scope.

(** X5.  On particles with the same number of variables, all with a
    gradient made of numbers, once the new bandwidth is a number other than
    0, [correct_gradient] stores that bandwidth, keeps every value and
    replaces the gradient of variable [v] of each particle by the sum, over
    all the particles [other], of the kernel times the raw gradient of
    [other] plus [-(value_other - value_particle)] times the kernel over
    the bandwidth. *)
Theorem stein_gradient_closed_form (posterior_model : list particle) (bw : R) (nv : nat) :
  update_bandwidth posterior_model = Finite bw ->
  bw <> 0 ->
  Forall (fun q => length (flatten q) = nv) posterior_model ->
  Forall (fun q => Forall has_gradient (flatten q)) posterior_model ->
  SVGD_correct_gradient posterior_model
  = Finite (Num bw,
            map (fun p =>
                   {| ident := ident p;
                      flatten :=
                        map (fun iv : nat * variable =>
                               {| value := value (snd iv);
                                  grad := Some (map Num (overwritten_gradient
                                                           bw posterior_model p (fst iv))) |})
                            (enumerate (flatten p)) |})
                posterior_model).
Proof. apply SVGD_correct_gradient_value. Qed.

Lemma stein_gradient_closed_form_witness :
  SVGD_correct_gradient two_particles
  = Finite (Num (2 / ln 2),
            map (fun p =>
                   {| ident := ident p;
                      flatten :=
                        map (fun iv : nat * variable =>
                               {| value := value (snd iv);
                                  grad := Some (map Num (overwritten_gradient
                                                           (2 / ln 2) two_particles
                                                           p (fst iv))) |})
                            (enumerate (flatten p)) |})
                two_particles).
Proof.
  exact (stein_gradient_closed_form two_particles (2 / ln 2) 1
           bandwidth_two bandwidth_two_nonzero two_particles_shape
           two_particles_gradients).
Defined.

Lemma two_particles_corrected :
  SVGD_correct_gradient two_particles
  = Finite (Num (2 / ln 2),
            map (fun p =>
                   {| ident := ident p;
                      flatten :=
                        map (fun iv : nat * variable =>
                               {| value := value (snd iv);
                                  grad := Some (map Num (overwritten_gradient
                                                           (2 / ln 2) two_particles
                                                           p (fst iv))) |})
                            (enumerate (flatten p)) |})
                two_particles).
Proof.
  exact (SVGD_correct_gradient_value two_particles (2 / ln 2) 1
           bandwidth_two bandwidth_two_nonzero two_particles_shape
           two_particles_gradients).
Qed.

Lemma stein_correction_only_writes_gradients_witness :
  stored_bandwidth (update_bandwidth two_particles) = Finite (Num (2 / ln 2)) /\
  map ident
      (map (fun p =>
              {| ident := ident p;
                 flatten :=
                   map (fun iv : nat * variable =>
                          {| value := value (snd iv);
                             grad := Some (map Num (overwritten_gradient
                                                      (2 / ln 2) two_particles
                                                      p (fst iv))) |})
                       (enumerate (flatten p)) |})
           two_particles)
  = map ident two_particles /\
  map (fun p => map value (flatten p))
      (map (fun p =>
              {| ident := ident p;
                 flatten :=
                   map (fun iv : nat * variable =>
                          {| value := value (snd iv);
                             grad := Some (map Num (overwritten_gradient
                                                      (2 / ln 2) two_particles
                                                      p (fst iv))) |})
                       (enumerate (flatten p)) |})
           two_particles)
  = map (fun p => map value (flatten p)) two_particles /\
  Forall (fun p => Forall (fun x => grad x <> None) (flatten p))
         (map (fun p =>
                 {| ident := ident p;
                    flatten :=
                      map (fun iv : nat * variable =>
                             {| value := value (snd iv);
                                grad := Some (map Num (overwritten_gradient
                                                         (2 / ln 2) two_particles
                                                         p (fst iv))) |})
                          (enumerate (flatten p)) |})
              two_particles).
Proof.
  exact (stein_correction_only_writes_gradients two_particles _ (Num (2 / ln 2))
           two_particles_corrected).
Defined.

Lemma stein_correction_raises_on_ragged_particles_witness :
  (exists e, IndexError_or_TypeError e /\
             SVGD_correct_gradient ragged_particles = Raises e)
  /\
  (Forall (fun r => Forall (fun x => grad x <> None) (flatten r)) ragged_particles ->
   SVGD_correct_gradient ragged_particles = Raises IndexError).
Proof.
  apply (stein_correction_raises_on_ragged_particles
           ragged_particles
           {| ident := 1;
              flatten := [{| value := [1]; grad := Some [Num 0] |};
                          {| value := [5]; grad := Some [Num 0] |}] |}
           (point 0 0 0)).
  - right. left. reflexivity.
  - left. reflexivity.
  - simpl. lia.
Defined.

(** The two particles of [ragged_particles] have their gradients: the
    exception is [IndexError]. *)
Example ragged_particles_IndexError :
  SVGD_correct_gradient ragged_particles = Raises IndexError.
Proof.
  destruct (ragged_particles_raise (eq IndexError) ragged_particles
              {| ident := 1;
                 flatten := [{| value := [1]; grad := Some [Num 0] |};
                             {| value := [5]; grad := Some [Num 0] |}] |}
              (point 0 0 0)) as (e & <- & H); [reflexivity| | | | |exact H].
  - right. repeat constructor; discriminate.
  - right. left. reflexivity.
  - left. reflexivity.
  - simpl. lia.
Qed.

Lemma bandwidth_is_nan_without_two_particles_witness :
  update_bandwidth [point 0 0 0] = NonFinite /\
  exists bw, update_bandwidth two_particles = Finite bw /\ 0 <= bw.
Proof.
  split.
  - apply (proj1 (proj2 (bandwidth_is_nan_without_two_particles [point 0 0 0]))).
    simpl. lia.
  - apply (proj2 (proj2 (bandwidth_is_nan_without_two_particles two_particles))
             (point 0 0 0) (point 1 1 0)).
    + left. reflexivity.
    + right. left. reflexivity.
    + simpl. lia.
Defined.

Lemma two_particles_apart (p q : particle) :
  In p two_particles -> In q two_particles -> ident p <> ident q ->
  0 < pair_deviation p q.
Proof.
  intros [<-|[<-|[]]] [<-|[<-|[]]] Hid; try (now destruct Hid);
    rewrite point_deviation.
  - replace ((0 - 1) ^ 2) with 1 by ring. lra.
  - replace ((1 - 0) ^ 2) with 1 by ring. lra.
Qed.

Lemma bandwidth_positive_when_apart_witness :
  exists bw, update_bandwidth two_particles = Finite bw /\ 0 < bw.
Proof.
  apply (bandwidth_positive_when_apart two_particles (point 0 0 0) (point 1 1 0)).
  - left. reflexivity.
  - right. left. reflexivity.
  - simpl. lia.
  - exact two_particles_apart.
Defined.

Lemma kernel_matrix_is_a_similarity_matrix_witness :
  length (kernel_matrix 1 two_particles) = length two_particles /\
  Forall (fun row => length row = length two_particles)
         (kernel_matrix 1 two_particles) /\
  forall i j,
    (i < length two_particles)%nat -> (j < length two_particles)%nat ->
    0 < nth j (nth i (kernel_matrix 1 two_particles) []) 0 <= 1 /\
    nth j (nth i (kernel_matrix 1 two_particles) []) 0
    = nth i (nth j (kernel_matrix 1 two_particles) []) 0 /\
    nth i (nth i (kernel_matrix 1 two_particles) []) 0 = 1.
Proof.
  apply (kernel_matrix_is_a_similarity_matrix 1 two_particles). lra.
Defined.

Lemma bandwidth_coincident : update_bandwidth coincident_particles = Finite 0.
Proof.
  unfold update_bandwidth. rewrite distances_coincident. unfold np_median.
  rewrite (sort_constant 0) by (repeat constructor).
  cbn [repeat length Nat.eqb Nat.even]. change (6 / 2)%nat with 3%nat.
  cbn [Nat.sub nth obind]. f_equal. unfold Rdiv. ring.
Qed.

Lemma coincident_particles_shapes :
  Forall (fun q => forall v x,
              flatten q !! v = Some x ->
              length (value x) = 1%nat /\
              exists g, grad x = Some g /\ length g = 1%nat)
         coincident_particles.
Proof.
  unfold coincident_particles.
  constructor; [|constructor; [|constructor; [|constructor]]];
    intros [|v] x H; simpl in H; try discriminate;
    injection H as <-; (split; [reflexivity|eexists; split; reflexivity]).
Qed.

Lemma nan_bandwidth_gives_nan_gradients_witness :
  exists bw,
    stored_bandwidth (update_bandwidth coincident_particles) = Finite bw /\
    (bw = NaN \/ bw = Num 0) /\
    SVGD_correct_gradient coincident_particles
    = Finite (bw,
              map (fun p =>
                     {| ident := ident p;
                        flatten :=
                          map (fun iv : nat * variable =>
                                 {| value := value (snd iv);
                                    grad := Some (repeat NaN 1) |})
                              (enumerate (flatten p)) |})
                  coincident_particles).
Proof.
  apply (nan_bandwidth_gives_nan_gradients coincident_particles 1 (fun _ => 1%nat)).
  - right. exact bandwidth_coincident.
  - repeat constructor.
  - exact coincident_particles_shapes.
Defined.

(** Three particles at the same place: the bandwidth is 0.0, the call
    returns, and every gradient is nan. *)
Example coincident_particles_corrected :
  SVGD_correct_gradient coincident_particles
  = Finite (Num 0,
            [{| ident := 0; flatten := [{| value := [0]; grad := Some [NaN] |}] |};
             {| ident := 1; flatten := [{| value := [0]; grad := Some [NaN] |}] |};
             {| ident := 2; flatten := [{| value := [0]; grad := Some [NaN] |}] |}]).
Proof.
  rewrite (SVGD_correct_gradient_floats coincident_particles (Num 0) 1).
  - f_equal. f_equal. unfold coincident_particles.
    cbn [map enumerate combine seq length flatten point value ident fst snd].
    fold (point 0 0 0) (point 1 0 0) (point 2 0 0).
    fold coincident_particles.
    rewrite !(float_overwritten_gradient_nan (Num 0) coincident_particles _ 0 1);
      try (now right); try reflexivity;
      try (unfold coincident_particles; simpl; tauto);
      intros other [<-|[<-|[<-|[]]]]; split; reflexivity.
  - now rewrite bandwidth_coincident.
  - repeat constructor.
  - repeat constructor; discriminate.
Qed.

Lemma missing_gradient_raises_TypeError_witness :
  SVGD_correct_gradient no_gradient_particles = Raises TypeError.
Proof.
  apply (missing_gradient_raises_TypeError
           no_gradient_particles 1
           {| ident := 1; flatten := [{| value := [1]; grad := None |}] |}
           {| value := [1]; grad := None |}).
  - repeat constructor.
  - right. left. reflexivity.
  - left. reflexivity.
  - reflexivity.
Defined.

End SteinWitnesses.

(** * The truncation rules and the samplers of the Wasserstein method *)

Section Truncation.
Local Open Scope R_scope.

Lemma nth_app_last (pre : list R) (x : R) : nth (length pre) (pre ++ [x]) 0 = x.
Proof. rewrite app_nth2 by lia. now rewrite Nat.sub_diag. Qed.

(** The invariant of the scan: [best] is the first smallest entry of the
    part already seen. *)
Lemma argmin_from_spec (a : list R) :
  forall (pre : list R) (best_index : nat) (best : R),
    (best_index < length pre)%nat ->
    nth best_index pre 0 = best ->
    (forall j, (j < length pre)%nat -> best <= nth j pre 0) ->
    (forall j, (j < best_index)%nat -> best < nth j pre 0) ->
    let m := argmin_from best_index best (length pre) a in
    (m < length (pre ++ a))%nat /\
    (forall j, (j < length (pre ++ a))%nat -> nth m (pre ++ a) 0 <= nth j (pre ++ a) 0) /\
    (forall j, (j < m)%nat -> nth m (pre ++ a) 0 < nth j (pre ++ a) 0).
Proof.
  induction a as [|x a IH]; intros pre bi b Hbi Hb Hle Hlt; cbn [argmin_from].
  - rewrite app_nil_r. rewrite Hb. repeat split; assumption.
  - replace (pre ++ x :: a) with ((pre ++ [x]) ++ a) by now rewrite <- app_assoc.
    replace (S (length pre)) with (length (pre ++ [x]))
      by (rewrite length_app; simpl; lia).
    destruct (Rlt_dec x b) as [Hx|Hx].
    + replace (length pre) with (length (pre ++ [x]) - 1)%nat at 1
        by (rewrite length_app; simpl; lia).
      replace (length (pre ++ [x]) - 1)%nat with (length pre)
        by (rewrite length_app; simpl; lia).
      apply IH.
      * rewrite length_app. simpl. lia.
      * apply nth_app_last.
      * intros j Hj. rewrite length_app in Hj. simpl in Hj.
        destruct (Nat.eq_dec j (length pre)) as [->|Hne].
        -- rewrite nth_app_last. lra.
        -- rewrite app_nth1 by lia. specialize (Hle j ltac:(lia)). lra.
      * intros j Hj. rewrite app_nth1 by lia. specialize (Hle j Hj). lra.
    + apply IH.
      * rewrite length_app. simpl. lia.
      * rewrite app_nth1 by lia. exact Hb.
      * intros j Hj. rewrite length_app in Hj. simpl in Hj.
        destruct (Nat.eq_dec j (length pre)) as [->|Hne].
        -- rewrite nth_app_last. lra.
        -- rewrite app_nth1 by lia. apply Hle. lia.
      * intros j Hj. rewrite app_nth1 by lia. now apply Hlt.
Qed.

Lemma filter_eqb_seq (m start len : nat) :
  List.filter (fun idx => Nat.eqb idx m) (seq start len)
  = if (start <=? m)%nat && (m <? start + len)%nat then [m] else [].
Proof.
  revert start. induction len as [|len IH]; intros start; cbn [seq List.filter].
  - destruct (start <=? m)%nat eqn:E1, (m <? start + 0)%nat eqn:E2; try reflexivity.
    apply Nat.leb_le in E1. apply Nat.ltb_lt in E2. lia.
  - rewrite IH. destruct (Nat.eqb start m) eqn:E.
    + apply Nat.eqb_eq in E. subst start.
      replace (S m <=? m)%nat with false by (symmetry; apply Nat.leb_gt; lia).
      replace (m <=? m)%nat with true by (symmetry; apply Nat.leb_le; lia).
      replace (m <? m + S len)%nat with true by (symmetry; apply Nat.ltb_lt; lia).
      reflexivity.
    + apply Nat.eqb_neq in E.
      destruct (S start <=? m)%nat eqn:E1, (m <? S start + len)%nat eqn:E2;
        destruct (start <=? m)%nat eqn:E3, (m <? start + S len)%nat eqn:E4;
        try reflexivity;
        repeat match goal with
               | H : (_ <=? _)%nat = true |- _ => apply Nat.leb_le in H
               | H : (_ <=? _)%nat = false |- _ => apply Nat.leb_gt in H
               | H : (_ <? _)%nat = true |- _ => apply Nat.ltb_lt in H
               | H : (_ <? _)%nat = false |- _ => apply Nat.ltb_ge in H
               end; lia.
Qed.

(** X11.  For a non-empty row of statistics, one entry per particle at
    most, exactly one of the truncation rules accepts: the rule of the
    first particle whose statistic is smallest. *)
Theorem one_truncation_rule_accepts (x : R) (a : list R) :
  exists m,
    np_argmin (x :: a) = Ok m /\
    (m < length (x :: a))%nat /\
    (forall j, (j < length (x :: a))%nat -> nth m (x :: a) 0 <= nth j (x :: a) 0) /\
    (forall j, (j < m)%nat -> nth m (x :: a) 0 < nth j (x :: a) 0) /\
    (forall idx, truncation_rule idx (x :: a) = Ok (Nat.eqb idx m)) /\
    (forall (Particle : Type) (particles : list Particle),
        (length (x :: a) <= length particles)%nat ->
        List.filter (fun idx => match truncation_rule idx (x :: a) with
                                | Ok accepted => accepted
                                | Err _ => false
                                end)
                    (seq 0 (length particles))
        = [m]).
Proof.
  assert (H1 : (0 < length [x])%nat) by (simpl; lia).
  assert (H2 : forall j, (j < length [x])%nat -> x <= nth j [x] 0).
  { intros j Hj. simpl in Hj. replace j with 0%nat by lia. simpl. lra. }
  assert (H3 : forall j, (j < 0)%nat -> x < nth j [x] 0) by (intros j Hj; lia).
  pose proof (argmin_from_spec a [x] 0%nat x H1 eq_refl H2 H3) as Hspec.
  cbv zeta in Hspec. destruct Hspec as (Hm & Hle & Hlt).
  change (length [x]) with 1%nat in *. change ([x] ++ a) with (x :: a) in *.
  exists (argmin_from 0 x 1 a).
  split; [reflexivity|]. split; [exact Hm|]. split; [exact Hle|].
  split; [exact Hlt|]. split; [reflexivity|].
  intros Particle particles Hlen.
  unfold truncation_rule, np_argmin. rewrite filter_eqb_seq.
  replace (0 <=? argmin_from 0 x 1 a)%nat with true
    by (symmetry; apply Nat.leb_le; lia).
  replace (argmin_from 0 x 1 a <? 0 + length particles)%nat with true
    by (symmetry; apply Nat.ltb_lt; lia).
  reflexivity.
Qed.

End Truncation.

Section SamplerList.
Context {Sampler Particle Statistics Truncated : Type}.
Variable truncate_model : Sampler -> (list R -> result bool) -> Statistics -> Truncated.

Lemma lookup_combine_seq_map {A B} (f : nat -> B) (l : list A) (start len i : nat) (x : A) :
  l !! i = Some x -> (i < len)%nat ->
  combine l (map f (seq start len)) !! i = Some (x, f (start + i)%nat).
Proof.
  revert start len i. induction l as [|y l IH]; intros start [|len] [|i] H Hi;
    try discriminate; try lia.
  - injection H as ->. cbn. now rewrite Nat.add_0_r.
  - cbn [seq map combine].
    replace (start + S i)%nat with (S start + i)%nat by lia.
    apply (IH (S start) len i H). lia.
Qed.

(** X12.  The constructor pairs the variational samplers with the
    particles in order: there are as many truncated samplers as the shorter
    of the two lists, and sampler [i] is variational sampler [i] truncated
    by the rule of particle [i]. *)
Theorem sampler_list_follows_the_particles
        (variational_samplers : list Sampler) (particles : list Particle)
        (model_statistics : Statistics) :
  length (WVGD_sampler_model truncate_model variational_samplers particles
                             model_statistics)
  = Nat.min (length variational_samplers) (length particles) /\
  forall i sampler,
    variational_samplers !! i = Some sampler ->
    (i < length particles)%nat ->
    WVGD_sampler_model truncate_model variational_samplers particles model_statistics
      !! i
    = Some (truncate_model sampler (truncation_rule i) model_statistics).
Proof.
  unfold WVGD_sampler_model, truncation_rules. split.
  - now rewrite length_map, length_combine, length_map, length_seq.
  - intros i sampler Hs Hi.
    apply (lookup_map
             (fun sr : Sampler * (list R -> result bool) =>
                truncate_model (fst sr) (snd sr) model_statistics)
             _ i (sampler, truncation_rule i)).
    exact (lookup_combine_seq_map truncation_rule variational_samplers 0
             (length particles) i sampler Hs Hi).
Qed.

End SamplerList.

Section SamplerListWitness.

Lemma sampler_list_follows_the_particles_witness :
  WVGD_sampler_model (Sampler := nat) (Particle := nat) (Statistics := unit)
                     (fun sampler rule _ => (sampler, rule)) [10; 11; 12]%nat
                     [0; 1]%nat tt !! 1%nat
  = Some (11%nat, truncation_rule 1).
Proof.
  apply (proj2 (sampler_list_follows_the_particles
                  (Sampler := nat) (Particle := nat) (Statistics := unit)
                  (fun sampler rule _ => (sampler, rule)) [10; 11; 12]%nat
                  [0; 1]%nat tt) 1%nat 11%nat).
  - reflexivity.
  - simpl. lia.
Defined.

End SamplerListWitness.

Section TruncationWitness.
Local Open Scope R_scope.

Lemma one_truncation_rule_accepts_witness :
  exists m,
    np_argmin [3; 1; 2] = Ok m /\
    List.filter (fun idx => match truncation_rule idx [3; 1; 2] with
                            | Ok accepted => accepted
                            | Err _ => false
                            end)
                (seq 0 (length [0; 1; 2]%nat))
    = [m].
Proof.
  destruct (one_truncation_rule_accepts 3 [1; 2]) as (m & Hm & _ & _ & _ & _ & Hf).
  exists m. split; [exact Hm|]. apply (Hf nat [0; 1; 2]%nat). simpl. lia.
Defined.

End TruncationWitness.

(** * More on the particle loss *)

Section ParticleLossMore.
Local Open Scope R_scope.
Context {Sampler Particle Sample Var Value : Type}.
Variable sampler_get_sample : Sampler -> nat -> Sample.
Variable particle_get_sample : Particle -> Sample.
Variable get_importance_weights : Sample -> Sampler -> tensor.
Variable reassign_samples : Sample -> Sampler -> Particle -> Sample.
Variable zip_dict : Sample -> Sample -> list (Var * (Value * Value)).
Variable cost_function : Value -> Value -> tensor.
Variable deviation_statistics : list tensor -> tensor.

Lemma rmapM_always_raises {A B} (e : exn) (x : A) (l : list A) :
  rmapM (fun _ : A => @Err B e) (x :: l) = Err e.
Proof. reflexivity. Qed.

(** X13.  The edges of the particle loss.  With no sampler the loss is 0
    whatever the particles, [biased] and [number_samples] are: nothing is
    sampled and nothing divided.  With a sampler, [biased] set and
    [number_samples] 0, once the samplers have returned their (empty)
    samples the call raises the [ZeroDivisionError] of
    [1./number_samples], although the weights it was computing are never
    used. *)
Theorem particle_loss_without_samplers_or_samples
        (biased : bool) (particle_list : list Particle) (sampler_model : list Sampler)
        (number_samples : nat) :
  (sampler_model = [] ->
   get_particle_loss sampler_get_sample particle_get_sample get_importance_weights
                     reassign_samples zip_dict cost_function deviation_statistics
                     biased particle_list sampler_model number_samples
   = Ok 0)
  /\
  (biased = true -> number_samples = 0%nat -> sampler_model <> [] ->
   get_particle_loss sampler_get_sample particle_get_sample get_importance_weights
                     reassign_samples zip_dict cost_function deviation_statistics
                     biased particle_list sampler_model number_samples
   = Err ZeroDivisionError).
Proof.
  split.
  - intros ->. unfold get_particle_loss. destruct biased, particle_list; reflexivity.
  - intros -> -> Hne. unfold get_particle_loss.
    destruct sampler_model as [|s sm]; [now destruct Hne|].
    cbn [Nat.eqb]. now rewrite rmapM_always_raises.
Qed.

Lemma zip3_surplus {A B D} (la : list A) (lb : list B) (ld extra : list D) :
  (length lb <= length ld)%nat -> zip3 la lb (ld ++ extra) = zip3 la lb ld.
Proof.
  revert lb ld. induction la as [|a la IH]; intros [|b lb] [|d ld] H;
    simpl in H; try lia; try reflexivity.
  cbn [app zip3]. rewrite IH by lia. reflexivity.
Qed.

Lemma combine_surplus {A B} (la extra : list A) (lb : list B) :
  (length lb <= length la)%nat -> combine (la ++ extra) lb = combine la lb.
Proof.
  revert lb. induction la as [|a la IH]; intros [|b lb] H; simpl in H; try lia.
  - cbn [app]. destruct extra; reflexivity.
  - reflexivity.
  - cbn [app combine]. rewrite IH by lia. reflexivity.
Qed.

(** X14.  Particles beyond the number of samplers are ignored: they change
    neither the value of the particle loss nor whether it raises. *)
Theorem particle_loss_ignores_surplus_particles
        (biased : bool) (particle_list surplus : list Particle)
        (sampler_model : list Sampler) (number_samples : nat) :
  (length sampler_model <= length particle_list)%nat ->
  get_particle_loss sampler_get_sample particle_get_sample get_importance_weights
                    reassign_samples zip_dict cost_function deviation_statistics
                    biased (particle_list ++ surplus) sampler_model number_samples
  = get_particle_loss sampler_get_sample particle_get_sample get_importance_weights
                      reassign_samples zip_dict cost_function deviation_statistics
                      biased particle_list sampler_model number_samples.
Proof.
  intros Hlen. unfold get_particle_loss.
  rewrite zip3_surplus by exact Hlen.
  rewrite combine_surplus; [reflexivity|].
  rewrite length_map. etransitivity; [apply length_zip3|exact Hlen].
Qed.

End ParticleLossMore.

Section ParticleLossMoreWitness.
Local Open Scope R_scope.

Lemma particle_loss_ignores_surplus_particles_witness :
  get_particle_loss (Sampler := unit) (Particle := unit) (Sample := unit)
                    (Var := unit) (Value := unit)
                    (fun _ _ => tt) (fun _ => tt) (fun _ _ => [1 / 2; 1 / 2])
                    (fun _ _ _ => tt) (fun _ _ => [(tt, (tt, tt))])
                    (fun _ _ => [1; 1]) py_sum_tensors
                    true ([tt] ++ [tt; tt]) [tt] 2
  = toy_particle_loss true.
Proof.
  apply (particle_loss_ignores_surplus_particles
           (Sampler := unit) (Particle := unit) (Sample := unit)
           (Var := unit) (Value := unit)
           (fun _ _ => tt) (fun _ => tt) (fun _ _ => [1 / 2; 1 / 2])
           (fun _ _ _ => tt) (fun _ _ => [(tt, (tt, tt))])
           (fun _ _ => [1; 1]) py_sum_tensors true [tt] [tt; tt] [tt] 2).
  simpl. lia.
Defined.

End ParticleLossMoreWitness.

(** * More on the ensemble weights *)

Section EnsembleWeightsMore.
Local Open Scope R_scope.

Lemma Rmax_shift (c x y : R) : Rmax (c + x) (c + y) = c + Rmax x y.
Proof.
  unfold Rmax. destruct (Rle_dec (c + x) (c + y)), (Rle_dec x y);
    try reflexivity; exfalso; lra.
Qed.

Lemma fold_left_Rmax_shift (c : R) (l : list R) (a : R) :
  fold_left Rmax (map (Rplus c) l) (c + a) = c + fold_left Rmax l a.
Proof.
  revert a. induction l as [|x l IH]; intros a; cbn [map fold_left]; [reflexivity|].
  rewrite Rmax_shift. apply IH.
Qed.

(** X15.  The ensemble weights depend on the differences of the
    log-normalizers only: adding a constant to all of them changes nothing. *)
Theorem ensemble_weights_shift_invariant (c : R) (log_weights : list R) :
  ensemble_weights (map (Rplus c) log_weights) = ensemble_weights log_weights.
Proof.
  unfold ensemble_weights. destruct log_weights as [|a l]; [reflexivity|].
  change (tensor_max (map (Rplus c) (a :: l)))
    with (Ok (fold_left Rmax (map (Rplus c) l) (c + a))).
  change (tensor_max (a :: l)) with (Ok (fold_left Rmax l a)).
  rewrite fold_left_Rmax_shift. cbv zeta.
  set (alpha := fold_left Rmax l a).
  assert (E : map (fun x => exp (x - (c + alpha))) (map (Rplus c) (a :: l))
              = map (fun x => exp (x - alpha)) (a :: l)).
  { rewrite map_map. apply map_ext. intros x. f_equal. ring. }
  rewrite E. reflexivity.
Qed.

Lemma nth_map_lt {A} (f : A -> R) (l : list A) (i : nat) (d : A) :
  (i < length l)%nat -> nth i (map f l) 0 = f (nth i l d).
Proof.
  revert i. induction l as [|x l IH]; intros [|i] H; simpl in H; try lia.
  - reflexivity.
  - cbn [map nth]. apply IH. lia.
Qed.

(** X16.  The weights keep the order of the log-normalizers: a sampler with
    a larger log-normalizer never gets a smaller weight. *)
Theorem ensemble_weights_keep_the_order (l0 : R) (ls : list R) :
  exists weights,
    ensemble_weights (l0 :: ls) = Ok weights /\
    forall i j,
      (i < length (l0 :: ls))%nat -> (j < length (l0 :: ls))%nat ->
      nth i (l0 :: ls) 0 <= nth j (l0 :: ls) 0 ->
      nth i weights 0 <= nth j weights 0.
Proof.
  unfold ensemble_weights. cbn [tensor_max].
  set (alpha := fold_left Rmax ls l0).
  set (un := map (fun l => exp (l - alpha)) (l0 :: ls)).
  eexists. split; [reflexivity|].
  intros i j Hi Hj Hle.
  assert (Hpos : 0 < np_sum un).
  { unfold un. apply (np_sum_map_pos (fun l => exp (l - alpha))).
    intros; apply exp_pos. }
  assert (Hlen : length un = length (l0 :: ls)) by (unfold un; now rewrite length_map).
  rewrite !(nth_map_lt (fun u => u / np_sum un) un _ 0) by (rewrite Hlen; assumption).
  unfold un.
  rewrite !(nth_map_lt (fun l => exp (l - alpha)) (l0 :: ls) _ 0) by assumption.
  fold un. unfold Rdiv. apply Rmult_le_compat_r.
  - left. now apply Rinv_0_lt_compat.
  - destruct Hle as [Hlt|Heq].
    + left. apply exp_increasing. lra.
    + right. now rewrite Heq.
Qed.

End EnsembleWeightsMore.

(** * The losses of MaximumLikelihood and MAP *)

Section PointEstimateLossFacts.
Local Open Scope R_scope.
Context {Value : Type}.
Variable calculate_log_probability : gmap nat Value -> tensor.

Lemma union_agree (empirical a b : gmap nat Value) :
  (forall k, empirical !! k = None -> a !! k = b !! k) ->
  empirical ∪ a = empirical ∪ b.
Proof.
  intros H. apply map_eq. intros k. rewrite !lookup_union.
  destruct (empirical !! k) eqn:E.
  - destruct (a !! k), (b !! k); reflexivity.
  - now rewrite (H k E).
Qed.

Lemma union_covered (empirical a : gmap nat Value) :
  (forall k, is_Some (a !! k) -> is_Some (empirical !! k)) ->
  empirical ∪ a = empirical.
Proof.
  intros H. apply map_eq. intros k. rewrite lookup_union.
  destruct (empirical !! k) eqn:E.
  - destruct (a !! k); reflexivity.
  - destruct (a !! k) eqn:Ea; [|reflexivity].
    destruct (H k) as [w Hw]; [now rewrite Ea|]. congruence.
Qed.

(** X17.  In the loss of MAP the observed values override the point
    estimates: two posterior samples that agree on the variables that are
    not observed give the same loss, and when every variable of the
    posterior sample is observed the loss is the one of
    [MaximumLikelihood]. *)
Theorem MAP_loss_ignores_estimates_of_observed_variables
        (empirical_samples : gmap nat Value) :
  (forall variable_values variable_values',
      (forall k, empirical_samples !! k = None ->
                 variable_values !! k = variable_values' !! k) ->
      MAP_compute_loss calculate_log_probability empirical_samples variable_values
      = MAP_compute_loss calculate_log_probability empirical_samples variable_values')
  /\
  (forall variable_values,
      (forall k, is_Some (variable_values !! k) -> is_Some (empirical_samples !! k)) ->
      MAP_compute_loss calculate_log_probability empirical_samples variable_values
      = MaximumLikelihood_compute_loss calculate_log_probability empirical_samples).
Proof.
  split.
  - intros a b H. unfold MAP_compute_loss. cbv zeta.
    now rewrite (union_agree empirical_samples a b H).
  - intros a H. unfold MAP_compute_loss, MaximumLikelihood_compute_loss. cbv zeta.
    now rewrite (union_covered empirical_samples a H).
Qed.

End PointEstimateLossFacts.

Section PointEstimateLossWitness.
Local Open Scope R_scope.

Lemma MAP_loss_ignores_estimates_of_observed_variables_witness :
  MAP_compute_loss (Value := nat) (fun s => [INR (size s)])
                   {[ 1%nat := 5%nat ]} {[ 1%nat := 9%nat; 2%nat := 7%nat ]}
  = MAP_compute_loss (Value := nat) (fun s => [INR (size s)])
                     {[ 1%nat := 5%nat ]} {[ 1%nat := 0%nat; 2%nat := 7%nat ]}
  /\
  MAP_compute_loss (Value := nat) (fun s => [INR (size s)])
                   {[ 1%nat := 5%nat ]} {[ 1%nat := 9%nat ]}
  = MaximumLikelihood_compute_loss (Value := nat) (fun s => [INR (size s)])
                                   {[ 1%nat := 5%nat ]}.
Proof.
  pose proof (MAP_loss_ignores_estimates_of_observed_variables
                (Value := nat) (fun s => [INR (size s)]) {[ 1%nat := 5%nat ]})
    as [H1 H2].
  split.
  - apply H1. intros k Hk.
    destruct (decide (k = 1%nat)) as [->|Hne].
    + rewrite lookup_singleton_eq in Hk. discriminate.
    + destruct (decide (k = 2%nat)) as [->|Hne2].
      * reflexivity.
      * rewrite !lookup_insert_ne by congruence. reflexivity.
  - apply H2. intros k [v Hv].
    destruct (decide (k = 1%nat)) as [->|Hne].
    + rewrite lookup_singleton_eq. eauto.
    + rewrite lookup_singleton_ne in Hv by congruence. discriminate.
Defined.

End PointEstimateLossWitness.

Section MoreWitnesses.
Local Open Scope R_scope.

Lemma particle_loss_without_samplers_or_samples_witness :
  get_particle_loss (Sampler := unit) (Particle := unit) (Sample := unit)
                    (Var := unit) (Value := unit)
                    (fun _ _ => tt) (fun _ => tt) (fun _ _ => [1 / 2; 1 / 2])
                    (fun _ _ _ => tt) (fun _ _ => [(tt, (tt, tt))])
                    (fun _ _ => [1; 1]) py_sum_tensors
                    true [tt] [] 0
  = Ok 0
  /\
  get_particle_loss (Sampler := unit) (Particle := unit) (Sample := unit)
                    (Var := unit) (Value := unit)
                    (fun _ _ => tt) (fun _ => tt) (fun _ _ => [1 / 2; 1 / 2])
                    (fun _ _ _ => tt) (fun _ _ => [(tt, (tt, tt))])
                    (fun _ _ => [1; 1]) py_sum_tensors
                    true [tt] [tt] 0
  = Err ZeroDivisionError.
Proof.
  split.
  - apply (proj1 (particle_loss_without_samplers_or_samples
                    (Sampler := unit) (Particle := unit) (Sample := unit)
                    (Var := unit) (Value := unit)
                    (fun _ _ => tt) (fun _ => tt) (fun _ _ => [1 / 2; 1 / 2])
                    (fun _ _ _ => tt) (fun _ _ => [(tt, (tt, tt))])
                    (fun _ _ => [1; 1]) py_sum_tensors true [tt] [] 0)).
    reflexivity.
  - apply (proj2 (particle_loss_without_samplers_or_samples
                    (Sampler := unit) (Particle := unit) (Sample := unit)
                    (Var := unit) (Value := unit)
                    (fun _ _ => tt) (fun _ => tt) (fun _ _ => [1 / 2; 1 / 2])
                    (fun _ _ _ => tt) (fun _ _ => [(tt, (tt, tt))])
                    (fun _ _ => [1; 1]) py_sum_tensors true [tt] [tt] 0));
      [reflexivity|reflexivity|discriminate].
Defined.

Lemma ensemble_weights_keep_the_order_witness :
  exists weights,
    ensemble_weights [0; 1] = Ok weights /\ nth 0 weights 0 <= nth 1 weights 0.
Proof.
  destruct (ensemble_weights_keep_the_order 0 [1]) as (weights & Hw & Horder).
  exists weights. split; [exact Hw|].
  apply Horder; simpl; try lia. lra.
Defined.

End MoreWitnesses.
